(** * Gentleman book MCP server: the search and indexing subsystem

    A shallow embedding of
    - [internal/book/models.go] and [internal/book/parser.go] (module [Book]):
      front-matter parsing, chapter listing, the book index and the
      locales, section lookup, slug derivation and the keyword search;
    - the embeddings package (module [Embeddings]): the vector store, cosine
      similarity, the OpenAI and Ollama clients and the semantic engine;
    - the chunker, the index-build handler and the tools that read a
      chapter and search the book of the main package (module [Main]).

    The first half of the file holds the model, the second half the
    statements proved about it. *)

From Stdlib Require Import ZArith NArith Lia QArith Floats DecimalString DecimalPos DecimalZ.
From stdpp Require Import base numbers list sorting strings.

Local Open Scope nat_scope.

(* ================================================================== *)
(** * Part I: the model *)
(* ================================================================== *)

(** ** Go strings and the [strings], [unicode], [bufio] and [strconv]
       functions the program calls *)

Module GoString.

(** A call that returns [(value, error)]. *)
Inductive result (E A : Type) : Type :=
  | Ok (a : A)
  | Err (e : E).
Arguments Ok {E A} a.
Arguments Err {E A} e.

(** A call that may end in a run-time panic instead of returning. *)
Inductive outcome (A : Type) : Type :=
  | Returns (a : A)
  | Panics.
Arguments Returns {A} a.
Arguments Panics {A}.

(** A Go string is a sequence of bytes.  [range], the [strings] package
    and the regexp engine read it as UTF-8, one character at a time: a
    well-formed encoding is one code point, and any byte that is not part
    of one is a character of its own (read as [utf8.RuneError], one byte
    wide).  A string is modelled by that sequence of characters: the
    string of the bytes [bs] is the text [decode bs], defined below, and
    the texts that stand for strings are the [decoded] ones.  The
    functions of the program take such a text apart and put ASCII
    literals next to it, where [++] is Go's [+]; two texts that end and
    start inside one UTF-8 sequence join to [plus], not to [++]. *)
Inductive gochar : Type :=
  | Rune (cp : N)
  | RawByte (b : N).

#[global] Instance gochar_eq_dec : EqDecision gochar.
Proof. solve_decision. Defined.

Abbreviation text := (list gochar).

(** String literals of the source; they are ASCII throughout. *)
Definition T (s : string) : text :=
  (λ a, Rune (Ascii.N_of_ascii a)) <$> String.list_ascii_of_string s.

(** The code point a character is read as ([utf8.RuneError] is U+FFFD). *)
Definition RuneError : N := 0xFFFD.

Definition codepoint (c : gochar) : N :=
  match c with Rune cp => cp | RawByte _ => RuneError end.

Definition isChar (a : N) (c : gochar) : bool :=
  match c with Rune cp => N.eqb cp a | RawByte _ => false end.

(** [utf8.AppendRune]: the bytes of a code point. *)
Definition utf8 (cp : N) : list N :=
  if (cp <? 0x80)%N then [cp]
  else if (cp <? 0x800)%N then [0xC0 + cp / 64; 0x80 + cp mod 64]%N
  else if ((0xD800 <=? cp) && (cp <=? 0xDFFF) || (0x10FFFF <? cp))%N
       then [0xEF; 0xBF; 0xBD]%N
  else if (cp <? 0x10000)%N
       then [0xE0 + cp / 4096; 0x80 + (cp / 64) mod 64; 0x80 + cp mod 64]%N
  else [0xF0 + cp / 262144; 0x80 + (cp / 4096) mod 64;
        0x80 + (cp / 64) mod 64; 0x80 + cp mod 64]%N.

Definition charBytes (c : gochar) : list N :=
  match c with Rune cp => utf8 cp | RawByte b => [b] end.

Definition bytes (s : text) : list N := s ≫= charBytes.

(** [len(s)]: the number of bytes. *)
Definition len (s : text) : nat := length (bytes s).

(** [utf8.DecodeRune] on a string that is not empty: the character at
    its head and the number of bytes it takes.  The first byte says how
    long the sequence is and which second bytes it accepts (the table
    [first] and [acceptRanges] of package [utf8]); the bytes after the
    second are continuation bytes.  Whatever does not fit is
    [utf8.RuneError] of width 1. *)
Definition continuationByte (b : N) : bool := ((0x80 <=? b) && (b <=? 0xBF))%N.

Definition sequenceShape (b0 : N) : option (nat * N * N) :=
  if ((0xC2 <=? b0) && (b0 <=? 0xDF))%N then Some (2, 0x80%N, 0xBF%N)
  else if (b0 =? 0xE0)%N then Some (3, 0xA0%N, 0xBF%N)
  else if (b0 =? 0xED)%N then Some (3, 0x80%N, 0x9F%N)
  else if ((0xE1 <=? b0) && (b0 <=? 0xEF))%N then Some (3, 0x80%N, 0xBF%N)
  else if (b0 =? 0xF0)%N then Some (4, 0x90%N, 0xBF%N)
  else if (b0 =? 0xF4)%N then Some (4, 0x80%N, 0x8F%N)
  else if ((0xF1 <=? b0) && (b0 <=? 0xF3))%N then Some (4, 0x80%N, 0xBF%N)
  else None.

Definition decodeRune (s : list N) : gochar * nat :=
  match s with
  | [] => (Rune RuneError, 0)
  | b0 :: rest =>
      if (b0 <? 0x80)%N then (Rune b0, 1)
      else
        match sequenceShape b0, rest with
        | Some (sz, lo, hi), b1 :: rest1 =>
            if (length s <? sz) || (b1 <? lo)%N || (hi <? b1)%N then (RawByte b0, 1)
            else if sz <=? 2 then (Rune ((b0 mod 32) * 64 + b1 mod 64)%N, 2)
            else
              match rest1 with
              | b2 :: rest2 =>
                  if negb (continuationByte b2) then (RawByte b0, 1)
                  else if sz <=? 3
                  then (Rune ((b0 mod 16) * 4096 + (b1 mod 64) * 64 + b2 mod 64)%N, 3)
                  else
                    match rest2 with
                    | b3 :: _ =>
                        if negb (continuationByte b3) then (RawByte b0, 1)
                        else (Rune ((b0 mod 8) * 262144 + (b1 mod 64) * 4096
                                    + (b2 mod 64) * 64 + b3 mod 64)%N, 4)
                    | [] => (RawByte b0, 1)
                    end
              | [] => (RawByte b0, 1)
              end
        | _, _ => (RawByte b0, 1)
        end
  end.

(** The characters a string is read as, [DecodeRune] after [DecodeRune];
    a character takes a byte at least, so the length of the string is
    fuel enough. *)
Fixpoint decodeFrom (fuel : nat) (s : list N) : text :=
  match fuel, s with
  | S fuel', _ :: _ => let '(c, w) := decodeRune s in c :: decodeFrom fuel' (drop w s)
  | _, _ => []
  end.

Definition decode (s : list N) : text := decodeFrom (length s) s.

(** A text that is what Go reads of its own bytes. *)
Definition decoded (s : text) : Prop := decode (bytes s) = s.

(** [a + b]. *)
Definition plus (a b : text) : text := decode (bytes a ++ bytes b).

(** [s[:n]] for [n <= len(s)] (the callers check it): the first [n]
    bytes.  A code point cut in the middle leaves bytes that no longer
    decode. *)
Fixpoint sliceTo (n : nat) (s : text) : text :=
  match s with
  | [] => []
  | c :: s' =>
      let w := length (charBytes c) in
      if w <=? n then c :: sliceTo (n - w) s'
      else RawByte <$> take n (charBytes c)
  end.

(** *** Character classes *)

(** [unicode.IsSpace]. *)
Definition isSpace (c : gochar) : bool :=
  match c with
  | Rune cp =>
      ((9 <=? cp) && (cp <=? 13) || (cp =? 32) || (cp =? 0x85) || (cp =? 0xA0)
       || (cp =? 0x1680) || (0x2000 <=? cp) && (cp <=? 0x200A)
       || (cp =? 0x2028) || (cp =? 0x2029) || (cp =? 0x202F)
       || (cp =? 0x205F) || (cp =? 0x3000))%N
  | RawByte _ => false
  end.

(** The regexp class [\s], which is [[\t\n\f\r ]]. *)
Definition reSpace (c : gochar) : bool :=
  isChar 9 c || isChar 10 c || isChar 12 c || isChar 13 c || isChar 32 c.

(** The regexp class [\d], which is [[0-9]]. *)
Definition reDigit (c : gochar) : bool :=
  match c with
  | Rune cp => ((48 <=? cp) && (cp <=? 57))%N
  | RawByte _ => false
  end.

Definition newline : gochar := Rune 10.
Definition isNewline (c : gochar) : bool := isChar 10 c.

(** The case and category tables of package [unicode], which the program
    reaches through [strings.ToLower] and the regexp classes [\p{L}] and
    [\p{N}].  They are data of the Go distribution. *)
Class Unicode : Type := {
  unicode_ToLower : N → N;
  unicode_L : N → bool;
  unicode_N : N → bool
}.

(** The tables restricted to ASCII. *)
Definition asciiToLower (cp : N) : N :=
  if ((65 <=? cp) && (cp <=? 90))%N then (cp + 32)%N else cp.
Definition asciiLetter (cp : N) : bool :=
  ((65 <=? cp) && (cp <=? 90) || (97 <=? cp) && (cp <=? 122))%N.
Definition asciiDigit (cp : N) : bool := ((48 <=? cp) && (cp <=? 57))%N.

(** What the theorems use of the tables: lowering a second time changes
    nothing, white space has no case, and below 128 the tables are the
    ASCII ones. *)
Class UnicodeLaws (U : Unicode) : Prop := {
  ToLower_idemp : ∀ cp, unicode_ToLower (unicode_ToLower cp) = unicode_ToLower cp;
  ToLower_space : ∀ cp, isSpace (Rune cp) = true → unicode_ToLower cp = cp;
  ToLower_ascii : ∀ cp, (cp < 128)%N → unicode_ToLower cp = asciiToLower cp;
  L_ascii : ∀ cp, (cp < 128)%N → unicode_L cp = asciiLetter cp;
  N_ascii : ∀ cp, (cp < 128)%N → unicode_N cp = asciiDigit cp
}.

(** White space is neither a letter nor a digit. *)
Class SpaceLaws (U : Unicode) : Prop := {
  L_space : ∀ cp, isSpace (Rune cp) = true → unicode_L cp = false;
  N_space : ∀ cp, isSpace (Rune cp) = true → unicode_N cp = false
}.

Definition asciiTables : Unicode :=
  {| unicode_ToLower := asciiToLower;
     unicode_L := asciiLetter;
     unicode_N := asciiDigit |}.

(** *** Package [strings] *)

Fixpoint HasPrefix (s prefix : text) : bool :=
  match prefix, s with
  | [], _ => true
  | p :: prefix', c :: s' => bool_decide (c = p) && HasPrefix s' prefix'
  | _ :: _, [] => false
  end.

(** [strings.Index], as an offset in characters; [None] is Go's [-1].
    The program only slices at the offsets it gets back, next to ASCII
    markers, where it does not matter in which unit they are counted. *)
Fixpoint Index (s sep : text) : option nat :=
  if HasPrefix s sep then Some 0
  else match s with
       | [] => None
       | _ :: s' => S <$> Index s' sep
       end.

Definition HasSuffix (s suffix : text) : bool :=
  HasPrefix (reverse s) (reverse suffix).

Definition Contains (s substr : text) : bool :=
  bool_decide (is_Some (Index s substr)).

Fixpoint dropWhile {A} (p : A → bool) (l : list A) : list A :=
  match l with
  | [] => []
  | x :: l' => if p x then dropWhile p l' else l
  end.

Fixpoint takeWhile {A} (p : A → bool) (l : list A) : list A :=
  match l with
  | [] => []
  | x :: l' => if p x then x :: takeWhile p l' else []
  end.

Definition trimLeft (p : gochar → bool) (s : text) : text := dropWhile p s.
Definition trimRight (p : gochar → bool) (s : text) : text :=
  reverse (dropWhile p (reverse s)).

Definition TrimSpace (s : text) : text := trimRight isSpace (trimLeft isSpace s).

(** [strings.Trim(s, cutset)] for a cutset of one ASCII character. *)
Definition Trim (s : text) (cut : N) : text := trimRight (isChar cut) (trimLeft (isChar cut) s).

(** [strings.ReplaceAll(s, old, new)] where [old] and [new] are one
    ASCII character each. *)
Definition ReplaceAll (s : text) (old new : N) : text :=
  (λ c, if isChar old c then Rune new else c) <$> s.

(** [strings.ToLower]: [unicode.ToLower] on every character; a byte that
    does not decode comes out as U+FFFD. *)
Definition ToLower {unicode : Unicode} (s : text) : text :=
  (λ c, Rune (unicode_ToLower (codepoint c))) <$> s.

(** [strings.Split(s, sep)] for a non-empty [sep]: the pieces between the
    successive occurrences of [sep].  [skip] counts the characters of a
    separator still to be passed over. *)
Fixpoint splitFrom (sep : text) (skip : nat) (s : text) : list text :=
  match s with
  | [] => [[]]
  | c :: s' =>
      match skip with
      | S k => splitFrom sep k s'
      | O =>
          if HasPrefix s sep then [] :: splitFrom sep (length sep - 1) s'
          else match splitFrom sep 0 s' with
               | piece :: rest => (c :: piece) :: rest
               | [] => [[c]]
               end
      end
  end.

Definition Split (s sep : text) : list text := splitFrom sep 0 s.

(** [strings.Fields]: the maximal runs of characters that are not
    [unicode.IsSpace]. *)
Fixpoint Fields (s : text) : list text :=
  match s with
  | [] => []
  | c :: s' =>
      if isSpace c then Fields s'
      else match s' with
           | [] => [[c]]
           | c' :: _ =>
               if isSpace c' then [c] :: Fields s'
               else match Fields s' with
                    | f :: fs => (c :: f) :: fs
                    | [] => [[c]]
                    end
           end
  end.

(** Joining with a separator, as the loops of the program do with [+=]
    and [strings.Builder]. *)
Fixpoint join (sep : text) (l : list text) : text :=
  match l with
  | [] => []
  | [x] => x
  | x :: l' => x ++ sep ++ join sep l'
  end.

(** *** [bufio.Scanner] with the default [bufio.ScanLines] *)

Definition MaxScanTokenSize : nat := 64 * 1024.

(** The text cut at every newline; nothing follows a final newline. *)
Fixpoint rawLines (s : text) : list text :=
  match s with
  | [] => []
  | c :: s' =>
      if isNewline c then [] :: rawLines s'
      else match rawLines s' with
           | l :: ls => (c :: l) :: ls
           | [] => [[c]]
           end
  end.

Definition dropCR (l : text) : text :=
  match reverse l with
  | c :: r => if isChar 13 c then reverse r else l
  | [] => l
  end.

(** The lines [scanner.Scan] yields before it returns false: the scanner's
    buffer holds [MaxScanTokenSize] bytes, so it gives up (for good, with
    [ErrTooLong], which [Search] does not look at) at the first line that
    does not fit with its newline. *)
Definition fitsBuffer (l : text) : bool := len l <? MaxScanTokenSize.
Definition ScanLines (s : text) : list text :=
  dropCR <$> takeWhile fitsBuffer (rawLines s).

(** *** [strconv.Atoi] on a run of decimal digits, and [%d] *)

Definition MaxInt : Z := 2 ^ 63 - 1.

Definition digitsValue (ds : text) : Z :=
  foldl (λ acc c, 10 * acc + (Z.of_N (codepoint c) - 48))%Z 0%Z ds.

(** On a number that does not fit, [Atoi] returns the largest [int] next
    to its error. *)
Definition Atoi (ds : text) : Z := Z.min (digitsValue ds) MaxInt.

(** [fmt.Sprintf("%d", n)]. *)
Definition formatInt (n : Z) : text := T (NilZero.string_of_int (Z.to_int n)).

End GoString.

(** ** [internal/book]: models.go and parser.go *)

Module Book.
Import GoString.

(** *** models.go *)

Record Section : Type := {
  Section_Name : text;
  Section_TagID : text
}.

Record Chapter : Type := {
  Chapter_ID : text;
  Chapter_Order : Z;
  Chapter_Name : text;
  Chapter_Locale : text;
  Chapter_TitleList : list Section;
  Chapter_Content : text;
  Chapter_FilePath : text
}.

(** [Relevance] is the [float64] quotient of two small non-negative
    integers; it is kept as the exact rational, which orders the same way
    ([float64] division is correctly rounded, hence monotone, and quotients
    of integers below 2^52 with a common divisor do not collide). *)
Record SearchResult : Type := {
  Result_ChapterID : text;
  Result_ChapterName : text;
  Result_Section : text;
  Result_Snippet : text;
  Result_LineNumber : nat;
  Result_Relevance : Q;
  Result_Locale : text
}.

(** *** What parser.go takes from outside the repository *)

(** The [error] values of parser.go, by the format string that builds
    them. *)
Inductive error : Type :=
  | ErrReadingFile (filePath : text)
  | ErrNoFrontmatter
  | ErrFrontmatterNotClosed
  | ErrParsingFrontmatter (filePath : text) (cause : error)
  | ErrReadingDirectory (localePath : text)
  | ErrChapterNotFound (chapterID : text)
  | ErrSectionNotFound (sectionTagID : text).

Record DirEntry : Type := {
  Entry_Name : text;
  Entry_IsDir : bool
}.

(** The file system, as [os.ReadDir], [os.ReadFile] and [filepath.Join]
    show it ([None]: the call returned an error). *)
Class OS : Type := {
  filepath_Join : text → text → text;
  os_ReadDir : text → option (list DirEntry);
  os_ReadFile : text → option text
}.

(** [json.Unmarshal] into a [[]Section] ([None]: it returned an error). *)
Class JSON : Type := {
  json_Unmarshal : text → option (list Section)
}.

(** [sort.Slice], which promises an ordered permutation and no more (it
    is not stable). *)
Class Sort : Type := {
  sort_Slice : ∀ A : Type, (A → A → bool) → list A → list A
}.
Arguments sort_Slice {_ A} less x.

(** A comparison [sort.Slice] can work with. *)
Definition strictWeak {A} (less : A → A → bool) : Prop :=
  (∀ x y, less x y = true → less y x = false) ∧
  (∀ x y z, less x z = true → less x y = true ∨ less y z = true).

Class SortLaws (S : Sort) : Prop := {
  sort_Slice_perm : ∀ A (less : A → A → bool) x, sort_Slice less x ≡ₚ x;
  sort_Slice_sorted : ∀ A (less : A → A → bool) x,
    strictWeak less → StronglySorted (λ a b, less b a = false) (sort_Slice less x)
}.

Section Parser.
Context {unicode : Unicode} {os : OS} {json : JSON} {sort : Sort}.

Record Parser : Type := { bookPath : text }.

(** [frontmatter] *)
Record frontmatter : Type := {
  fm_ID : text;
  fm_Order : Z;
  fm_Name : text;
  fm_TitleList : list Section
}.

Definition quote : gochar := Rune 39.
Definition dquote : gochar := Rune 34.
Definition isQuote (c : gochar) : bool := isChar 39 c || isChar 34 c.

(** The rest of the patterns for [id] and [name] after the key (blanks,
    a single or double quote, a group of one or more characters that are
    no quotes, a quote): the blanks, an opening quote, the longest run
    without a quote (the group), and a quote behind it. *)
Definition quotedValue (s : text) : option text :=
  match dropWhile reSpace s with
  | q :: s1 =>
      if isQuote q then
        let v := takeWhile (λ c, negb (isQuote c)) s1 in
        match v, drop (length v) s1 with
        | _ :: _, _ :: _ => Some v
        | _, _ => None
        end
      else None
  | [] => None
  end.

(** The rest of [order:\s*(\d+)] after the key. *)
Definition digitsValueAt (s : text) : option text :=
  match takeWhile reDigit (dropWhile reSpace s) with
  | [] => None
  | ds => Some ds
  end.

(** [FindStringSubmatch] for a pattern that is a literal key and then
    [after]: group 1 of the leftmost match. *)
Fixpoint findAfterKey (key : text) (after : text → option text) (s : text)
    : option text :=
  match (if HasPrefix s key then after (drop (length key) s) else None) with
  | Some v => Some v
  | None =>
      match s with
      | [] => None
      | _ :: s' => findAfterKey key after s'
      end
  end.

(** The loop that counts brackets from the opening one: the number of
    characters up to and with the bracket that closes it. *)
Fixpoint arrayEndFrom (bracketCount : Z) (s : text) : option nat :=
  match s with
  | [] => None
  | c :: s' =>
      if isChar 91 c then S <$> arrayEndFrom (bracketCount + 1) s'
      else if isChar 93 c then
        if (bracketCount - 1 =? 0)%Z then Some 1
        else S <$> arrayEndFrom (bracketCount - 1) s'
      else S <$> arrayEndFrom bracketCount s'
  end.

(** A blank and [key:] replaced by the blank and the key in double
    quotes (the pattern with group [(\s)] before the key). *)
Fixpoint quoteKeyAfterBlank (key : text) (skip : nat) (s : text) : text :=
  match s with
  | [] => []
  | c :: s' =>
      match skip with
      | S k => quoteKeyAfterBlank key k s'
      | O =>
          if reSpace c && HasPrefix s' (key ++ T ":")
          then c :: dquote :: key ++ dquote :: T ":"
                 ++ quoteKeyAfterBlank key (length key + 1) s'
          else c :: quoteKeyAfterBlank key 0 s'
      end
  end.

(** An opening brace, blanks and [key:] replaced by the brace and the key
    in double quotes. *)
Fixpoint quoteKeyAfterBrace (key : text) (skip : nat) (s : text) : text :=
  match s with
  | [] => []
  | c :: s' =>
      match skip with
      | S k => quoteKeyAfterBrace key k s'
      | O =>
          let blanks := takeWhile reSpace s' in
          if isChar 123 c && HasPrefix (drop (length blanks) s') (key ++ T ":")
          then T "{" ++ dquote :: key ++ dquote :: T ":"
                 ++ quoteKeyAfterBrace key (length blanks + length key + 1) s'
          else c :: quoteKeyAfterBrace key 0 s'
      end
  end.

(** [\s+] replaced by one space. *)
Fixpoint squeezeBlanks (s : text) : text :=
  match s with
  | [] => []
  | c :: s' =>
      if reSpace c then
        match s' with
        | c' :: _ => if reSpace c' then squeezeBlanks s' else Rune 32 :: squeezeBlanks s'
        | [] => [Rune 32]
        end
      else c :: squeezeBlanks s'
  end.

Definition cleanArrayToJSON (content : text) : text :=
  let content := ReplaceAll content 39 34 in
  let content := quoteKeyAfterBlank (T "name") 0 content in
  let content := quoteKeyAfterBlank (T "tagId") 0 content in
  let content := quoteKeyAfterBrace (T "name") 0 content in
  let content := quoteKeyAfterBrace (T "tagId") 0 content in
  squeezeBlanks content.

(** The title list of the front matter: [None] where the code leaves
    [fm.TitleList] as it is. *)
Definition titleListLiteral (fmContent : text) : option text :=
  match Index fmContent (T "titleList:") with
  | None => None
  | Some titleListStart =>
      match Index (drop titleListStart fmContent) (T "[") with
      | None => None
      | Some arrayStart =>
          let startPos := titleListStart + arrayStart in
          match arrayEndFrom 0 (drop startPos fmContent) with
          | None => None
          | Some n => Some (take n (drop startPos fmContent))
          end
      end
  end.

Definition parseTitleList (fmContent : text) : list Section :=
  match titleListLiteral fmContent with
  | None => []
  | Some arrayContent =>
      match json_Unmarshal (cleanArrayToJSON arrayContent) with
      | Some sections => sections
      | None => []
      end
  end.

Definition parseFrontmatter (content : text) : result error (frontmatter * text) :=
  if negb (HasPrefix content (T "---")) then Err ErrNoFrontmatter
  else
    match Index (drop 3 content) (T "---") with
    | None => Err ErrFrontmatterNotClosed
    | Some endIndex =>
        let fmContent := take endIndex (drop 3 content) in
        let body := TrimSpace (drop (endIndex + 6) content) in
        let fm :=
          {| fm_ID := default [] (findAfterKey (T "id:") quotedValue fmContent);
             fm_Order := default 0%Z
               (Atoi <$> findAfterKey (T "order:") digitsValueAt fmContent);
             fm_Name := default [] (findAfterKey (T "name:") quotedValue fmContent);
             fm_TitleList := parseTitleList fmContent |} in
        Ok (fm, body)
    end.

Definition ParseChapter (p : Parser) (filePath locale : text) : result error Chapter :=
  match os_ReadFile filePath with
  | None => Err (ErrReadingFile filePath)
  | Some contentStr =>
      match parseFrontmatter contentStr with
      | Err err => Err (ErrParsingFrontmatter filePath err)
      | Ok (fm, body) =>
          Ok {| Chapter_ID := fm_ID fm;
                Chapter_Order := fm_Order fm;
                Chapter_Name := fm_Name fm;
                Chapter_Locale := locale;
                Chapter_TitleList := fm_TitleList fm;
                Chapter_Content := body;
                Chapter_FilePath := filePath |}
      end
  end.

Definition ListChapters (p : Parser) (locale : text) : result error (list Chapter) :=
  let localePath := filepath_Join (bookPath p) locale in
  match os_ReadDir localePath with
  | None => Err (ErrReadingDirectory localePath)
  | Some entries =>
      let chapters :=
        foldl (λ chapters entry,
                 if Entry_IsDir entry || negb (HasSuffix (Entry_Name entry) (T ".mdx"))
                 then chapters
                 else match ParseChapter p (filepath_Join localePath (Entry_Name entry)) locale with
                      | Err _ => chapters
                      | Ok chapter => chapters ++ [chapter]
                      end)
              [] entries in
      Ok (sort_Slice (λ a b, (Chapter_Order a <? Chapter_Order b)%Z) chapters)
  end.

Definition GetChapter (p : Parser) (chapterID locale : text) : result error Chapter :=
  match ListChapters p locale with
  | Err err => Err err
  | Ok chapters =>
      match list_find (λ ch, Chapter_ID ch = chapterID) chapters with
      | Some (_, ch) => Ok ch
      | None => Err (ErrChapterNotFound chapterID)
      end
  end.

(** Group 1 of [^#{1,6}\s+(.+)$] on [line], if it matches: one to six
    marks, blanks, and a rest of the line that is not empty.  When only
    blanks follow the marks, the last of two or more is the group. *)
Definition headerMatch (line : text) : option text :=
  let marks := takeWhile (isChar 35) line in
  let blanks := takeWhile reSpace (drop (length marks) line) in
  let rest := drop (length marks + length blanks) line in
  if (1 <=? length marks) && (length marks <=? 6) && (1 <=? length blanks) then
    match rest with
    | _ :: _ => if forallb (λ c, negb (isNewline c)) rest then Some rest else None
    | [] =>
        match reverse blanks with
        | c :: _ :: _ => if isNewline c then None else Some [c]
        | _ => None
        end
    end
  else None.

(** [[^\p{L}\p{N}-]]: what the slug drops. *)
Definition slugChar (c : gochar) : bool :=
  unicode_L (codepoint c) || unicode_N (codepoint c) || isChar 45 c.

(** [-+] replaced by one hyphen. *)
Fixpoint squeezeHyphens (s : text) : text :=
  match s with
  | [] => []
  | c :: s' =>
      if isChar 45 c then
        match s' with
        | c' :: _ => if isChar 45 c' then squeezeHyphens s' else c :: squeezeHyphens s'
        | [] => [c]
        end
      else c :: squeezeHyphens s'
  end.

Definition generateTagID (p : Parser) (title : text) : text :=
  let tagID := ToLower title in
  let tagID := ReplaceAll tagID 32 45 in
  let tagID := filter (λ c, slugChar c = true) tagID in
  let tagID := squeezeHyphens tagID in
  Trim tagID 45.

(** The loop of [GetSection] over the lines still to read; returning
    [sectionContent] at a heading of another slug is its [break]. *)
Fixpoint sectionLoop (p : Parser) (sectionTagID : text) (lines : list text)
    (inSection : bool) (sectionContent : text) : text :=
  match lines with
  | [] => sectionContent
  | line :: lines' =>
      let written := sectionContent ++ line ++ T "
" in
      let next :=
        if inSection then sectionLoop p sectionTagID lines' inSection written
        else sectionLoop p sectionTagID lines' inSection sectionContent in
      match headerMatch line with
      | Some headerText =>
          if bool_decide (generateTagID p headerText = sectionTagID)
          then sectionLoop p sectionTagID lines' true written
          else if inSection then sectionContent
          else next
      | None => next
      end
  end.

Definition GetSection (p : Parser) (chapterID sectionTagID locale : text)
    : result error text :=
  match GetChapter p chapterID locale with
  | Err err => Err err
  | Ok chapter =>
      let lines := Split (Chapter_Content chapter) (T "
") in
      let sectionContent := sectionLoop p sectionTagID lines false [] in
      if len sectionContent =? 0 then Err (ErrSectionNotFound sectionTagID)
      else Ok (TrimSpace sectionContent)
  end.

(** The inner loop of [Search] over the words of the query. *)
Definition matchCount (queryWords : list text) (lineLower : text) : nat :=
  foldl (λ matchCount word, if Contains lineLower word then S matchCount else matchCount)
        0 queryWords.

(** [float64(matchCount) / float64(len(queryWords))], which [Search]
    computes under [matchCount > 0] only. *)
Definition relevanceOf (matchCount total : nat) : Q :=
  Z.of_nat matchCount # Pos.of_nat total.

Definition snippetOf (line : text) : text :=
  if 200 <? len line then sliceTo 200 line ++ T "..." else line.

(** The variables of the loop over the lines of one chapter. *)
Record scan : Type := {
  lineNum : nat;
  currentSection : text;
  results : list SearchResult
}.

Definition scanLine (queryWords : list text) (chapter : Chapter) (locale : text)
    (st : scan) (line : text) : scan :=
  let lineNum := S (lineNum st) in
  let lineLower := ToLower line in
  let currentSection :=
    match headerMatch line with
    | Some headerText => headerText
    | None => currentSection st
    end in
  let matchCount := matchCount queryWords lineLower in
  let results :=
    if 0 <? matchCount then
      results st ++
        [{| Result_ChapterID := Chapter_ID chapter;
            Result_ChapterName := Chapter_Name chapter;
            Result_Section := currentSection;
            Result_Snippet := snippetOf line;
            Result_LineNumber := lineNum;
            Result_Relevance := relevanceOf matchCount (length queryWords);
            Result_Locale := locale |}]
    else results st in
  {| lineNum := lineNum; currentSection := currentSection; results := results |}.

Definition scanChapter (queryWords : list text) (locale : text)
    (found : list SearchResult) (chapter : Chapter) : list SearchResult :=
  results
    (foldl (scanLine queryWords chapter locale)
           {| lineNum := 0; currentSection := []; results := found |}
           (ScanLines (Chapter_Content chapter))).

Definition byRelevance (a b : SearchResult) : bool :=
  negb (Qle_bool (Result_Relevance a) (Result_Relevance b)).

Definition Search (p : Parser) (query locale : text) : result error (list SearchResult) :=
  match ListChapters p locale with
  | Err err => Err err
  | Ok chapters =>
      let queryLower := ToLower query in
      let queryWords := Fields queryLower in
      let results := foldl (scanChapter queryWords locale) [] chapters in
      let results := sort_Slice byRelevance results in
      Ok (if 20 <? length results then take 20 results else results)
  end.

Definition NewParser (bookPath : text) : Parser := {| bookPath := bookPath |}.

(** [BookIndex] of models.go. *)
Record BookIndex : Type := {
  Index_Locale : text;
  Index_TotalChapters : nat;
  Index_Chapters : list Chapter
}.

(** [chapters[i].Content = ""] *)
Definition clearContent (ch : Chapter) : Chapter :=
  {| Chapter_ID := Chapter_ID ch;
     Chapter_Order := Chapter_Order ch;
     Chapter_Name := Chapter_Name ch;
     Chapter_Locale := Chapter_Locale ch;
     Chapter_TitleList := Chapter_TitleList ch;
     Chapter_Content := [];
     Chapter_FilePath := Chapter_FilePath ch |}.

Definition GetBookIndex (p : Parser) (locale : text) : result error BookIndex :=
  match ListChapters p locale with
  | Err err => Err err
  | Ok chapters =>
      let chapters := clearContent <$> chapters in
      Ok {| Index_Locale := locale;
            Index_TotalChapters := length chapters;
            Index_Chapters := chapters |}
  end.

(** [None] stands for the error of [os.ReadDir], which the function
    wraps and returns. *)
Definition GetAvailableLocales (p : Parser) : option (list text) :=
  match os_ReadDir (bookPath p) with
  | None => None
  | Some entries =>
      Some (foldl (λ locales entry,
                     if Entry_IsDir entry
                        && (bool_decide (Entry_Name entry = T "en")
                            || bool_decide (Entry_Name entry = T "es"))
                     then locales ++ [Entry_Name entry]
                     else locales)
                  [] entries)
  end.

End Parser.
End Book.

(** ** The embeddings package: vector store and semantic engine *)

Module Embeddings.
Import GoString.

(** [[]float64], with the IEEE 754 binary64 operations. *)
Definition vector : Type := list float.

Record Chunk : Type := {
  Chunk_ID : text;
  Chunk_ChapterID : text;
  Chunk_ChapterName : text;
  Chunk_Section : text;
  Chunk_Content : text;
  Chunk_Embedding : vector;
  Chunk_Locale : text
}.

Record SemanticResult : Type := {
  Semantic_ChapterID : text;
  Semantic_ChapterName : text;
  Semantic_Section : text;
  Semantic_Content : text;
  Semantic_Score : float;
  Semantic_Locale : text
}.

Inductive error : Type :=
  | ErrClient (message : text)
  | ErrGeneratingEmbeddings (cause : error)
  | ErrIndexNotBuilt.

(** *** VectorStore *)

Record VectorStore : Type := { chunks : list Chunk }.

Definition NewVectorStore : VectorStore := {| chunks := [] |}.

Definition VectorStore_Add (v : VectorStore) (chunk : Chunk) : VectorStore :=
  {| chunks := chunks v ++ [chunk] |}.

Definition VectorStore_AddBatch (v : VectorStore) (batch : list Chunk) : VectorStore :=
  {| chunks := chunks v ++ batch |}.

Definition VectorStore_Count (v : VectorStore) : nat := length (chunks v).

Definition VectorStore_Clear (v : VectorStore) : VectorStore := {| chunks := [] |}.

Definition cosineSimilarity (a b : vector) : float :=
  if negb (length a =? length b) then 0%float
  else
    let '(dotProduct, normA, normB) :=
      foldl (λ '(dotProduct, normA, normB) '(ai, bi),
               (dotProduct + ai * bi, normA + ai * ai, normB + bi * bi)%float)
            (0, 0, 0)%float (zip a b) in
    if (normA =? 0)%float || (normB =? 0)%float then 0%float
    else (dotProduct / (sqrt normA * sqrt normB))%float.

Record scored : Type := { chunk : Chunk; score : float }.

(** The body of the two sorting loops: [results[i]] and [results[j]]
    change places when [results[j].score > results[i].score]. *)
Definition exchange (i j : nat) (results : list scored) : list scored :=
  match results !! i, results !! j with
  | Some ri, Some rj =>
      if (score ri <? score rj)%float then <[i:=rj]> (<[j:=ri]> results) else results
  | _, _ => results
  end.

Definition sortDescending (results : list scored) : list scored :=
  let n := length results in
  foldl (λ results i,
           foldl (λ results j, exchange i j results) results (seq (i + 1) (n - (i + 1))))
        results (seq 0 n).

Definition toSemanticResult (r : scored) : SemanticResult :=
  {| Semantic_ChapterID := Chunk_ChapterID (chunk r);
     Semantic_ChapterName := Chunk_ChapterName (chunk r);
     Semantic_Section := Chunk_Section (chunk r);
     Semantic_Content := Chunk_Content (chunk r);
     Semantic_Score := score r;
     Semantic_Locale := Chunk_Locale (chunk r) |}.

(** The chunks the first loop of [Search] keeps. *)
Definition inLocale (locale : text) (c : Chunk) : bool :=
  negb (negb (bool_decide (locale = [])) && negb (bool_decide (Chunk_Locale c = locale))).

(** [results[:topK]] panics on a negative bound. *)
Definition VectorStore_Search (v : VectorStore) (queryEmbedding : vector)
    (locale : text) (topK : Z) : outcome (list SemanticResult) :=
  let results :=
    foldl (λ results chunk,
             if inLocale locale chunk
             then results ++ [{| chunk := chunk;
                                 score := cosineSimilarity queryEmbedding (Chunk_Embedding chunk) |}]
             else results)
          [] (chunks v) in
  let results := sortDescending results in
  let cut :=
    if (topK <? Z.of_nat (length results))%Z then
      if (topK <? 0)%Z then Panics else Returns (take (Z.to_nat topK) results)
    else Returns results in
  match cut with
  | Panics => Panics
  | Returns results => Returns (toSemanticResult <$> results)
  end.

(** *** The embedding client and the semantic engine *)

(** [EmbeddingClient]: a provider behind the network.  What it answers
    may depend on what went before, so a call returns the client it
    leaves. *)
Class EmbeddingClient (C : Type) : Type := {
  Embed : C → text → result error vector * C;
  EmbedBatch : C → list text → result error (list vector) * C
}.

Section Engine.
Context {C : Type} {embedding : EmbeddingClient C}.

Record SemanticEngine : Type := {
  client : C;
  store : VectorStore;
  isIndexed : bool
}.

Definition NewSemanticEngine (client : C) : SemanticEngine :=
  {| client := client; store := NewVectorStore; isIndexed := false |}.

Definition batchSize : nat := 100.

Definition withEmbedding (c : Chunk) (emb : vector) : Chunk :=
  {| Chunk_ID := Chunk_ID c;
     Chunk_ChapterID := Chunk_ChapterID c;
     Chunk_ChapterName := Chunk_ChapterName c;
     Chunk_Section := Chunk_Section c;
     Chunk_Content := Chunk_Content c;
     Chunk_Embedding := emb;
     Chunk_Locale := Chunk_Locale c |}.

(** [for j, emb := range embeddings { chunks[i+j].Embedding = emb }]; an
    index past the end of [chunks] panics. *)
Fixpoint writeEmbeddings (at_ : nat) (embeddings : list vector) (chunks : list Chunk)
    : outcome (list Chunk) :=
  match embeddings with
  | [] => Returns chunks
  | emb :: embeddings' =>
      match chunks !! at_ with
      | None => Panics
      | Some c => writeEmbeddings (S at_) embeddings' (<[at_ := withEmbedding c emb]> chunks)
      end
  end.

(** The values [i] takes in [for i := 0; i < n; i += batchSize]. *)
Definition batchStarts (n : nat) : list nat :=
  (λ k, k * batchSize) <$> seq 0 ((n + (batchSize - 1)) / batchSize).

(** The loop over the batches, from the batch that starts at the head of
    [starts]; it returns the client, the chunks as written so far, and
    the error if a batch failed. *)
Fixpoint embedBatches (starts : list nat) (client : C) (texts : list text)
    (chunks : list Chunk) : outcome (C * list Chunk * option error) :=
  match starts with
  | [] => Returns (client, chunks, None)
  | i :: starts' =>
      let end_ := if length texts <? i + batchSize then length texts else i + batchSize in
      match EmbedBatch client (take (end_ - i) (drop i texts)) with
      | (Err err, client) => Returns (client, chunks, Some (ErrGeneratingEmbeddings err))
      | (Ok embeddings, client) =>
          match writeEmbeddings i embeddings chunks with
          | Panics => Panics
          | Returns chunks => embedBatches starts' client texts chunks
          end
      end
  end.

(** [IndexChunks] writes into the caller's slice, so the chunks come back
    next to the engine and the error. *)
Definition SemanticEngine_IndexChunks (e : SemanticEngine) (chunks : list Chunk)
    : outcome (SemanticEngine * list Chunk * option error) :=
  let texts := Chunk_Content <$> chunks in
  match embedBatches (batchStarts (length texts)) (client e) texts chunks with
  | Panics => Panics
  | Returns (client, chunks, Some err) =>
      Returns ({| client := client; store := store e; isIndexed := isIndexed e |},
               chunks, Some err)
  | Returns (client, chunks, None) =>
      Returns ({| client := client;
                  store := VectorStore_AddBatch (store e) chunks;
                  isIndexed := true |},
               chunks, None)
  end.

Definition SemanticEngine_Search (e : SemanticEngine) (query locale : text) (topK : Z)
    : outcome (SemanticEngine * result error (list SemanticResult)) :=
  if negb (isIndexed e) then Returns (e, Err ErrIndexNotBuilt)
  else
    match Embed (client e) query with
    | (Err err, client) =>
        Returns ({| client := client; store := store e; isIndexed := isIndexed e |}, Err err)
    | (Ok queryEmbedding, client) =>
        match VectorStore_Search (store e) queryEmbedding locale topK with
        | Panics => Panics
        | Returns found =>
            Returns ({| client := client; store := store e; isIndexed := isIndexed e |},
                     Ok found)
        end
    end.

Definition SemanticEngine_IsIndexed (e : SemanticEngine) : bool := isIndexed e.

(** The engines of a process in which no [IndexChunks] call has
    completed successfully so far. *)
Inductive neverIndexed : SemanticEngine → Prop :=
  | never_new client :
      neverIndexed (NewSemanticEngine client)
  | never_failed e chunks e' chunks' err :
      neverIndexed e →
      SemanticEngine_IndexChunks e chunks = Returns (e', chunks', Some err) →
      neverIndexed e'
  | never_searched e query locale topK e' found :
      neverIndexed e →
      SemanticEngine_Search e query locale topK = Returns (e', found) →
      neverIndexed e'.

(** The engine with the client a call has left. *)
Definition withClient (e : SemanticEngine) (client : C) : SemanticEngine :=
  {| client := client; store := store e; isIndexed := isIndexed e |}.

Definition SemanticEngine_ChunkCount (e : SemanticEngine) : nat :=
  VectorStore_Count (store e).

End Engine.
Arguments SemanticEngine C : clear implicits.
(** *** The clients of the two providers *)

(** The text of an error, as [%v], [%s] and [%w] print it. *)
Fixpoint errorMessage (err : error) : text :=
  match err with
  | ErrClient message => message
  | ErrGeneratingEmbeddings cause => T "error generating embeddings: " ++ errorMessage cause
  | ErrIndexNotBuilt => T "index not built, call IndexChunks first"
  end.

(** [openAIResponse] and [ollamaResponse], decoded. *)
Record openAIDatum : Type := {
  Datum_Embedding : vector;
  Datum_Index : Z
}.

Record openAIResponse : Type := {
  openAI_Data : list openAIDatum;
  openAI_Error : option text
}.

Record ollamaResponse : Type := {
  ollama_Embedding : vector;
  ollama_Error : text
}.

(** Why a request to Ollama gave no response to decode: [httpClient.Do]
    failed, or one of the other calls did. *)
Inductive ollamaFailure : Type :=
  | ConnectionFailed (cause : error)
  | RequestFailed (err : error).

(** The network as the clients see it: the request is marshalled, sent,
    and the body read and decoded.  [H] is the state of the world behind
    [http.Client]; [Err] is the error of the call that failed. *)
Class Network (H : Type) : Type := {
  openAI_post : H → text → text → list text → result error openAIResponse * H;
  ollama_post : H → text → text → text → result ollamaFailure ollamaResponse * H
}.

Section Clients.
Context {H : Type} {network : Network H}.

Record OpenAIClient : Type := {
  OpenAI_apiKey : text;
  OpenAI_model : text;
  OpenAI_http : H
}.

(** [os.Getenv] is the argument [getenv]. *)
Definition NewOpenAIClient (getenv : text → text) (http : H) (apiKey : text) : OpenAIClient :=
  {| OpenAI_apiKey := if bool_decide (apiKey = []) then getenv (T "OPENAI_API_KEY") else apiKey;
     OpenAI_model := T "text-embedding-3-small";
     OpenAI_http := http |}.

(** [for _, d := range openAIResp.Data { embeddings[d.Index] = d.Embedding }]
    on [make([][]float64, n)]; an index out of range panics. *)
Definition placeDatum (n : nat) (acc : outcome (list vector)) (d : openAIDatum)
    : outcome (list vector) :=
  match acc with
  | Panics => Panics
  | Returns embeddings =>
      if (0 <=? Datum_Index d)%Z && (Datum_Index d <? Z.of_nat n)%Z
      then Returns (<[Z.to_nat (Datum_Index d) := Datum_Embedding d]> embeddings)
      else Panics
  end.

Definition placeByIndex (n : nat) (data : list openAIDatum) : outcome (list vector) :=
  foldl (placeDatum n) (Returns (replicate n [])) data.

Definition OpenAIClient_EmbedBatch (c : OpenAIClient) (texts : list text)
    : outcome (result error (list vector) * OpenAIClient) :=
  if bool_decide (OpenAI_apiKey c = []) then
    Returns (Err (ErrClient (T "OpenAI API key not set")), c)
  else
    match openAI_post (OpenAI_http c) (OpenAI_apiKey c) (OpenAI_model c) texts with
    | (Err err, http) =>
        Returns (Err err, {| OpenAI_apiKey := OpenAI_apiKey c;
                             OpenAI_model := OpenAI_model c;
                             OpenAI_http := http |})
    | (Ok openAIResp, http) =>
        let c := {| OpenAI_apiKey := OpenAI_apiKey c;
                    OpenAI_model := OpenAI_model c;
                    OpenAI_http := http |} in
        match openAI_Error openAIResp with
        | Some message => Returns (Err (ErrClient (T "OpenAI error: " ++ message)), c)
        | None =>
            match placeByIndex (length texts) (openAI_Data openAIResp) with
            | Panics => Panics
            | Returns embeddings => Returns (Ok embeddings, c)
            end
        end
    end.

Definition OpenAIClient_Embed (c : OpenAIClient) (text_ : text)
    : outcome (result error vector * OpenAIClient) :=
  match OpenAIClient_EmbedBatch c [text_] with
  | Panics => Panics
  | Returns (Err err, c) => Returns (Err err, c)
  | Returns (Ok embeddings, c) =>
      match embeddings with
      | [] => Returns (Err (ErrClient (T "no embeddings returned")), c)
      | first :: _ => Returns (Ok first, c)
      end
  end.

Record OllamaClient : Type := {
  Ollama_baseURL : text;
  Ollama_model : text;
  Ollama_http : H
}.

Definition NewOllamaClient (getenv : text → text) (http : H) (baseURL model : text)
    : OllamaClient :=
  let baseURL :=
    if bool_decide (baseURL = []) then
      let baseURL := getenv (T "OLLAMA_BASE_URL") in
      if bool_decide (baseURL = []) then T "http://localhost:11434" else baseURL
    else baseURL in
  let model :=
    if bool_decide (model = []) then
      let model := getenv (T "OLLAMA_EMBEDDING_MODEL") in
      if bool_decide (model = []) then T "nomic-embed-text" else model
    else model in
  {| Ollama_baseURL := baseURL; Ollama_model := model; Ollama_http := http |}.

Definition OllamaClient_Embed (c : OllamaClient) (text_ : text)
    : result error vector * OllamaClient :=
  let '(response, http) :=
    ollama_post (Ollama_http c) (Ollama_baseURL c) (Ollama_model c) text_ in
  let c := {| Ollama_baseURL := Ollama_baseURL c;
              Ollama_model := Ollama_model c;
              Ollama_http := http |} in
  match response with
  | Err (ConnectionFailed cause) =>
      (Err (ErrClient (T "Ollama connection error: " ++ errorMessage cause
                       ++ T " (is Ollama running?)")), c)
  | Err (RequestFailed err) => (Err err, c)
  | Ok ollamaResp =>
      if negb (bool_decide (ollama_Error ollamaResp = []))
      then (Err (ErrClient (T "Ollama error: " ++ ollama_Error ollamaResp)), c)
      else (Ok (ollama_Embedding ollamaResp), c)
  end.

(** The loop of [EmbedBatch] from text [i] on; [embeddings] is the slice
    made for all the texts. *)
Fixpoint embedEach (c : OllamaClient) (i : nat) (texts : list text)
    (embeddings : list vector) : result error (list vector) * OllamaClient :=
  match texts with
  | [] => (Ok embeddings, c)
  | text_ :: texts' =>
      match OllamaClient_Embed c text_ with
      | (Err err, c) =>
          (Err (ErrClient (T "error embedding text " ++ formatInt (Z.of_nat i)
                           ++ T ": " ++ errorMessage err)), c)
      | (Ok emb, c) => embedEach c (S i) texts' (<[i := emb]> embeddings)
      end
  end.

Definition OllamaClient_EmbedBatch (c : OllamaClient) (texts : list text)
    : result error (list vector) * OllamaClient :=
  embedEach c 0 texts (replicate (length texts) []).

(** [OllamaClient] is an [EmbeddingClient]. *)
#[global] Instance ollamaClient : EmbeddingClient OllamaClient :=
  {| Embed := OllamaClient_Embed; EmbedBatch := OllamaClient_EmbedBatch |}.

End Clients.

End Embeddings.

(** ** Package main: the chunker and the index-build handler *)

Module Main.
Import GoString.
Import Embeddings.

(** Go's [int] on the 64-bit platforms. *)
Definition wrapInt (z : Z) : Z := ((z + 2 ^ 63) mod 2 ^ 64 - 2 ^ 63)%Z.

Definition truncateContent (content : text) (maxLen : nat) : text :=
  if len content <=? maxLen then content
  else sliceTo maxLen content ++ T "...".

(** The variables of the loop of [splitLongContent]. *)
Definition addParagraph (maxLen : nat) (st : list text * text) (p : text)
    : list text * text :=
  let '(chunks, current) := st in
  if (maxLen <? len current + len p) && negb (bool_decide (current = []))
  then (chunks ++ [TrimSpace current], p)
  else
    let current := if negb (bool_decide (current = [])) then current ++ T "

" else current in
    (chunks, current ++ p).

Definition splitLongContent (content : text) (maxLen : nat) : list text :=
  if len content <=? maxLen then [content]
  else
    let paragraphs := Split content (T "

") in
    let '(chunks, current) := foldl (addParagraph maxLen) ([], []) paragraphs in
    if negb (bool_decide (current = [])) then chunks ++ [TrimSpace current] else chunks.

(** The pattern [(?m)^##\s+(.+)$] tried at the start of a line: group 1
    and the length of the match.  The blanks may run over line ends; the
    group is the rest of the line the blanks end in.  When the text ends
    in the blanks, the pattern gives back blanks until one that is no
    newline is left for the group. *)
Definition headerAt (s : text) : option (text * nat) :=
  if HasPrefix s (T "##") then
    let blanks := takeWhile reSpace (drop 2 s) in
    let rest := drop (2 + length blanks) s in
    match blanks, rest with
    | [], _ => None
    | _ :: _, _ :: _ =>
        let name := takeWhile (λ c, negb (isNewline c)) rest in
        Some (name, 2 + length blanks + length name)
    | _ :: _, [] =>
        let newlines := takeWhile isNewline (reverse blanks) in
        match drop (length newlines) (reverse blanks) with
        | c :: _ :: _ => Some ([c], 2 + (length blanks - length newlines))
        | _ => None
        end
    end
  else None.

(** [headerPattern.Split(content, -1)] and
    [headerPattern.FindAllStringSubmatch(content, -1)] in one pass: the
    texts between the matches, and group 1 of every match.  [lineStart]
    says whether [^] holds here, [skip] counts the characters of a match
    still to be passed over. *)
Fixpoint splitHeaders (lineStart : bool) (skip : nat) (s : text)
    : list text * list text :=
  match s with
  | [] => ([[]], [])
  | c :: s' =>
      match skip with
      | S k => splitHeaders false k s'
      | O =>
          match (if lineStart then headerAt s else None) with
          | Some (name, n) =>
              let '(sections, headers) := splitHeaders false (n - 1) s' in
              ([] :: sections, name :: headers)
          | None =>
              let '(sections, headers) := splitHeaders (isNewline c) 0 s' in
              match sections with
              | sec :: sections' => ((c :: sec) :: sections', headers)
              | [] => ([[c]], headers)
              end
          end
      end
  end.

Definition chunkID (idCounter : Z) : text := T "chunk_" ++ formatInt idCounter.

(** [" (part %d)"] with [j+1]. *)
Definition partSuffix (j : nat) : text :=
  T " (part " ++ formatInt (Z.of_nat (j + 1)) ++ T ")".

(** The loop over the pieces of one section. *)
Fixpoint sectionChunks (chapterID chapterName locale sectionName : text)
    (several : bool) (j : nat) (contentChunks : list text) (idCounter : Z)
    : list Chunk * Z :=
  match contentChunks with
  | [] => ([], idCounter)
  | c :: contentChunks' =>
      let idCounter := wrapInt (idCounter + 1) in
      let suffix := if several then partSuffix j else [] in
      let chunk :=
        {| Chunk_ID := chunkID idCounter;
           Chunk_ChapterID := chapterID;
           Chunk_ChapterName := chapterName;
           Chunk_Section := sectionName ++ suffix;
           Chunk_Content := c;
           Chunk_Embedding := [];
           Chunk_Locale := locale |} in
      let '(chunks, idCounter) :=
        sectionChunks chapterID chapterName locale sectionName several (S j)
                      contentChunks' idCounter in
      (chunk :: chunks, idCounter)
  end.

(** The loop over the headers, [i] being the index of the head of
    [headers]. *)
Fixpoint headerChunks (chapterID chapterName locale : text) (sections : list text)
    (i : nat) (headers : list text) (idCounter : Z) : list Chunk * Z :=
  match headers with
  | [] => ([], idCounter)
  | header :: headers' =>
      let sectionContent :=
        if i + 1 <? length sections then TrimSpace (default [] (sections !! (i + 1)))
        else [] in
      if bool_decide (sectionContent = [])
      then headerChunks chapterID chapterName locale sections (S i) headers' idCounter
      else
        let sectionName := header in
        let contentChunks := splitLongContent sectionContent 1000 in
        let '(chunks, idCounter) :=
          sectionChunks chapterID chapterName locale sectionName
                        (1 <? length contentChunks) 0 contentChunks idCounter in
        let '(more, idCounter) :=
          headerChunks chapterID chapterName locale sections (S i) headers' idCounter in
        (chunks ++ more, idCounter)
  end.

(** [idCounter] is a pointer in the source; the counter goes in and comes
    back. *)
Definition splitIntoChunks (content chapterID chapterName locale : text)
    (idCounter : Z) : list Chunk * Z :=
  let '(sections, headers) := splitHeaders true 0 content in
  let '(chunks, idCounter) :=
    if (0 <? length sections)
       && negb (bool_decide (TrimSpace (default [] (sections !! 0)) = []))
    then
      let idCounter := wrapInt (idCounter + 1) in
      ([{| Chunk_ID := chunkID idCounter;
           Chunk_ChapterID := chapterID;
           Chunk_ChapterName := chapterName;
           Chunk_Section := T "Introduction";
           Chunk_Content := truncateContent (TrimSpace (default [] (sections !! 0))) 1000;
           Chunk_Embedding := [];
           Chunk_Locale := locale |}], idCounter)
    else ([], idCounter) in
  let '(more, idCounter) :=
    headerChunks chapterID chapterName locale sections 0 headers idCounter in
  (chunks ++ more, idCounter).

(** *** handleBuildSemanticIndex *)

Inductive CallToolResult : Type :=
  | SemanticSearchNotAvailable
  | ErrorReadingChapters (locale : text) (err : Book.error)
  | ErrorIndexing (err : Embeddings.error)
  | SuccessfullyIndexed (chunks locales : nat).

Section Handlers.
Context {unicode : Unicode} {os : Book.OS} {json : Book.JSON} {sort : Book.Sort}.
Context {C : Type} {embedding : EmbeddingClient C}.

(** The loop over the chapters of one locale. *)
Definition chapterChunks (locale : text) (st : list Chunk * Z) (chapter : Book.Chapter)
    : list Chunk * Z :=
  let '(allChunks, chunkID) := st in
  let '(chunks, chunkID) :=
    splitIntoChunks (Book.Chapter_Content chapter) (Book.Chapter_ID chapter)
                    (Book.Chapter_Name chapter) locale chunkID in
  (allChunks ++ chunks, chunkID).

(** The loop over the locales; it returns early when a locale cannot be
    listed. *)
Fixpoint localeChunks (parser : Book.Parser) (locales : list text)
    (st : list Chunk * Z) : result CallToolResult (list Chunk * Z) :=
  match locales with
  | [] => Ok st
  | locale :: locales' =>
      match Book.ListChapters parser locale with
      | Err err => Err (ErrorReadingChapters locale err)
      | Ok chapters => localeChunks parser locales' (foldl (chapterChunks locale) st chapters)
      end
  end.

(** The chunks one call of the handler makes: [chunkID := 0] starts every
    call. *)
Definition buildChunks (parser : Book.Parser) (localeParam : text)
    : result CallToolResult (list Chunk) :=
  let locales :=
    if bool_decide (localeParam = T "all") then [T "es"; T "en"] else [localeParam] in
  match localeChunks parser locales ([], 0%Z) with
  | Err r => Err r
  | Ok (allChunks, _) => Ok allChunks
  end.

Definition localeCount (localeParam : text) : nat :=
  if bool_decide (localeParam = T "all") then 2 else 1.

(** The handler on the two globals, [parser] and [semanticEngine] ([None]
    for [nil]); [localeParam] is the request's [locale], [all] when it has
    none. *)
Definition handleBuildSemanticIndex (parser : Book.Parser)
    (semanticEngine : option (SemanticEngine C)) (localeParam : text)
    : outcome (option (SemanticEngine C) * CallToolResult) :=
  match semanticEngine with
  | None => Returns (None, SemanticSearchNotAvailable)
  | Some engine =>
      match buildChunks parser localeParam with
      | Err r => Returns (Some engine, r)
      | Ok allChunks =>
          match SemanticEngine_IndexChunks engine allChunks with
          | Panics => Panics
          | Returns (engine, _, Some err) => Returns (Some engine, ErrorIndexing err)
          | Returns (engine, _, None) =>
              Returns (Some engine,
                       SuccessfullyIndexed (length allChunks) (localeCount localeParam))
          end
      end
  end.

(** *** handleReadChapter, handleSearchBook, handleSemanticSearch *)

(** The results of these tools: [mcp.NewToolResultError] with a message,
    or with a prefix and [%v] of an error; [mcp.NewToolResultText] with a
    text, or with [json.MarshalIndent] of the search results. *)
Inductive ToolResult : Type :=
  | ToolError (message : text)
  | ToolErrorOf (prefix : text) (err : Book.error)
  | ToolSearchErrorOf (prefix : text) (err : Embeddings.error)
  | ToolText (content : text)
  | ToolJSONHits (results : list Book.SearchResult)
  | ToolJSONMatches (results : list SemanticResult).

(** The handlers on the arguments as [req.GetString] and [req.GetInt]
    give them, the defaults filled in. *)
Definition handleReadChapter (parser : Book.Parser) (chapterID sectionID locale : text)
    : ToolResult :=
  if bool_decide (chapterID = []) then ToolError (T "chapter_id is required")
  else if negb (bool_decide (sectionID = [])) then
    match Book.GetSection parser chapterID sectionID locale with
    | Err err => ToolErrorOf (T "Error reading section: ") err
    | Ok content => ToolText content
    end
  else
    match Book.GetChapter parser chapterID locale with
    | Err err => ToolErrorOf (T "Error reading chapter: ") err
    | Ok chapter =>
        ToolText (T "# " ++ Book.Chapter_Name chapter ++ T "

" ++ Book.Chapter_Content chapter)
    end.

Definition handleSearchBook (parser : Book.Parser) (query locale : text) : ToolResult :=
  if bool_decide (query = []) then ToolError (T "query is required")
  else
    match Book.Search parser query locale with
    | Err err => ToolErrorOf (T "Error searching: ") err
    | Ok results =>
        if length results =? 0 then ToolText (T "No results found for: " ++ query)
        else ToolJSONHits results
    end.

Definition handleSemanticSearch (semanticEngine : option (SemanticEngine C))
    (query locale : text) (topK : Z) : outcome (option (SemanticEngine C) * ToolResult) :=
  match semanticEngine with
  | None =>
      Returns (None, ToolError (T "Semantic search not available. Set OPENAI_API_KEY or ensure Ollama is running."))
  | Some engine =>
      if negb (SemanticEngine_IsIndexed engine) then
        Returns (Some engine,
                 ToolError (T "Semantic index not built. Run 'build_semantic_index' first."))
      else if bool_decide (query = []) then
        Returns (Some engine, ToolError (T "query is required"))
      else
        match SemanticEngine_Search engine query locale topK with
        | Panics => Panics
        | Returns (engine, Err err) =>
            Returns (Some engine, ToolSearchErrorOf (T "Search error: ") err)
        | Returns (engine, Ok results) =>
            Returns (Some engine,
                     if length results =? 0
                     then ToolText (T "No semantic matches found for: " ++ query)
                     else ToolJSONMatches results)
        end
  end.

End Handlers.
End Main.

(** ** Instances to run the model on: ASCII tables, a file system in
       memory, a scripted embedding provider *)

Module Samples.
Import GoString.

(** A directory tree in memory: the directories by path, each with its
    files by name. *)
Definition tree : Type := list (text * list (text * text)).

Definition joinPath (dir name : text) : text := dir ++ T "/" ++ name.

Definition readDir (t : tree) (path : text) : option (list Book.DirEntry) :=
  match list_find (λ d, d.1 = path) t with
  | Some (_, (_, files)) =>
      Some ((λ f, {| Book.Entry_Name := f.1; Book.Entry_IsDir := false |}) <$> files)
  | None => None
  end.

Definition readFile (t : tree) (path : text) : option text :=
  match list_find (λ f, f.1 = path)
          (t ≫= λ d, (λ f, (joinPath d.1 f.1, f.2)) <$> d.2) with
  | Some (_, (_, content)) => Some content
  | None => None
  end.

Definition memOS (t : tree) : Book.OS :=
  {| Book.filepath_Join := joinPath;
     Book.os_ReadDir := readDir t;
     Book.os_ReadFile := readFile t |}.

(** A decoder that knows the empty array and nothing else. *)
Definition emptyArrayOnly : Book.JSON :=
  {| Book.json_Unmarshal := λ s,
       if bool_decide (s = T "[]") || bool_decide (s = T "[ ]") then Some [] else None |}.

(** A sort that meets what [sort.Slice] promises. *)
Definition mergeSort : Book.Sort :=
  {| Book.sort_Slice := λ A less,
       @merge_sort A (λ a b, less b a = false) (λ a b, decide (less b a = false)) |}.

(** The ASCII tables and the letter e with acute accent, U+00C9 and
    U+00E9. *)
Definition latin : Unicode :=
  {| unicode_ToLower := λ cp, if (cp =? 0xC9)%N then 0xE9%N else asciiToLower cp;
     unicode_L := λ cp, (cp =? 0xC9)%N || (cp =? 0xE9)%N || asciiLetter cp;
     unicode_N := asciiDigit |}.

(** A provider that answers from a script, one entry per call: the vector
    it returns for every text, or a failure. *)
Definition script : Type := list (option Embeddings.vector).

Definition scriptedEmbed (s : script) (_ : text)
    : result Embeddings.error Embeddings.vector * script :=
  match s with
  | Some v :: s' => (Ok v, s')
  | None :: s' => (Err (Embeddings.ErrClient (T "provider failure")), s')
  | [] => (Err (Embeddings.ErrClient (T "provider gone")), [])
  end.

Definition scriptedEmbedBatch (s : script) (texts : list text)
    : result Embeddings.error (list Embeddings.vector) * script :=
  match s with
  | Some v :: s' => (Ok (replicate (length texts) v), s')
  | None :: s' => (Err (Embeddings.ErrClient (T "provider failure")), s')
  | [] => (Err (Embeddings.ErrClient (T "provider gone")), [])
  end.

#[global] Instance scripted : Embeddings.EmbeddingClient script :=
  {| Embeddings.Embed := scriptedEmbed; Embeddings.EmbedBatch := scriptedEmbedBatch |}.

Definition parser : Book.Parser := {| Book.bookPath := T "book" |}.

(** A hundred and one chunks, one more than a batch holds. *)
Definition plainChunk (k : nat) : Embeddings.Chunk :=
  {| Embeddings.Chunk_ID := Main.chunkID (Z.of_nat k);
     Embeddings.Chunk_ChapterID := T "hexagonal";
     Embeddings.Chunk_ChapterName := T "Hexagonal Architecture";
     Embeddings.Chunk_Section := T "Ports";
     Embeddings.Chunk_Content := T "A port is an interface owned by the core.";
     Embeddings.Chunk_Embedding := [];
     Embeddings.Chunk_Locale := T "es" |}.

Definition hundredAndOne : list Embeddings.Chunk := plainChunk <$> seq 1 101.

Definition unitVector : Embeddings.vector := [1%float; 0%float].

(** A chapter file of the book, with three headings. *)
Definition hexagonal : text := T "---
id: 'hexagonal'
order: 2
name: 'Hexagonal Architecture'
titleList: []
---

Ports and adapters keep the core free of frameworks.

## Ports

A port is an interface owned by the core.

## Adapters

An adapter implements a port.
### Driving adapters
They call the core.
".

Definition cleanAgile : text := T "---
id: 'clean-agile'
order: 1
name: 'Clean Agile'
titleList: [
---
# Clean Agile
Agile is about small teams doing small things.
".

(** A chapter file whose title list is no JSON once cleaned. *)
Definition brokenTitles : text := T "---
id: 'broken'
order: 3
name: 'Broken Titles'
titleList: [ {name: } ]
---
# Broken
text
".

(** A chapter of two lines, for a query that repeats a word. *)
Definition greek : text := T "---
id: 'greek'
order: 1
name: 'Greek'
---
alpha
beta
".

Definition greekBook : tree := [(T "book/el", [(T "greek.mdx", greek)])].

(** A chapter in which two headings share a slug. *)
Definition twice : text := T "---
id: 'twice'
order: 1
name: 'Twice'
---
# Ports
first
## Ports
second
# Adapters
third
".

Definition twiceBook : tree := [(T "book/en", [(T "twice.mdx", twice)])].

Definition book : tree :=
  [(T "book/es", [(T "02.mdx", hexagonal); (T "01.mdx", cleanAgile); (T "notes.txt", T "x")])].

(** A book directory with two locales, a directory that is none, and a
    file that bears the name of one. *)
Definition shelf : Book.OS :=
  {| Book.filepath_Join := Samples.joinPath;
     Book.os_ReadDir := λ path,
       if bool_decide (path = T "shelf")
       then Some [ {| Book.Entry_Name := T "README.md"; Book.Entry_IsDir := false |};
                   {| Book.Entry_Name := T "en"; Book.Entry_IsDir := true |};
                   {| Book.Entry_Name := T "es"; Book.Entry_IsDir := true |};
                   {| Book.Entry_Name := T "fr"; Book.Entry_IsDir := true |} ]
       else if bool_decide (path = T "desk")
       then Some [ {| Book.Entry_Name := T "en"; Book.Entry_IsDir := false |} ]
       else None;
     Book.os_ReadFile := λ _, None |}.

(** A provider that keeps a record of the batches it is sent, and
    answers each text with an embedding of one number, the text's
    length. *)
Definition recorder : Type := list (list text).

Definition lengthVector (text_ : text) : Embeddings.vector :=
  [PrimFloat.of_uint63 (Uint63.of_Z (Z.of_nat (len text_)))].

#[global] Instance recording : Embeddings.EmbeddingClient recorder :=
  {| Embeddings.Embed := λ log text_, (Ok (lengthVector text_), log ++ [[text_]]);
     Embeddings.EmbedBatch := λ log texts, (Ok (lengthVector <$> texts), log ++ [texts]) |}.

(** A network that answers from two queues, one for each provider. *)
Definition canned : Type :=
  list (result Embeddings.error Embeddings.openAIResponse)
  * list (result Embeddings.ollamaFailure Embeddings.ollamaResponse).

#[global] Instance cannedNetwork : Embeddings.Network canned :=
  {| Embeddings.openAI_post := λ h _ _ _,
       match h.1 with
       | answer :: rest => (answer, (rest, h.2))
       | [] => (Err (Embeddings.ErrClient (T "connection refused")), h)
       end;
     Embeddings.ollama_post := λ h _ _ _,
       match h.2 with
       | answer :: rest => (answer, (h.1, rest))
       | [] => (Err (Embeddings.ConnectionFailed
                       (Embeddings.ErrClient (T "connection refused"))), h)
       end |}.

(** A response of OpenAI with the data [data], and one datum; a response
    of Ollama with one number. *)
Definition openAIAnswer (data : list Embeddings.openAIDatum)
    : result Embeddings.error Embeddings.openAIResponse :=
  Ok {| Embeddings.openAI_Data := data; Embeddings.openAI_Error := None |}.

Definition datum (i : Z) (x : float) : Embeddings.openAIDatum :=
  {| Embeddings.Datum_Embedding := [x]; Embeddings.Datum_Index := i |}.

Definition ollamaAnswer (x : float)
    : result Embeddings.ollamaFailure Embeddings.ollamaResponse :=
  Ok {| Embeddings.ollama_Embedding := [x]; Embeddings.ollama_Error := [] |}.

(** No variable of the environment is set. *)
Definition noenv (name : text) : text := [].

End Samples.

(** ** The vocabulary of the statements *)

Module Spec.
Import GoString.

(** *** Keyword search *)

Section Search.
Context {unicode : Unicode}.

(** How many words of the query, a word counted as often as the query
    has it, occur in the lowered line. *)
Definition wordsFound (queryWords : list text) (lineLower : text) : nat :=
  length (filter (λ word, Contains lineLower word = true) queryWords).

(** The text of the last heading among the lines up to and with line
    [i] (counted from 0); empty when there is none. *)
Definition sectionAt (lines : list text) (i : nat) : text :=
  default [] (last (omap Book.headerMatch (take (S i) lines))).

(** The hit for line [i] of [lines], if the line has one. *)
Definition hitAt (queryWords : list text) (chapter : Book.Chapter) (locale : text)
    (lines : list text) (i : nat) (line : text) : option Book.SearchResult :=
  let found := wordsFound queryWords (ToLower line) in
  if 0 <? found then
    Some {| Book.Result_ChapterID := Book.Chapter_ID chapter;
            Book.Result_ChapterName := Book.Chapter_Name chapter;
            Book.Result_Section := sectionAt lines i;
            Book.Result_Snippet := Book.snippetOf line;
            Book.Result_LineNumber := S i;
            Book.Result_Relevance := Z.of_nat found # Pos.of_nat (length queryWords);
            Book.Result_Locale := locale |}
  else None.

(** The hits of one chapter, line after line, and of all chapters. *)
Definition chapterHits (queryWords : list text) (locale : text)
    (chapter : Book.Chapter) : list Book.SearchResult :=
  let lines := ScanLines (Book.Chapter_Content chapter) in
  omap id (imap (hitAt queryWords chapter locale lines) lines).

Definition allHits (queryWords : list text) (locale : text)
    (chapters : list Book.Chapter) : list Book.SearchResult :=
  chapters ≫= chapterHits queryWords locale.

(** The variables of the loop of [Search] after the lines [pre] of a
    chapter. *)
Definition scanned (queryWords : list text) (chapter : Book.Chapter) (locale : text)
    (found : list Book.SearchResult) (pre : list text) : Book.scan :=
  {| Book.lineNum := length pre;
     Book.currentSection := default [] (last (omap Book.headerMatch pre));
     Book.results := found ++ omap id (imap (hitAt queryWords chapter locale pre) pre) |}.

(** The relevance the claim words: the distinct words of the query that
    occur in the line, over the number of words of the query. *)
Definition distinctWordsFound (queryWords : list text) (lineLower : text) : nat :=
  length (remove_dups (filter (λ word, Contains lineLower word = true) queryWords)).

End Search.

Definition byRelevanceDescending (a b : Book.SearchResult) : Prop :=
  (Book.Result_Relevance b <= Book.Result_Relevance a)%Q.

(** *** Slugs *)

Definition hyphen : gochar := Rune 45.

Definition startsWithHyphen (s : text) : bool :=
  match s with
  | c :: _ => isChar 45 c
  | [] => false
  end.

(** No hyphen is followed by a hyphen. *)
Fixpoint noDoubleHyphen (s : text) : Prop :=
  match s with
  | [] => True
  | c :: s' => isChar 45 c && startsWithHyphen s' = false ∧ noDoubleHyphen s'
  end.

Section Slug.
Context {unicode : Unicode}.

(** A character a slug is made of: a lowered one or a hyphen, of the
    class the slug keeps, and no space. *)
Definition slugMade (c : gochar) : Prop :=
  (c = hyphen ∨ ∃ cp, c = Rune (unicode_ToLower cp))
  ∧ Book.slugChar c = true
  ∧ isChar 32 c = false.

(** The title before its hyphens are squeezed and trimmed. *)
Definition slugStage (title : text) : text :=
  filter (λ c, Book.slugChar c = true) (ReplaceAll (ToLower title) 32 45).

(** Every run of white space replaced by one hyphen. *)
Fixpoint blanksToHyphens (s : text) : text :=
  match s with
  | [] => []
  | c :: s' =>
      if isSpace c then
        match s' with
        | c' :: _ => if isSpace c' then blanksToHyphens s' else hyphen :: blanksToHyphens s'
        | [] => [hyphen]
        end
      else c :: blanksToHyphens s'
  end.

(** The normalized form in the words of the specification: lowercased,
    runs of white space collapsed to single hyphens, characters other
    than letters, digits and hyphens stripped, leading and trailing
    hyphens trimmed. *)
Definition normalizedForm (title : text) : text :=
  Trim (filter (λ c, Book.slugChar c = true) (blanksToHyphens (ToLower title))) 45.

End Slug.

(** *** Sections *)

Section Sections.
Context {unicode : Unicode}.

(** A heading line whose slug is [tag], and a heading line of another
    slug. *)
Definition headingOf (p : Book.Parser) (tag : text) (line : text) : bool :=
  match Book.headerMatch line with
  | Some headerText => bool_decide (Book.generateTagID p headerText = tag)
  | None => false
  end.

Definition otherHeading (p : Book.Parser) (tag : text) (line : text) : bool :=
  match Book.headerMatch line with
  | Some headerText => negb (bool_decide (Book.generateTagID p headerText = tag))
  | None => false
  end.

Definition anyHeading (line : text) : bool :=
  bool_decide (is_Some (Book.headerMatch line)).

(** Lines, each with its newline. *)
Definition unlines (lines : list text) : text := lines ≫= λ line, line ++ T "
".

(** The lines of the section [tag]: from the first heading of that slug
    up to the next heading of another slug. *)
Definition sectionLines (p : Book.Parser) (tag : text) (lines : list text) : list text :=
  match dropWhile (λ line, negb (headingOf p tag line)) lines with
  | [] => []
  | heading :: rest => heading :: takeWhile (λ line, negb (otherHeading p tag line)) rest
  end.

(** The lines of the section as the claim has them: up to the next
    heading of any level. *)
Definition linesToNextHeading (p : Book.Parser) (tag : text) (lines : list text)
    : list text :=
  match dropWhile (λ line, negb (headingOf p tag line)) lines with
  | [] => []
  | heading :: rest => heading :: takeWhile (λ line, negb (anyHeading line)) rest
  end.

End Sections.

(** *** Chunks *)

Definition paragraphBreak : text := T "

".

(** What the splitter checks before it adds a paragraph to a buffer that
    is not empty: the buffer as it stands and the paragraph are at most
    [maxLen] together. *)
Definition addedWithinLimit (maxLen : nat) (ps : list text) : Prop :=
  ∀ init final, ps = init ++ [final] → init ≠ [] →
    len (join paragraphBreak init) + len final ≤ maxLen.

(** A piece of a section that was split: consecutive whole paragraphs of
    the section, joined by blank lines and trimmed; the paragraphs after
    the first were added within the limit. *)
Definition wholeParagraphs (maxLen : nat) (paragraphs : list text) (piece : text) : Prop :=
  ∃ before ps after,
    paragraphs = before ++ ps ++ after
    ∧ ps ≠ []
    ∧ piece = TrimSpace (join paragraphBreak ps)
    ∧ addedWithinLimit maxLen ps.

(** The splitter's variables after the paragraphs [done]: the pieces
    flushed so far, and the buffer, which holds the last paragraphs of
    [done] from the first one that is not empty. *)
Definition buffered (maxLen : nat) (paragraphs done : list text)
    (st : list text * text) : Prop :=
  Forall (wholeParagraphs maxLen paragraphs) st.1
  ∧ ∃ before held,
      done = before ++ held
      ∧ st.2 = join paragraphBreak held
      ∧ (∀ first others, held = first :: others → first ≠ [])
      ∧ addedWithinLimit maxLen held.

(** The values the counter takes in [n] increments, and where it ends. *)
Fixpoint nextIDs (idCounter : Z) (n : nat) : list Z :=
  match n with
  | O => []
  | S n' => Main.wrapInt (idCounter + 1) :: nextIDs (Main.wrapInt (idCounter + 1)) n'
  end.

Fixpoint advance (idCounter : Z) (n : nat) : Z :=
  match n with
  | O => idCounter
  | S n' => advance (Main.wrapInt (idCounter + 1)) n'
  end.

(** The identifiers a list of chunks got from the counter at
    [idCounter], and the counter after them. *)
Definition numbered (idCounter : Z) (st : list Embeddings.Chunk * Z) : Prop :=
  Embeddings.Chunk_ID <$> st.1 = Main.chunkID <$> nextIDs idCounter (length st.1)
  ∧ st.2 = advance idCounter (length st.1).

(** The chunks of the store a vector search looks at, each with its
    score, in the order of the store. *)
Definition scoredIn (queryEmbedding : Embeddings.vector) (locale : text)
    (stored : list Embeddings.Chunk) : list Embeddings.scored :=
  (λ c, {| Embeddings.chunk := c;
           Embeddings.score :=
             Embeddings.cosineSimilarity queryEmbedding (Embeddings.Chunk_Embedding c) |})
    <$> List.filter (Embeddings.inLocale locale) stored.

(** Text below 128. *)
Definition isASCII (c : gochar) : Prop := ∃ cp, c = Rune cp ∧ (cp < 128)%N.

Definition isASCIIb (c : gochar) : bool :=
  match c with Rune cp => (cp <? 128)%N | RawByte _ => false end.

(** No later result scores higher: the order the exchange loops leave. *)
Definition notBelow (a b : Embeddings.scored) : Prop :=
  (Embeddings.score a <? Embeddings.score b)%float = false.

Definition notBelowResult (a b : Embeddings.SemanticResult) : Prop :=
  (Embeddings.Semantic_Score a <? Embeddings.Semantic_Score b)%float = false.

(** The first [n] places of [l] are final: none of them is below a place
    behind it. *)
Definition settled (n : nat) (l : list Embeddings.scored) : Prop :=
  ∀ p q rp rq, p < n → p < q → l !! p = Some rp → l !! q = Some rq → notBelow rp rq.

(** Place [i] is not below the places between [i] and [j]. *)
Definition leads (i j : nat) (l : list Embeddings.scored) : Prop :=
  ∀ q ri rq, i < q → q < j → l !! i = Some ri → l !! q = Some rq → notBelow ri rq.

(** *** Chapter lists *)

Section Listing.
Context {unicode : Unicode} {os : Book.OS} {json : Book.JSON}.

(** The chapter an entry of a locale's directory stands for: the entry
    is a file whose name ends in [.mdx] and which parses. *)
Definition chapterOf (p : Book.Parser) (locale : text) (entry : Book.DirEntry)
    : option Book.Chapter :=
  if Book.Entry_IsDir entry || negb (HasSuffix (Book.Entry_Name entry) (T ".mdx")) then None
  else
    match Book.ParseChapter p
            (Book.filepath_Join (Book.filepath_Join (Book.bookPath p) locale)
                                (Book.Entry_Name entry)) locale with
    | Ok chapter => Some chapter
    | Err _ => None
    end.

End Listing.

Definition byOrder (a b : Book.Chapter) : Prop :=
  (Book.Chapter_Order a ≤ Book.Chapter_Order b)%Z.

(** A chapter without its text. *)
Definition sameHeader (a b : Book.Chapter) : Prop :=
  Book.Chapter_ID a = Book.Chapter_ID b
  ∧ Book.Chapter_Order a = Book.Chapter_Order b
  ∧ Book.Chapter_Name a = Book.Chapter_Name b
  ∧ Book.Chapter_Locale a = Book.Chapter_Locale b
  ∧ Book.Chapter_TitleList a = Book.Chapter_TitleList b
  ∧ Book.Chapter_FilePath a = Book.Chapter_FilePath b.

(** *** Front matter *)

Definition colon : gochar := Rune 58.

(** A value the front matter can hold between quotes and give back: it
    is not empty and has no quote, no colon and no run of three
    hyphens. *)
Definition plainValue (v : text) : Prop :=
  v ≠ []
  ∧ Forall (λ c, Book.isQuote c = false ∧ c ≠ colon) v
  ∧ Index v (T "---") = None.

(** An order number as it is written: digits, at least one. *)
Definition digits (ds : text) : Prop :=
  ds ≠ [] ∧ Forall (λ c, reDigit c = true) ds.

(** The front matter of a chapter with the three scalar keys, one on a
    line. *)
Definition frontMatterOf (id order name : text) : text :=
  T "
id: '" ++ id ++ T "'
order: " ++ order ++ T "
name: '" ++ name ++ T "'
".

(** A chapter file: the front matter between its delimiters, and what
    follows. *)
Definition chapterFile (fmContent rest : text) : text :=
  T "---" ++ fmContent ++ T "---" ++ rest.



(** *** The paragraphs of a section that is split *)

(** The paragraphs that are not empty. *)
Definition written (paragraphs : list text) : list text :=
  filter (λ p, p ≠ []) paragraphs.

(** A group of paragraphs that makes a piece: it starts with a paragraph
    that is not empty. *)
Definition group (ps : list text) : Prop :=
  ∃ first others, ps = first :: others ∧ first ≠ [].

(** The piece a group comes out as. *)
Definition pieceOf (ps : list text) : text :=
  TrimSpace (join Spec.paragraphBreak ps).

(** The splitter's variables after the paragraphs [done]: the pieces
    flushed are those of [groups], the buffer holds [held], and the two
    are the written paragraphs of [done], in their order. *)
Definition gathered (done : list text) (groups : list (list text)) (held : list text)
    (st : list text * text) : Prop :=
  st.1 = pieceOf <$> groups
  ∧ st.2 = join Spec.paragraphBreak held
  ∧ Forall group groups
  ∧ (held = [] ∨ group held)
  ∧ written (concat groups ++ held) = written done.

(** A chunk as it is made from the chapter [chapterID]: the chapter's
    identifier and name, the locale, and no embedding yet. *)
Definition chunkOf (chapterID chapterName locale : text) (c : Embeddings.Chunk) : Prop :=
  Embeddings.Chunk_ChapterID c = chapterID
  ∧ Embeddings.Chunk_ChapterName c = chapterName
  ∧ Embeddings.Chunk_Locale c = locale
  ∧ Embeddings.Chunk_Embedding c = [].

(** The label and the content of a chunk. *)
Definition labelled (c : Embeddings.Chunk) : text * text :=
  (Embeddings.Chunk_Section c, Embeddings.Chunk_Content c).

(** The locales a build is asked for. *)
Definition requested (localeParam : text) : list text :=
  if bool_decide (localeParam = T "all") then [T "es"; T "en"] else [localeParam].

(** *** The answers of the providers *)

(** The index of a datum is one of the [n] texts. *)
Definition indexed (n : nat) (d : Embeddings.openAIDatum) : Prop :=
  (0 ≤ Embeddings.Datum_Index d < Z.of_nat n)%Z.

(** The embedding a response holds for text [i]: that of the last datum
    with this index, and the empty one when there is none. *)
Definition placed (data : list Embeddings.openAIDatum) (i : nat) : Embeddings.vector :=
  default [] (last (Embeddings.Datum_Embedding
                      <$> filter (λ d, Embeddings.Datum_Index d = Z.of_nat i) data)).

(** Batch [k] of the texts [IndexChunks] sends. *)
Definition batch (texts : list text) (k : nat) : list text :=
  take Embeddings.batchSize (drop (k * Embeddings.batchSize) texts).

(** Chunk [i] after the embeddings of an answer were written from place
    [at_] on: the chunk with its embedding when the answer has one for
    it, and else the chunk as it was. *)
Definition written_at (at_ : nat) (embeddings : list Embeddings.vector) (i : nat)
    (c : Embeddings.Chunk) : Embeddings.Chunk :=
  match (if decide (at_ ≤ i) then embeddings !! (i - at_) else None) with
  | Some emb => Embeddings.withEmbedding c emb
  | None => c
  end.

(** *** The hits of the keyword search *)

Section Hits.
Context {unicode : Unicode}.

(** A hit for the words [queryWords], as it is made from a line of a
    chapter of the list: it names the chapter and the locale, its line
    number counts the scanned lines from 1, its section is the last
    heading up to the line, the line has a word of the query, and no
    line that did not fit the scanner's buffer comes before it. *)
Definition hitOf (queryWords : list text) (locale : text) (chapters : list Book.Chapter)
    (r : Book.SearchResult) : Prop :=
  ∃ chapter line,
    chapter ∈ chapters
    ∧ Book.Result_ChapterID r = Book.Chapter_ID chapter
    ∧ Book.Result_ChapterName r = Book.Chapter_Name chapter
    ∧ Book.Result_Locale r = locale
    ∧ 1 ≤ Book.Result_LineNumber r
    ∧ ScanLines (Book.Chapter_Content chapter) !! (Book.Result_LineNumber r - 1) = Some line
    ∧ Book.Result_Section r
      = Spec.sectionAt (ScanLines (Book.Chapter_Content chapter)) (Book.Result_LineNumber r - 1)
    ∧ Book.Result_Snippet r = Book.snippetOf line
    ∧ (∃ word, word ∈ queryWords ∧ Contains (ToLower line) word = true)
    ∧ ∀ i long,
        rawLines (Book.Chapter_Content chapter) !! i = Some long →
        MaxScanTokenSize ≤ len long →
        Book.Result_LineNumber r ≤ i.

End Hits.

(** *** The chunks of a document *)

(** The labels and the contents of the chunks made of the pieces of a
    section: the heading, with the number of the part when there are
    several. *)
Definition pieceLabels (header : text) (pieces : list text) : list (text * text) :=
  if 1 <? length pieces
  then imap (λ k piece, (header ++ Main.partSuffix k, piece)) pieces
  else (λ piece, (header, piece)) <$> pieces.

(** The labels and the contents of the chunks of the section under a
    heading: none for a section of white space. *)
Definition sectionLabelled (header section : text) : list (text * text) :=
  if bool_decide (TrimSpace section = []) then []
  else pieceLabels header (Main.splitLongContent (TrimSpace section) 1000).

(** A chunk made of the section [section] under the heading [header]:
    the section itself when it is at most [maxLen] long, and otherwise
    consecutive whole paragraphs of it, under the heading or the heading
    and the number of the part. *)
Definition chunkOfSection (maxLen : nat) (header section : text) (c : Embeddings.Chunk)
    : Prop :=
  section ≠ []
  ∧ ((len section ≤ maxLen
      ∧ Embeddings.Chunk_Section c = header
      ∧ Embeddings.Chunk_Content c = section)
     ∨ (maxLen < len section
        ∧ wholeParagraphs maxLen (Split section paragraphBreak)
                               (Embeddings.Chunk_Content c)
        ∧ (Embeddings.Chunk_Section c = header
           ∨ ∃ k, Embeddings.Chunk_Section c = header ++ Main.partSuffix k))).

(** The chunk of the text [preamble] before the first heading: the text
    itself when it is at most [maxLen] bytes long, and otherwise its
    first [maxLen] bytes and three dots. *)
Definition introductionOf (maxLen : nat) (preamble : text) (c : Embeddings.Chunk) : Prop :=
  Embeddings.Chunk_Section c = T "Introduction"
  ∧ (len preamble ≤ maxLen → Embeddings.Chunk_Content c = preamble)
  ∧ (maxLen < len preamble →
     bytes (Embeddings.Chunk_Content c) = take maxLen (bytes preamble) ++ bytes (T "...")
     ∧ len (Embeddings.Chunk_Content c) = maxLen + 3).

(** *** The provider asked for the batches of a call *)

(** The batches [IndexChunks] makes of the texts: a hundred texts each,
    and what is left. *)
Definition batches (texts : list text) : list (list text) :=
  batch texts
    <$> seq 0 ((length texts + (Embeddings.batchSize - 1)) / Embeddings.batchSize).

Section Provider.
Context {C : Type} {embedding : Embeddings.EmbeddingClient C}.

(** The provider asked for the batches one after the other, up to the
    first it fails on: the client it leaves, its answers, and its
    error. *)
Fixpoint asked (client : C) (bs : list (list text))
    : C * list (list Embeddings.vector) * option Embeddings.error :=
  match bs with
  | [] => (client, [], None)
  | b :: bs' =>
      match Embeddings.EmbedBatch client b with
      | (Err err, client') => (client', [], Some err)
      | (Ok embeddings, client') =>
          let '(client'', answers, failure) := asked client' bs' in
          (client'', embeddings :: answers, failure)
      end
  end.

End Provider.

(** No answer holds more embeddings than its batch has texts. *)
Definition fits (answers : list (list Embeddings.vector)) (bs : list (list text)) : Prop :=
  Forall2 (λ answer b, length answer ≤ length b) answers (take (length answers) bs).

(** Every answer holds one embedding for each text of its batch. *)
Definition complete (answers : list (list Embeddings.vector)) (bs : list (list text))
    : Prop :=
  Forall2 (λ answer b, length answer = length b) answers bs.

(** Chunk [i] with the embedding the answers hold for it, the one at
    its place in the answer to its batch; the chunk as it is when they
    hold none. *)
Definition answeredAt (answers : list (list Embeddings.vector)) (i : nat)
    (c : Embeddings.Chunk) : Embeddings.Chunk :=
  match answers !! (i / Embeddings.batchSize)
        ≫= (λ answer, answer !! (i mod Embeddings.batchSize)) with
  | Some emb => Embeddings.withEmbedding c emb
  | None => c
  end.

(** The engine a call of [IndexChunks] leaves: with the chunks appended
    and the flag set when no batch failed, and else with the store and
    the flag it had. *)
Definition indexedWith {C : Type} (e : Embeddings.SemanticEngine C) (client' : C)
    (failure : option Embeddings.error) (chunks' : list Embeddings.Chunk)
    : Embeddings.SemanticEngine C :=
  match failure with
  | Some _ =>
      {| Embeddings.client := client';
         Embeddings.store := Embeddings.store e;
         Embeddings.isIndexed := Embeddings.isIndexed e |}
  | None =>
      {| Embeddings.client := client';
         Embeddings.store := Embeddings.VectorStore_AddBatch (Embeddings.store e) chunks';
         Embeddings.isIndexed := true |}
  end.

End Spec.

(* ================================================================== *)
(** * Part II: what the code does *)
(* ================================================================== *)

(** ** Lengths, trimming and slicing *)

Module TextFacts.
Import GoString.

Lemma len_nil : len [] = 0.
Proof. reflexivity. Qed.

Lemma len_app (a b : text) : len (a ++ b) = len a + len b.
Proof. unfold len, bytes. by rewrite bind_app, length_app. Qed.

Lemma len_cons (c : gochar) (s : text) : len (c :: s) = length (charBytes c) + len s.
Proof. unfold len, bytes. by rewrite bind_cons, length_app. Qed.

Lemma utf8_length (cp : N) : 1 ≤ length (utf8 cp) ≤ 4.
Proof. unfold utf8. repeat case_match; simpl; lia. Qed.

Lemma charBytes_length (c : gochar) : 1 ≤ length (charBytes c) ≤ 4.
Proof. destruct c; simpl; [apply utf8_length | lia]. Qed.

Lemma len_zero (s : text) : len s = 0 → s = [].
Proof.
  destruct s as [|c s]; [done|].
  rewrite len_cons. pose proof (charBytes_length c). lia.
Qed.

Lemma len_reverse (s : text) : len (reverse s) = len s.
Proof.
  induction s as [|c s IH]; [done|].
  rewrite reverse_cons, len_app, IH, !len_cons, len_nil. lia.
Qed.

Lemma len_dropWhile (p : gochar → bool) (s : text) : len (dropWhile p s) ≤ len s.
Proof.
  induction s as [|c s IH]; simpl; [done|].
  destruct (p c); [rewrite len_cons; lia | done].
Qed.

Lemma len_trimRight (p : gochar → bool) (s : text) : len (trimRight p s) ≤ len s.
Proof.
  unfold trimRight. rewrite len_reverse.
  etrans; [apply len_dropWhile|]. by rewrite len_reverse.
Qed.

Lemma len_TrimSpace (s : text) : len (TrimSpace s) ≤ len s.
Proof.
  unfold TrimSpace, trimLeft.
  etrans; [apply len_trimRight | apply len_dropWhile].
Qed.

Lemma len_RawBytes (bs : list N) : len (RawByte <$> bs) = length bs.
Proof.
  induction bs as [|b bs IH]; [done|].
  rewrite fmap_cons, len_cons, IH. reflexivity.
Qed.

(** [s[:n]] has [n] bytes. *)
Lemma len_sliceTo (n : nat) (s : text) : n ≤ len s → len (sliceTo n s) = n.
Proof.
  revert n. induction s as [|c s IH]; intros n Hn.
  - rewrite len_nil in Hn. by replace n with 0 by lia.
  - rewrite len_cons in Hn. cbn [sliceTo].
    destruct (Nat.leb_spec (length (charBytes c)) n) as [Hle|Hlt].
    + rewrite len_cons, IH by lia. lia.
    + rewrite len_RawBytes, length_take. lia.
Qed.

Lemma bytes_cons (c : gochar) (s : text) : bytes (c :: s) = charBytes c ++ bytes s.
Proof. unfold bytes. by rewrite bind_cons. Qed.

Lemma bytes_RawBytes (bs : list N) : bytes (RawByte <$> bs) = bs.
Proof.
  induction bs as [|b bs IH]; [done|].
  rewrite fmap_cons, bytes_cons, IH. reflexivity.
Qed.

(** [s[:n]] holds the first [n] bytes of [s]. *)
Lemma bytes_sliceTo (n : nat) (s : text) : bytes (sliceTo n s) = take n (bytes s).
Proof.
  revert n. induction s as [|c s IH]; intros n; cbn [sliceTo].
  - by destruct n.
  - rewrite (bytes_cons c s).
    destruct (Nat.leb_spec (length (charBytes c)) n) as [Hle|Hlt].
    + rewrite bytes_cons, IH, take_app_ge by done. reflexivity.
    + rewrite bytes_RawBytes, take_app_le by lia. reflexivity.
Qed.

Lemma dropWhile_all {A} (p : A → bool) (l : list A) :
  forallb p l = true → dropWhile p l = [].
Proof.
  induction l as [|x l IH]; simpl; [done|].
  destruct (p x); simpl; [done | discriminate].
Qed.

Lemma dropWhile_head {A} (p : A → bool) (x : A) (l : list A) :
  p x = false → dropWhile p (x :: l) = x :: l.
Proof. intros H. simpl. by rewrite H. Qed.

Lemma dropWhile_suffix {A} (p : A → bool) (l : list A) : dropWhile p l `suffix_of` l.
Proof.
  induction l as [|x l IH]; simpl; [done|].
  destruct (p x); [by apply suffix_cons_r | done].
Qed.

Lemma dropWhile_app_keep {A} (p : A → bool) (l k : list A) :
  forallb p l = false → dropWhile p (l ++ k) = dropWhile p l ++ k.
Proof.
  induction l as [|x l IH]; simpl; [done|].
  destruct (p x); simpl; [done | done].
Qed.

Lemma dropWhile_app_all {A} (p : A → bool) (l k : list A) :
  forallb p l = true → dropWhile p (l ++ k) = dropWhile p k.
Proof.
  induction l as [|x l IH]; simpl; [done|].
  destruct (p x); simpl; [done | discriminate].
Qed.

Lemma forallb_intro {A} (p : A → bool) (l : list A) :
  Forall (λ x, p x = true) l → forallb p l = true.
Proof. induction 1 as [|x l Hx _ IH]; simpl; [done|]. by rewrite Hx. Qed.

Lemma forallb_reverse {A} (p : A → bool) (l : list A) :
  forallb p (reverse l) = forallb p l.
Proof.
  induction l as [|x l IH]; [done|].
  rewrite reverse_cons, forallb_app, IH. simpl. destruct (p x), (forallb p l); done.
Qed.

(** Trimming on the right looks at the end only. *)
Lemma trimRight_app_keep (p : gochar → bool) (a b : text) :
  forallb p b = false → trimRight p (a ++ b) = a ++ trimRight p b.
Proof.
  intros H. unfold trimRight.
  rewrite reverse_app, dropWhile_app_keep by by rewrite forallb_reverse.
  by rewrite reverse_app, reverse_involutive.
Qed.

Lemma trimRight_app_all (p : gochar → bool) (a b : text) :
  forallb p b = true → trimRight p (a ++ b) = trimRight p a.
Proof.
  intros H. unfold trimRight.
  by rewrite reverse_app, dropWhile_app_all by by rewrite forallb_reverse.
Qed.

Lemma trimRight_prefix (p : gochar → bool) (s : text) : trimRight p s `prefix_of` s.
Proof.
  unfold trimRight.
  destruct (dropWhile_suffix p (reverse s)) as [k Hk].
  exists (reverse k).
  rewrite <- (reverse_involutive s) at 1. rewrite Hk at 1.
  by rewrite reverse_app.
Qed.

(** The ASCII tables obey the laws asked of the tables. *)
Lemma asciiTables_laws : UnicodeLaws asciiTables.
Proof.
  split; simpl; try done.
  - intros cp. unfold asciiToLower.
    destruct ((65 <=? cp) && (cp <=? 90))%N eqn:Hupper; [|by rewrite Hupper].
    apply andb_true_iff in Hupper as [H1%N.leb_le H2%N.leb_le].
    rewrite (proj2 (N.leb_gt (cp + 32) 90)) by lia. by rewrite andb_false_r.
  - intros cp Hspace. unfold asciiToLower.
    destruct ((65 <=? cp) && (cp <=? 90))%N eqn:Hupper; [|done].
    apply andb_true_iff in Hupper as [H1%N.leb_le H2%N.leb_le].
    unfold isSpace in Hspace.
    rewrite !orb_true_iff, !andb_true_iff, !N.leb_le, !N.eqb_eq in Hspace. lia.
Qed.

Lemma asciiTables_space_laws : SpaceLaws asciiTables.
Proof.
  split; simpl; intros cp Hspace; unfold isSpace in Hspace;
    rewrite !orb_true_iff, !andb_true_iff, !N.leb_le, !N.eqb_eq in Hspace.
  - unfold asciiLetter. apply orb_false_iff.
    split; apply andb_false_iff; rewrite !N.leb_gt; lia.
  - unfold asciiDigit. apply andb_false_iff. rewrite !N.leb_gt. lia.
Qed.

Lemma isASCIIb_Forall (s : text) : forallb Spec.isASCIIb s = true → Forall Spec.isASCII s.
Proof.
  induction s as [|c s IH]; simpl; [done|].
  intros [Hc Hs]%andb_true_iff. constructor; [|by apply IH].
  destruct c as [cp|b]; [|done]. exists cp. split; [done|]. by apply N.ltb_lt.
Qed.

End TextFacts.

(** ** The semantic engine *)

Module EngineFacts.
Import GoString Embeddings.

Section Engine.
Context {C : Type} {embedding : EmbeddingClient C}.

Lemma IndexChunks_failure (e e' : SemanticEngine C) (chunks chunks' : list Chunk)
    (err : error) :
  SemanticEngine_IndexChunks e chunks = Returns (e', chunks', Some err) →
  store e' = store e ∧ isIndexed e' = isIndexed e.
Proof.
  unfold SemanticEngine_IndexChunks.
  destruct (embedBatches _ _ _ _) as [[[client1 chunks1] [err1|]]|]; intros [=]; by subst.
Qed.

Lemma Search_keeps_flag (e e' : SemanticEngine C) (query locale : text) (topK : Z)
    (found : result error (list SemanticResult)) :
  SemanticEngine_Search e query locale topK = Returns (e', found) →
  store e' = store e ∧ isIndexed e' = isIndexed e.
Proof.
  unfold SemanticEngine_Search.
  destruct (isIndexed e) eqn:Hflag; simpl.
  - destruct (Embed (client e) query) as [[v|err] client1].
    + destruct (VectorStore_Search _ _ _ _); intros [=]; by subst.
    + intros [=]; by subst.
  - intros [=]; by subst.
Qed.

Lemma neverIndexed_flag (e : SemanticEngine C) : neverIndexed e → isIndexed e = false.
Proof.
  induction 1 as [client | e chunks e' chunks' err _ IH Hcall
                 | e query locale topK e' found _ IH Hcall].
  - reflexivity.
  - apply IndexChunks_failure in Hcall as [_ ->]. exact IH.
  - apply Search_keeps_flag in Hcall as [_ ->]. exact IH.
Qed.

(** C9.  Semantic search fails with the not-indexed error whenever the
    engine's indexed flag is false, which is the case as long as no
    [IndexChunks] call of the process has completed successfully; in that
    state it never returns a success, empty or not.  When the flag is
    true it embeds the query, passes a provider error on, and otherwise
    returns what the vector store's search returns for the query's
    embedding. *)
Theorem semantic_search_needs_index (e : SemanticEngine C) (query locale : text) (topK : Z) :
  (neverIndexed e → isIndexed e = false)
  ∧ (isIndexed e = false →
       SemanticEngine_Search e query locale topK = Returns (e, Err ErrIndexNotBuilt)
       ∧ ∀ e' found, SemanticEngine_Search e query locale topK ≠ Returns (e', Ok found))
  ∧ (isIndexed e = true →
       (∀ err client', Embed (client e) query = (Err err, client') →
          SemanticEngine_Search e query locale topK = Returns (withClient e client', Err err))
       ∧ (∀ v client', Embed (client e) query = (Ok v, client') →
            SemanticEngine_Search e query locale topK =
              match VectorStore_Search (store e) v locale topK with
              | Panics => Panics
              | Returns found => Returns (withClient e client', Ok found)
              end)).
Proof.
  split; [apply neverIndexed_flag|].
  unfold SemanticEngine_Search, withClient. split; intros Hflag; rewrite Hflag; simpl.
  - split; [done|]. intros e' found [=].
  - split; intros x client' ->; reflexivity.
Qed.

End Engine.

(** The provider answers the first batch of a hundred and fails on the
    second: the call fails, the hundred chunks of the first batch have
    their embeddings, and the store holds none of them. *)
Lemma failed_index_stores_nothing :
  ∃ e' chunks' err,
    SemanticEngine_IndexChunks
      (NewSemanticEngine [Some Samples.unitVector; None]) Samples.hundredAndOne
    = Returns (e', chunks', Some err)
    ∧ forallb (λ c, length (Chunk_Embedding c) =? 2) (take 100 chunks') = true
    ∧ chunks (store e') = [].
Proof.
  vm_compute. eexists _, _, _. split; [reflexivity|]. split; reflexivity.
Qed.

(** A process whose only [IndexChunks] call failed: the search is
    refused. *)
Lemma semantic_search_needs_index_witness :
  ∃ e' chunks' err,
    SemanticEngine_IndexChunks
      (NewSemanticEngine [None; Some Samples.unitVector]) Samples.hundredAndOne
    = Returns (e', chunks', Some err)
    ∧ SemanticEngine_Search e' (T "ports") (T "es") 5 = Returns (e', Err ErrIndexNotBuilt).
Proof.
  assert (∃ e' chunks' err,
    SemanticEngine_IndexChunks
      (NewSemanticEngine [None; Some Samples.unitVector]) Samples.hundredAndOne
    = Returns (e', chunks', Some err)) as (e' & chunks' & err & Hcall).
  { vm_compute. eexists _, _, _. reflexivity. }
  exists e', chunks', err. split; [exact Hcall|].
  destruct (semantic_search_needs_index e' (T "ports") (T "es") 5) as (Hnever & Hoff & _).
  apply Hoff, Hnever. eapply never_failed; [apply never_new | exact Hcall].
Defined.

(** After a call that succeeded the search answers from the store. *)
Example semantic_search_after_index :
  match SemanticEngine_IndexChunks
          (NewSemanticEngine [Some Samples.unitVector; Some Samples.unitVector;
                              Some Samples.unitVector]) Samples.hundredAndOne with
  | Returns (e1, _, None) =>
      match SemanticEngine_Search e1 (T "ports") (T "es") 5 with
      | Returns (e2, Ok found) => length found = 5 ∧ VectorStore_Count (store e2) = 101
      | _ => False
      end
  | _ => False
  end.
Proof. vm_compute. split; reflexivity. Qed.

(** C4.  A negative [topK] is below every length, so [Search] slices
    [results[:topK]] with a negative bound, and that panics, whatever the
    store holds. *)
Theorem vector_search_negative_k_panics (v : VectorStore) (queryEmbedding : vector)
    (locale : text) (k : positive) :
  VectorStore_Search v queryEmbedding locale (Z.neg k) = Panics.
Proof.
  unfold VectorStore_Search.
  destruct (Z.ltb_spec (Z.neg k) (Z.of_nat (length (sortDescending
    (foldl (λ results chunk,
              if inLocale locale chunk
              then results ++ [{| chunk := chunk;
                                  score := cosineSimilarity queryEmbedding (Chunk_Embedding chunk) |}]
              else results) [] (chunks v)))))) as [_|Hge]; [|lia].
  reflexivity.
Qed.

(** *** The search of the store for a [topK] that is not negative *)

Lemma exchange_length (i j : nat) (results : list scored) :
  length (exchange i j results) = length results.
Proof.
  unfold exchange. destruct (results !! i), (results !! j); try done.
  destruct (_ <? _)%float; [|done]. by rewrite !length_insert.
Qed.

Lemma exchange_Forall (P : scored → Prop) (i j : nat) (results : list scored) :
  Forall P results → Forall P (exchange i j results).
Proof.
  intros Hall. unfold exchange.
  destruct (results !! i) as [ri|] eqn:Hi; [|done].
  destruct (results !! j) as [rj|] eqn:Hj; [|done].
  destruct (_ <? _)%float; [|done].
  apply Forall_insert; [apply Forall_insert; [done|] |].
  - by eapply Forall_lookup_1 in Hi.
  - by eapply Forall_lookup_1 in Hj.
Qed.

Lemma exchanges_invariant (Q : list scored → Prop) (i : nat) (inner : list nat)
    (results : list scored) :
  (∀ i j rs, Q rs → Q (exchange i j rs)) →
  Q results → Q (foldl (λ results j, exchange i j results) results inner).
Proof.
  intros Hstep. revert results.
  induction inner as [|j inner IH]; intros results Hresults; [done|].
  cbn [foldl]. by apply IH, Hstep.
Qed.

Lemma passes_invariant (Q : list scored → Prop) (n : nat) (outer : list nat)
    (results : list scored) :
  (∀ i j rs, Q rs → Q (exchange i j rs)) →
  Q results →
  Q (foldl (λ results i,
              foldl (λ results j, exchange i j results) results (seq (i + 1) (n - (i + 1))))
           results outer).
Proof.
  intros Hstep. revert results.
  induction outer as [|i outer IH]; intros results Hresults; [done|].
  cbn [foldl]. by apply IH, exchanges_invariant.
Qed.

Lemma sortDescending_invariant (Q : list scored → Prop) (results : list scored) :
  (∀ i j rs, Q rs → Q (exchange i j rs)) →
  Q results → Q (sortDescending results).
Proof.
  intros Hstep Hresults. unfold sortDescending.
  by apply (passes_invariant Q (length results) (seq 0 (length results))).
Qed.

Lemma sortDescending_length (results : list scored) :
  length (sortDescending results) = length results.
Proof.
  apply (sortDescending_invariant (λ rs, length rs = length results)); [|done].
  intros i j rs Hrs. by rewrite exchange_length.
Qed.

Lemma sortDescending_Forall (P : scored → Prop) (results : list scored) :
  Forall P results → Forall P (sortDescending results).
Proof.
  apply (sortDescending_invariant (Forall P)). intros i j rs. apply exchange_Forall.
Qed.

Lemma Search_loop (queryEmbedding : vector) (locale : text) (stored : list Chunk)
    (results : list scored) :
  foldl (λ results chunk,
           if inLocale locale chunk
           then results ++ [{| chunk := chunk;
                               score := cosineSimilarity queryEmbedding (Chunk_Embedding chunk) |}]
           else results) results stored
  = results ++ Spec.scoredIn queryEmbedding locale stored.
Proof.
  revert results. induction stored as [|c stored IH]; intros results.
  - by rewrite app_nil_r.
  - cbn [foldl]. rewrite IH. unfold Spec.scoredIn. cbn [List.filter].
    destruct (inLocale locale c); [|done]. by rewrite fmap_cons, <- app_assoc.
Qed.

(** For a [topK] that is not negative [Search] returns: the chunks of
    the store in the locale asked for (all of them when it is empty),
    each scored by [cosineSimilarity] against the query, put in order by
    the exchange loops and cut to the first [topK]; so [topK] results
    when that many chunks are in the locale, all of them otherwise, and
    none for 0. *)
Theorem vector_search_returns_first_k (v : VectorStore) (queryEmbedding : vector)
    (locale : text) (k : nat) :
  VectorStore_Search v queryEmbedding locale (Z.of_nat k)
  = Returns (toSemanticResult
               <$> take k (sortDescending (Spec.scoredIn queryEmbedding locale (chunks v))))
  ∧ length (take k (sortDescending (Spec.scoredIn queryEmbedding locale (chunks v))))
    = k `min` length (List.filter (inLocale locale) (chunks v))
  ∧ Forall (λ r, (locale = [] ∨ Chunk_Locale (chunk r) = locale)
                 ∧ chunk r ∈ chunks v
                 ∧ score r = cosineSimilarity queryEmbedding (Chunk_Embedding (chunk r)))
           (take k (sortDescending (Spec.scoredIn queryEmbedding locale (chunks v)))).
Proof.
  split; [|split].
  - unfold VectorStore_Search. rewrite Search_loop, app_nil_l.
    destruct (Z.ltb_spec (Z.of_nat k)
                (Z.of_nat (length (sortDescending
                   (Spec.scoredIn queryEmbedding locale (chunks v)))))) as [Hlt|Hge].
    + destruct (Z.ltb_spec (Z.of_nat k) 0) as [Hneg|_]; [lia|].
      by rewrite Nat2Z.id.
    + by rewrite take_ge by lia.
  - rewrite length_take, sortDescending_length. unfold Spec.scoredIn.
    by rewrite length_fmap.
  - apply Forall_take, sortDescending_Forall. unfold Spec.scoredIn.
    apply Forall_fmap, Forall_forall. intros c Hc. simpl.
    apply list_elem_of_In, List.filter_In in Hc as [Hin Hlocale].
    split; [|split; [by apply list_elem_of_In | done]].
    unfold inLocale in Hlocale.
    destruct (bool_decide_reflect (locale = [])) as [->|_]; [by left|].
    destruct (bool_decide_reflect (Chunk_Locale c = locale)) as [Heq|_]; [by right|done].
Qed.

(** Vectors of different lengths score 0. *)
Lemma cosineSimilarity_lengths (a b : vector) :
  length a ≠ length b → cosineSimilarity a b = 0%float.
Proof.
  intros Hne. unfold cosineSimilarity.
  by destruct (Nat.eqb_spec (length a) (length b)).
Qed.

Lemma cosineSimilarity_lengths_witness :
  cosineSimilarity [3; 4]%float [3; 4; 5]%float = 0%float.
Proof. apply cosineSimilarity_lengths. simpl. lia. Defined.

Example cosineSimilarity_samples :
  cosineSimilarity [1; 0]%float [1; 0]%float = 1%float
  ∧ cosineSimilarity [1; 0]%float [0; 1]%float = 0%float
  ∧ cosineSimilarity [0; 0]%float [1; 1]%float = 0%float
  ∧ cosineSimilarity [3; 4]%float [3; 4; 5]%float = 0%float
  ∧ cosineSimilarity [3; 4]%float [6; 8]%float = 1%float.
Proof. vm_compute. repeat split; reflexivity. Qed.

End EngineFacts.

(** ** Parsing the front matter *)

Module ParseFacts.
Import GoString Book.

Section Parse.
Context {json : JSON}.

Lemma parseTitleList_undecoded (fmContent : text) :
  match titleListLiteral fmContent with
  | Some arrayContent => json_Unmarshal (cleanArrayToJSON arrayContent) = None
  | None => True
  end →
  parseTitleList fmContent = [].
Proof.
  unfold parseTitleList. destruct (titleListLiteral fmContent) as [lit|]; [|done].
  by intros ->.
Qed.

(** C7, as the code has it.  Parsing a raw document text either produces
    the front matter and the body or fails, and it fails for two reasons
    only: the text does not start with the delimiter, or no second
    delimiter follows.  The title list never makes the parse fail: when
    its literal is not closed or does not decode, the document parses
    with an empty title list. *)
Theorem parse_fails_for_two_reasons (content : text) :
  (parseFrontmatter content = Err ErrNoFrontmatter
     ↔ HasPrefix content (T "---") = false)
  ∧ (parseFrontmatter content = Err ErrFrontmatterNotClosed
     ↔ HasPrefix content (T "---") = true ∧ Index (drop 3 content) (T "---") = None)
  ∧ (∀ err, parseFrontmatter content = Err err →
       err = ErrNoFrontmatter ∨ err = ErrFrontmatterNotClosed)
  ∧ (∀ endIndex,
       HasPrefix content (T "---") = true →
       Index (drop 3 content) (T "---") = Some endIndex →
       ∃ fm, parseFrontmatter content = Ok (fm, TrimSpace (drop (endIndex + 6) content))
         ∧ fm_TitleList fm = parseTitleList (take endIndex (drop 3 content))
         ∧ (match titleListLiteral (take endIndex (drop 3 content)) with
            | Some arrayContent => json_Unmarshal (cleanArrayToJSON arrayContent) = None
            | None => True
            end → fm_TitleList fm = [])).
Proof.
  unfold parseFrontmatter.
  destruct (HasPrefix content (T "---")) eqn:Hprefix; simpl.
  - destruct (Index (drop 3 content) (T "---")) as [endIndex|] eqn:Hend.
    + repeat split; try done; try (intros [? ?]; done).
      intros n _ [= <-]. eexists. split; [reflexivity|]. simpl.
      split; [reflexivity | apply parseTitleList_undecoded].
    + repeat split; try done.
      intros err [= <-]. by right.
  - repeat split; try done; try (intros [? ?]; done).
    intros err [= <-]. by left.
Qed.

(** A chapter file is refused for an unreadable file or for one of the
    two front-matter reasons, and for nothing else. *)
Lemma ParseChapter_errors {os : OS} (p : Parser) (filePath locale : text) (err : error) :
  ParseChapter p filePath locale = Err err →
  err = ErrReadingFile filePath
  ∨ err = ErrParsingFrontmatter filePath ErrNoFrontmatter
  ∨ err = ErrParsingFrontmatter filePath ErrFrontmatterNotClosed.
Proof.
  unfold ParseChapter. destruct (os_ReadFile filePath) as [contentStr|].
  - unfold parseFrontmatter.
    destruct (HasPrefix contentStr (T "---")); simpl; [|intros [= <-]; auto].
    destruct (Index (drop 3 contentStr) (T "---")); simpl; [done|].
    intros [= <-]. auto.
  - intros [= <-]. auto.
Qed.

End Parse.

(** A title list that is no JSON once cleaned: the decoder rejects it,
    and the document parses, with no titles. *)
Lemma malformed_title_list_parses :
  ∃ fm body arrayContent,
    parseFrontmatter (json := Samples.emptyArrayOnly) Samples.brokenTitles = Ok (fm, body)
    ∧ Index (drop 3 Samples.brokenTitles) (T "---") = Some 69
    ∧ titleListLiteral (take 69 (drop 3 Samples.brokenTitles)) = Some arrayContent
    ∧ cleanArrayToJSON arrayContent = T "[ {" ++ [dquote] ++ T "name" ++ [dquote] ++ T ": } ]"
    ∧ json_Unmarshal (JSON := Samples.emptyArrayOnly) (cleanArrayToJSON arrayContent) = None
    ∧ fm_ID fm = T "broken"
    ∧ fm_TitleList fm = []
    ∧ body = T "# Broken
text".
Proof.
  vm_compute. eexists _, _, _. repeat split; reflexivity.
Qed.

(** The same for a title list that is never closed. *)
Example unclosed_title_list_parses :
  ∃ fm body,
    parseFrontmatter (json := Samples.emptyArrayOnly) Samples.cleanAgile = Ok (fm, body)
    ∧ fm_Order fm = 1%Z
    ∧ fm_TitleList fm = [].
Proof.
  vm_compute. eexists _, _. repeat split; reflexivity.
Qed.

End ParseFacts.

(** ** The keyword search *)

Module SearchFacts.
Import GoString Book Spec TextFacts.

Lemma StronglySorted_take {A} (R : relation A) (n : nat) (l : list A) :
  StronglySorted R l → StronglySorted R (take n l).
Proof.
  intros H. rewrite <- (take_drop n l) in H. by apply StronglySorted_app_1_l in H.
Qed.

Lemma StronglySorted_weaken {A} (R R' : relation A) (l : list A) :
  (∀ x y, R x y → R' x y) → StronglySorted R l → StronglySorted R' l.
Proof.
  intros HR. induction 1 as [|x l _ IH Hx]; constructor; [done|].
  eapply Forall_impl; [exact Hx | auto].
Qed.

(** The comparison [Search] hands to [sort.Slice] is one it can work
    with. *)
Lemma byRelevance_strictWeak : strictWeak byRelevance.
Proof.
  unfold strictWeak, byRelevance. split.
  - intros x y Hxy. apply negb_false_iff, Qle_bool_iff.
    apply negb_true_iff in Hxy.
    destruct (Qlt_le_dec (Result_Relevance y) (Result_Relevance x)) as [Hlt|Hle].
    + by apply Qlt_le_weak.
    + apply Qle_bool_iff in Hle. congruence.
  - intros x y z Hxz. apply negb_true_iff in Hxz.
    destruct (Qle_bool (Result_Relevance x) (Result_Relevance y)) eqn:Hxy; [|by left].
    right. apply negb_true_iff.
    destruct (Qle_bool (Result_Relevance y) (Result_Relevance z)) eqn:Hyz; [|done].
    apply Qle_bool_iff in Hxy, Hyz.
    assert (Qle_bool (Result_Relevance x) (Result_Relevance z) = true) as Habs
      by (apply Qle_bool_iff; by eapply Qle_trans).
    congruence.
Qed.

(** The sample sort keeps the promise of [sort.Slice]. *)
Lemma mergeSort_laws : SortLaws Samples.mergeSort.
Proof.
  split; intros A less x; simpl.
  - apply merge_sort_Permutation.
  - intros [Hasym Hneg]. apply StronglySorted_merge_sort.
    + intros a b c Hab Hbc. destruct (less c a) eqn:Hca; [|done].
      destruct (Hneg c b a Hca) as [Hcb|Hba]; congruence.
    + intros a b. destruct (less b a) eqn:Hba; [|by left].
      right. by apply Hasym.
Qed.

Section Search.
Context {unicode : Unicode} {os : OS} {json : JSON} {sort : Sort}.

Lemma matchCount_from (queryWords : list text) (lineLower : text) (n : nat) :
  foldl (λ matchCount word, if Contains lineLower word then S matchCount else matchCount)
        n queryWords
  = n + wordsFound queryWords lineLower.
Proof.
  unfold wordsFound. revert n.
  induction queryWords as [|w ws IH]; intros n; simpl; [lia|].
  rewrite IH, filter_cons. destruct (Contains lineLower w) eqn:Hw.
  - rewrite decide_True by done. simpl. lia.
  - rewrite decide_False by congruence. lia.
Qed.

(** The inner loop counts the words of the query that occur in the line,
    every occurrence of a word in the query anew. *)
Lemma matchCount_wordsFound (queryWords : list text) (lineLower : text) :
  matchCount queryWords lineLower = wordsFound queryWords lineLower.
Proof. unfold matchCount. by rewrite matchCount_from. Qed.

Lemma wordsFound_le (queryWords : list text) (lineLower : text) :
  wordsFound queryWords lineLower ≤ length queryWords.
Proof. apply length_filter. Qed.

Lemma sectionAt_prefix (pre rest : list text) (i : nat) :
  i < length pre → sectionAt (pre ++ rest) i = sectionAt pre i.
Proof. intros Hi. unfold sectionAt. by rewrite take_app_le by lia. Qed.

Lemma sectionAt_last (pre : list text) (line : text) :
  sectionAt (pre ++ [line]) (length pre)
  = match headerMatch line with
    | Some headerText => headerText
    | None => default [] (last (omap headerMatch pre))
    end.
Proof.
  unfold sectionAt.
  rewrite take_ge by (rewrite length_app; simpl; lia).
  rewrite omap_app. simpl. destruct (headerMatch line) as [h|]; simpl.
  - by rewrite last_snoc.
  - by rewrite app_nil_r.
Qed.

Lemma hits_snoc (queryWords : list text) (chapter : Chapter) (locale : text)
    (pre : list text) (line : text) :
  omap id (imap (hitAt queryWords chapter locale (pre ++ [line])) (pre ++ [line]))
  = omap id (imap (hitAt queryWords chapter locale pre) pre)
    ++ option_list (hitAt queryWords chapter locale (pre ++ [line]) (length pre) line).
Proof.
  rewrite imap_app, omap_app. f_equal.
  - f_equal. apply imap_ext. intros i x Hi. unfold hitAt.
    rewrite sectionAt_prefix; [done|]. by eapply lookup_lt_Some.
  - cbn [imap omap list_omap]. rewrite Nat.add_0_r.
    by destruct (hitAt _ _ _ _ _ _).
Qed.

Lemma scan_lines (queryWords : list text) (chapter : Chapter) (locale : text)
    (found : list SearchResult) (lines : list text) :
  foldl (scanLine queryWords chapter locale)
        {| lineNum := 0; currentSection := []; results := found |} lines
  = scanned queryWords chapter locale found lines.
Proof.
  induction lines as [|line pre IH] using rev_ind.
  - unfold scanned. simpl. by rewrite app_nil_r.
  - rewrite foldl_snoc, IH. unfold scanLine, scanned. cbn [lineNum currentSection results].
    rewrite matchCount_wordsFound, hits_snoc.
    replace (hitAt queryWords chapter locale (pre ++ [line]) (length pre) line)
      with (if 0 <? wordsFound queryWords (ToLower line) then
              Some {| Result_ChapterID := Chapter_ID chapter;
                      Result_ChapterName := Chapter_Name chapter;
                      Result_Section :=
                        match headerMatch line with
                        | Some headerText => headerText
                        | None => default [] (last (omap headerMatch pre))
                        end;
                      Result_Snippet := snippetOf line;
                      Result_LineNumber := S (length pre);
                      Result_Relevance :=
                        relevanceOf (wordsFound queryWords (ToLower line))
                                    (length queryWords);
                      Result_Locale := locale |}
            else None)
      by (unfold hitAt; by rewrite sectionAt_last).
    f_equal.
    + rewrite length_app. simpl. lia.
    + rewrite omap_app. simpl. destruct (headerMatch line); simpl;
        [by rewrite last_snoc | by rewrite app_nil_r].
    + destruct (0 <? wordsFound queryWords (ToLower line)); simpl.
      * by rewrite <- app_assoc.
      * by rewrite app_nil_r.
Qed.

Lemma scanChapter_hits (queryWords : list text) (locale : text)
    (found : list SearchResult) (chapter : Chapter) :
  scanChapter queryWords locale found chapter
  = found ++ chapterHits queryWords locale chapter.
Proof. unfold scanChapter. by rewrite scan_lines. Qed.

Lemma scanChapters_hits (queryWords : list text) (locale : text)
    (found : list SearchResult) (chapters : list Chapter) :
  foldl (scanChapter queryWords locale) found chapters
  = found ++ allHits queryWords locale chapters.
Proof.
  unfold allHits. revert found.
  induction chapters as [|chapter chapters IH]; intros found; simpl.
  - by rewrite app_nil_r.
  - by rewrite IH, scanChapter_hits, <- app_assoc.
Qed.

(** The snippet is the line when it has at most 200 bytes, and else its
    first 200 bytes and three dots. *)
Lemma snippet_bytes (line : text) :
  bytes (snippetOf line)
  = if len line <=? 200 then bytes line else take 200 (bytes line) ++ bytes (T "...").
Proof.
  unfold snippetOf.
  destruct (Nat.ltb_spec 200 (len line)) as [Hlong|Hshort].
  - rewrite (proj2 (Nat.leb_gt _ _)) by done.
    unfold bytes at 1. rewrite bind_app. fold (bytes (sliceTo 200 line)).
    by rewrite bytes_sliceTo.
  - by rewrite (proj2 (Nat.leb_le _ _)).
Qed.

Lemma Search_ranked `{!SortLaws sort} (p : Parser) (query locale : text)
    (chapters : list Chapter) :
  ListChapters p locale = Ok chapters →
  ∃ ranked,
    Search p query locale = Ok (take 20 ranked)
    ∧ ranked ≡ₚ allHits (Fields (ToLower query)) locale chapters
    ∧ StronglySorted byRelevanceDescending ranked.
Proof.
  intros Hlist. unfold Search. rewrite Hlist.
  rewrite scanChapters_hits. simpl.
  set (hits := allHits (Fields (ToLower query)) locale chapters).
  exists (sort_Slice byRelevance hits). split; [|split].
  - destruct (Nat.ltb_spec 20 (length (sort_Slice byRelevance hits))); [done|].
    by rewrite take_ge by lia.
  - apply sort_Slice_perm.
  - eapply StronglySorted_weaken; [|apply sort_Slice_sorted, byRelevance_strictWeak].
    intros a b Hab. unfold byRelevance in Hab.
    apply negb_false_iff in Hab. by apply Qle_bool_iff.
Qed.

(** C5, as the code has it.  When the chapters of the locale can be
    listed, the search returns the first 20 of a list that holds exactly
    the hits of all scanned lines, ordered by relevance, highest first.
    A line has a hit when it contains a word of the lowered query, and
    the relevance of the hit is the number of words of the query found
    in the lowered line, a word counted as often as the query repeats it,
    over the number of words of the query; the snippet is the line, cut
    to 200 bytes and three dots when it is longer.  The list returned is
    ordered the same way and has at most 20 hits, and it is empty, with
    no error, when no line matches. *)
Theorem lexical_search_ranks_hits `{!SortLaws sort} (p : Parser) (query locale : text)
    (chapters : list Chapter) :
  ListChapters p locale = Ok chapters →
  ∃ ranked,
    Search p query locale = Ok (take 20 ranked)
    ∧ ranked ≡ₚ allHits (Fields (ToLower query)) locale chapters
    ∧ StronglySorted byRelevanceDescending ranked
    ∧ StronglySorted byRelevanceDescending (take 20 ranked)
    ∧ length (take 20 ranked) ≤ 20
    ∧ (allHits (Fields (ToLower query)) locale chapters = [] →
       Search p query locale = Ok [])
    ∧ (∀ queryWords lineLower,
         matchCount queryWords lineLower = wordsFound queryWords lineLower)
    ∧ (∀ line,
         bytes (snippetOf line)
         = if len line <=? 200 then bytes line
           else take 200 (bytes line) ++ bytes (T "...")).
Proof.
  intros Hlist.
  destruct (Search_ranked p query locale chapters Hlist) as (ranked & Hsearch & Hperm & Hsorted).
  exists ranked. repeat split; try done.
  - by apply StronglySorted_take.
  - rewrite length_take. lia.
  - intros Hnone. rewrite Hnone in Hperm. apply Permutation_nil_r in Hperm.
    by rewrite Hsearch, Hperm.
  - apply matchCount_wordsFound.
  - apply snippet_bytes.
Qed.

Lemma Fields_blank (s : text) : forallb isSpace s = true → Fields s = [].
Proof.
  induction s as [|c s IH]; simpl; [done|].
  destruct (isSpace c); simpl; [exact IH | discriminate].
Qed.

Lemma ToLower_blank `{!UnicodeLaws unicode} (s : text) :
  forallb isSpace s = true → ToLower s = s.
Proof.
  unfold ToLower. induction s as [|c s IH]; [done|].
  cbn [forallb]. intros [Hc Hs]%andb_true_iff.
  rewrite fmap_cons, IH by done. f_equal.
  destruct c as [cp|b]; [|discriminate]. simpl. by rewrite ToLower_space.
Qed.

Lemma omap_imap_none {A B} (f : nat → A → option B) (l : list A) :
  (∀ i x, f i x = None) → omap id (imap f l) = [].
Proof.
  revert f. induction l as [|x l IH]; intros f Hf; [done|].
  rewrite imap_cons. cbn [omap list_omap]. rewrite Hf. simpl.
  apply IH. intros i y. apply Hf.
Qed.

Lemma allHits_no_words (locale : text) (chapters : list Chapter) :
  allHits [] locale chapters = [].
Proof.
  unfold allHits. induction chapters as [|chapter chapters IH]; [done|].
  rewrite bind_cons, IH, app_nil_r. unfold chapterHits.
  by apply omap_imap_none.
Qed.

(** C10, as the code has it.  The search lists the chapters of the
    locale before it looks at the query: for a locale that cannot be
    listed it returns the listing error, also for a query without words.
    For a locale that can be listed, a query that splits into no word
    returns the empty list and no error; the empty string and the strings
    of white space only are such queries.  No hit is made from a line
    unless its match count is positive, the match count over no words is
    zero, and a positive match count means that the query has a word: the
    relevance is never divided by zero. *)
Theorem search_without_words `{!SortLaws sort} `{!UnicodeLaws unicode}
    (p : Parser) (query locale : text) :
  (Fields (ToLower query) = [] →
   match ListChapters p locale with
   | Ok chapters => Search p query locale = Ok []
   | Err err => Search p query locale = Err err
   end)
  ∧ (forallb isSpace query = true → Fields (ToLower query) = [])
  ∧ (∀ lineLower, matchCount [] lineLower = 0)
  ∧ (∀ queryWords lineLower,
       0 < matchCount queryWords lineLower → length queryWords ≠ 0).
Proof.
  repeat split.
  - intros Hwords.
    destruct (ListChapters p locale) as [chapters|err] eqn:Hlist.
    + destruct (Search_ranked p query locale chapters Hlist)
        as (ranked & Hsearch & Hperm & _).
      rewrite Hwords, allHits_no_words in Hperm. apply Permutation_nil_r in Hperm.
      by rewrite Hsearch, Hperm.
    + unfold Search. by rewrite Hlist.
  - intros Hblank. rewrite ToLower_blank by done. by apply Fields_blank.
  - intros queryWords lineLower Hpos Hlen.
    destruct queryWords; [unfold matchCount in Hpos; simpl in Hpos; lia | discriminate].
Qed.

End Search.

(** The query [alpha alpha beta] on the lines [alpha] and [beta]: the
    line [alpha] gets 2/3, the repeated word counted twice, where one
    distinct word of the query is found in it. *)
Lemma repeated_word_counts_twice :
  match Search (unicode := asciiTables) (os := Samples.memOS Samples.greekBook)
               (json := Samples.emptyArrayOnly) (sort := Samples.mergeSort)
               Samples.parser (T "alpha alpha beta") (T "el") with
  | Ok [first; second] =>
      Result_Snippet first = T "alpha"
      ∧ Result_Relevance first = 2 # 3
      ∧ distinctWordsFound (Fields (ToLower (unicode := asciiTables) (T "alpha alpha beta")))
                           (ToLower (unicode := asciiTables) (T "alpha")) = 1
      ∧ ¬ (Result_Relevance first == 1 # 3)%Q
      ∧ Result_Snippet second = T "beta"
      ∧ Result_Relevance second = 1 # 3
  | _ => False
  end.
Proof. vm_compute. repeat split; try reflexivity. intros [=]. Qed.

Lemma lexical_search_ranks_hits_witness :
  ∃ chapters ranked,
    ListChapters (os := Samples.memOS Samples.book)
                 (json := Samples.emptyArrayOnly) (sort := Samples.mergeSort)
                 Samples.parser (T "es") = Ok chapters
    ∧ length chapters = 2
    ∧ Search (unicode := asciiTables) (os := Samples.memOS Samples.book)
             (json := Samples.emptyArrayOnly) (sort := Samples.mergeSort)
             Samples.parser (T "port core") (T "es") = Ok (take 20 ranked)
    ∧ ranked ≡ₚ allHits (unicode := asciiTables)
                  (Fields (ToLower (unicode := asciiTables) (T "port core"))) (T "es") chapters
    ∧ StronglySorted byRelevanceDescending (take 20 ranked).
Proof.
  eexists.
  match goal with
  | |- ∃ ranked, ?L = Ok ?chapters ∧ _ =>
      assert (L = Ok chapters) as Hlist by (vm_compute; reflexivity)
  end.
  destruct (lexical_search_ranks_hits (unicode := asciiTables)
              (os := Samples.memOS Samples.book) (json := Samples.emptyArrayOnly)
              (sort := Samples.mergeSort) (SortLaws0 := mergeSort_laws)
              Samples.parser (T "port core") (T "es") _ Hlist)
    as (ranked & Hsearch & Hperm & _ & Hsorted & _).
  exists ranked. repeat split; try done.
Defined.

Lemma search_without_words_witness :
  Fields (ToLower (unicode := asciiTables) (T "   ")) = []
  ∧ Search (unicode := asciiTables) (os := Samples.memOS Samples.book)
           (json := Samples.emptyArrayOnly) (sort := Samples.mergeSort)
           Samples.parser (T "   ") (T "es") = Ok [].
Proof.
  destruct (search_without_words (unicode := asciiTables)
              (os := Samples.memOS Samples.book) (json := Samples.emptyArrayOnly)
              (sort := Samples.mergeSort) (SortLaws0 := mergeSort_laws)
              (UnicodeLaws0 := asciiTables_laws)
              Samples.parser (T "   ") (T "es"))
    as (Hnone & Hblank & _).
  split; [by apply Hblank|].
  specialize (Hnone (Hblank eq_refl)).
  destruct (ListChapters _ _) as [chapters|err] eqn:Hlist in Hnone;
    [exact Hnone | by vm_compute in Hlist].
Defined.

(** A query of white space on a locale that has no directory: the
    listing error comes back, and not the empty list. *)
Lemma blank_query_on_missing_locale :
  Fields (ToLower (unicode := asciiTables) (T "   ")) = []
  ∧ Search (unicode := asciiTables) (os := Samples.memOS Samples.book)
           (json := Samples.emptyArrayOnly) (sort := Samples.mergeSort)
           Samples.parser (T "   ") (T "fr")
    = Err (ErrReadingDirectory (T "book/fr"))
  ∧ Search (unicode := asciiTables) (os := Samples.memOS Samples.book)
           (json := Samples.emptyArrayOnly) (sort := Samples.mergeSort)
           Samples.parser (T "   ") (T "fr") ≠ Ok [].
Proof. vm_compute. split; [reflexivity|]. split; [reflexivity | intros [=]]. Qed.

End SearchFacts.

(** ** Slugs *)

Module SlugFacts.
Import GoString Book Spec TextFacts.

Lemma isChar_eq (a : N) (c : gochar) : isChar a c = true → c = Rune a.
Proof. destruct c as [cp|b]; simpl; [|done]. by intros ->%N.eqb_eq. Qed.

Lemma dropWhile_start (s : text) : startsWithHyphen (dropWhile (isChar 45) s) = false.
Proof.
  induction s as [|c s IH]; simpl; [done|].
  destruct (isChar 45 c) eqn:Hc; [done | by simpl].
Qed.

Lemma dropWhile_id (s : text) : startsWithHyphen s = false → dropWhile (isChar 45) s = s.
Proof. destruct s as [|c s]; simpl; [done|]. by intros ->. Qed.

Lemma startsWithHyphen_prefix (t u : text) :
  t `prefix_of` u → startsWithHyphen u = false → startsWithHyphen t = false.
Proof. intros [k ->]. by destruct t. Qed.

Lemma Trim_infix (s : text) (cut : N) : ∃ a b, s = a ++ Trim s cut ++ b.
Proof.
  unfold Trim, trimLeft.
  destruct (dropWhile_suffix (isChar cut) s) as [a Ha].
  destruct (trimRight_prefix (isChar cut) (dropWhile (isChar cut) s)) as [b Hb].
  exists a, b. by rewrite <- Hb.
Qed.

(** What [strings.Trim] leaves neither starts nor ends with a hyphen. *)
Lemma Trim_ends (s : text) :
  startsWithHyphen (Trim s 45) = false ∧ startsWithHyphen (reverse (Trim s 45)) = false.
Proof.
  unfold Trim, trimLeft. split.
  - eapply startsWithHyphen_prefix; [apply trimRight_prefix | apply dropWhile_start].
  - unfold trimRight. rewrite reverse_involutive. apply dropWhile_start.
Qed.

Lemma Trim_id (s : text) :
  startsWithHyphen s = false → startsWithHyphen (reverse s) = false → Trim s 45 = s.
Proof.
  intros Hstart Hend. unfold Trim, trimLeft, trimRight.
  by rewrite (dropWhile_id s), (dropWhile_id (reverse s)), reverse_involutive.
Qed.

Lemma squeezeHyphens_cons (c : gochar) (s : text) :
  squeezeHyphens (c :: s)
  = if isChar 45 c && startsWithHyphen s then squeezeHyphens s
    else c :: squeezeHyphens s.
Proof.
  destruct s as [|c' s']; simpl; destruct (isChar 45 c); done.
Qed.

Lemma squeezeHyphens_Forall (P : gochar → Prop) (s : text) :
  Forall P s → Forall P (squeezeHyphens s).
Proof.
  induction 1 as [|c s Hc Hs IH]; [done|].
  rewrite squeezeHyphens_cons.
  destruct (isChar 45 c && startsWithHyphen s); [done | by constructor].
Qed.

Lemma squeezeHyphens_start (s : text) :
  startsWithHyphen (squeezeHyphens s) = startsWithHyphen s.
Proof.
  induction s as [|c s IH]; [done|].
  rewrite squeezeHyphens_cons.
  destruct (isChar 45 c) eqn:Hc; simpl; [|by rewrite Hc].
  destruct (startsWithHyphen s) eqn:Hs; [by rewrite IH | by simpl].
Qed.

(** Squeezing leaves no hyphen next to a hyphen. *)
Lemma squeezeHyphens_noDouble (s : text) : noDoubleHyphen (squeezeHyphens s).
Proof.
  induction s as [|c s IH]; [done|].
  rewrite squeezeHyphens_cons.
  destruct (isChar 45 c && startsWithHyphen s) eqn:Hcs; [done|].
  cbn [noDoubleHyphen]. by rewrite squeezeHyphens_start.
Qed.

Lemma squeezeHyphens_id (s : text) : noDoubleHyphen s → squeezeHyphens s = s.
Proof.
  induction s as [|c s IH]; [done|].
  intros [Hc Hs]. by rewrite squeezeHyphens_cons, Hc, IH.
Qed.

Lemma noDoubleHyphen_app (a b : text) :
  noDoubleHyphen (a ++ b) → noDoubleHyphen a ∧ noDoubleHyphen b.
Proof.
  induction a as [|c a IH]; simpl; [done|].
  intros [Hc Hab]. destruct (IH Hab) as [Ha Hb]. split; [|done]. split; [|done].
  destruct a; simpl in *; [by rewrite andb_false_r | done].
Qed.

Lemma filter_id (P : gochar → Prop) `{!∀ c, Decision (P c)} (s : text) :
  Forall P s → filter P s = s.
Proof.
  induction 1 as [|c s Hc Hs IH]; [done|].
  by rewrite filter_cons_True, IH.
Qed.

Lemma Trim_leading_hyphen (x : text) :
  Trim (squeezeHyphens (hyphen :: x)) 45 = Trim (squeezeHyphens x) 45.
Proof.
  rewrite squeezeHyphens_cons. simpl.
  destruct (startsWithHyphen x); [done|].
  unfold Trim, trimLeft. reflexivity.
Qed.

Lemma Trim_app_hyphens (y k : text) :
  forallb (isChar 45) k = true → Trim (y ++ k) 45 = Trim y 45.
Proof.
  intros Hk. unfold Trim, trimLeft.
  destruct (forallb (isChar 45) y) eqn:Hy.
  - by rewrite dropWhile_app_all, (dropWhile_all _ k), (dropWhile_all _ y).
  - by rewrite dropWhile_app_keep, trimRight_app_all.
Qed.

Lemma squeezeHyphens_snoc (x : text) :
  ∃ k, squeezeHyphens (x ++ [hyphen]) = squeezeHyphens x ++ k
       ∧ forallb (isChar 45) k = true.
Proof.
  induction x as [|c x (k & IH & Hk)]; [by exists [hyphen]|].
  rewrite <- app_comm_cons, !squeezeHyphens_cons.
  destruct x as [|c' x'].
  - simpl. destruct (isChar 45 c) eqn:Hc; simpl.
    + exists []. apply isChar_eq in Hc as ->. by split.
    + by exists [hyphen].
  - cbn [app startsWithHyphen].
    destruct (isChar 45 c && isChar 45 c'); exists k; [done|].
    split; [|done]. by rewrite <- app_comm_cons, <- IH.
Qed.

Lemma squeezeHyphens_double (a b : text) :
  squeezeHyphens (a ++ hyphen :: hyphen :: b) = squeezeHyphens (a ++ hyphen :: b).
Proof.
  induction a as [|c a IH]; [done|].
  rewrite <- !app_comm_cons, !squeezeHyphens_cons, IH.
  by destruct a.
Qed.

Section Slug.
Context {unicode : Unicode} `{!UnicodeLaws unicode} (p : Parser).

Lemma ToLower_hyphen : unicode_ToLower 45 = 45%N.
Proof. by rewrite ToLower_ascii. Qed.

Lemma ToLower_space32 : unicode_ToLower 32 = 32%N.
Proof. by rewrite ToLower_ascii. Qed.

Lemma slugChar_hyphen : slugChar hyphen = true.
Proof. unfold slugChar. simpl. by rewrite orb_true_r. Qed.

Lemma generateTagID_stage (title : text) :
  generateTagID p title = Trim (squeezeHyphens (slugStage title)) 45.
Proof. reflexivity. Qed.

Lemma slugStage_made (title : text) : Forall slugMade (slugStage title).
Proof.
  apply Forall_forall. intros c [Hslug Hin]%list_elem_of_filter.
  unfold ReplaceAll in Hin. apply list_elem_of_fmap in Hin as (c1 & -> & Hin).
  unfold ToLower in Hin. apply list_elem_of_fmap in Hin as (c0 & -> & _).
  unfold slugMade. simpl in *.
  destruct (N.eqb_spec (unicode_ToLower (codepoint c0)) 32) as [Heq|Hne].
  - split; [by left|]. by split.
  - split; [right; by eexists|]. split; [done|]. by apply N.eqb_neq.
Qed.

(** The slug of a title is made of lowered letters, digits and single
    hyphens, and neither starts nor ends with a hyphen. *)
Lemma generateTagID_shape (title : text) :
  Forall slugMade (generateTagID p title)
  ∧ noDoubleHyphen (generateTagID p title)
  ∧ startsWithHyphen (generateTagID p title) = false
  ∧ startsWithHyphen (reverse (generateTagID p title)) = false.
Proof.
  rewrite generateTagID_stage.
  destruct (Trim_infix (squeezeHyphens (slugStage title)) 45) as (a & b & Hab).
  pose proof (squeezeHyphens_Forall _ _ (slugStage_made title)) as Hmade.
  pose proof (squeezeHyphens_noDouble (slugStage title)) as Hnd.
  rewrite Hab in Hmade, Hnd.
  apply Forall_app in Hmade as [_ [Hmade _]%Forall_app].
  apply noDoubleHyphen_app in Hnd as [_ [Hnd _]%noDoubleHyphen_app].
  split; [done|]. split; [done|]. apply Trim_ends.
Qed.

Lemma ToLower_made (s : text) : Forall slugMade s → ToLower s = s.
Proof.
  unfold ToLower. induction 1 as [|c s [Hlow _] _ IH]; [done|].
  rewrite fmap_cons, IH. f_equal.
  destruct Hlow as [->|[cp ->]]; simpl;
    [by rewrite ToLower_hyphen | by rewrite ToLower_idemp].
Qed.

Lemma ReplaceAll_made (s : text) : Forall slugMade s → ReplaceAll s 32 45 = s.
Proof.
  unfold ReplaceAll. induction 1 as [|c s (_ & _ & Hc) _ IH]; [done|].
  by rewrite fmap_cons, Hc, IH.
Qed.

(** A text of that shape is its own slug. *)
Lemma generateTagID_fixed (s : text) :
  Forall slugMade s →
  noDoubleHyphen s →
  startsWithHyphen s = false →
  startsWithHyphen (reverse s) = false →
  generateTagID p s = s.
Proof.
  intros Hmade Hnd Hstart Hend. rewrite generateTagID_stage. unfold slugStage.
  rewrite ToLower_made, ReplaceAll_made by done.
  rewrite filter_id by (eapply Forall_impl; [exact Hmade | by intros c (_ & Hc & _)]).
  rewrite squeezeHyphens_id by done. by apply Trim_id.
Qed.

Theorem generateTagID_idempotent (title : text) :
  generateTagID p (generateTagID p title) = generateTagID p title.
Proof.
  destruct (generateTagID_shape title) as (Hmade & Hnd & Hstart & Hend).
  by apply generateTagID_fixed.
Qed.

Lemma ToLower_ToLower (s : text) : ToLower (ToLower s) = ToLower s.
Proof.
  unfold ToLower. rewrite <- list_fmap_compose. apply list_fmap_ext.
  intros i c _. simpl. by rewrite ToLower_idemp.
Qed.

Lemma generateTagID_case (title : text) :
  generateTagID p (ToLower title) = generateTagID p title.
Proof. rewrite !generateTagID_stage. unfold slugStage. by rewrite ToLower_ToLower. Qed.

Lemma slugStage_app (a b : text) : slugStage (a ++ b) = slugStage a ++ slugStage b.
Proof.
  unfold slugStage, ReplaceAll, ToLower. by rewrite !fmap_app, filter_app.
Qed.

Lemma slugStage_space : slugStage (T " ") = [hyphen].
Proof.
  change (T " ") with [Rune 32].
  unfold slugStage, ReplaceAll, ToLower. rewrite !fmap_cons, !fmap_nil.
  cbn [codepoint]. rewrite ToLower_space32. cbn [isChar N.eqb Pos.eqb].
  rewrite filter_cons_True by apply slugChar_hyphen. reflexivity.
Qed.

Lemma generateTagID_leading_space (title : text) :
  generateTagID p (T " " ++ title) = generateTagID p title.
Proof.
  rewrite !generateTagID_stage, slugStage_app, slugStage_space.
  apply Trim_leading_hyphen.
Qed.

Lemma generateTagID_trailing_space (title : text) :
  generateTagID p (title ++ T " ") = generateTagID p title.
Proof.
  rewrite !generateTagID_stage, slugStage_app, slugStage_space.
  destruct (squeezeHyphens_snoc (slugStage title)) as (k & -> & Hk).
  by apply Trim_app_hyphens.
Qed.

Lemma generateTagID_repeated_space (a b : text) :
  generateTagID p (a ++ T "  " ++ b) = generateTagID p (a ++ T " " ++ b).
Proof.
  change (T "  ") with (T " " ++ T " ").
  rewrite !generateTagID_stage, !slugStage_app, !slugStage_space.
  simpl. by rewrite squeezeHyphens_double.
Qed.

(** A character that is white space, no space, and neither letter nor
    digit leaves no hyphen. *)
Lemma generateTagID_blank (a b : text) (cp : N) :
  isSpace (Rune cp) = true → cp ≠ 32%N →
  unicode_L cp = false → unicode_N cp = false →
  generateTagID p (a ++ Rune cp :: b) = generateTagID p (a ++ b).
Proof.
  intros Hspace Hcp HL HN. rewrite !generateTagID_stage.
  change (Rune cp :: b) with ([Rune cp] ++ b). rewrite !slugStage_app.
  replace (slugStage [Rune cp]) with (@nil gochar); [done|].
  unfold slugStage, ReplaceAll, ToLower. rewrite !fmap_cons, !fmap_nil. cbn [codepoint].
  rewrite (ToLower_space cp Hspace).
  assert (isChar 32 (Rune cp) = false) as -> by (by apply N.eqb_neq).
  assert (slugChar (Rune cp) = false) as Hdrop.
  { unfold slugChar. cbn [codepoint isChar]. rewrite HL, HN.
    destruct (N.eqb_spec cp 45) as [->|]; [discriminate Hspace | done]. }
  rewrite filter_cons_False; [done | by rewrite Hdrop].
Qed.

(** The control characters among the white space are below 128, where
    the tables are the ASCII ones. *)
Lemma control_blank (cp : N) :
  (9 ≤ cp ≤ 13)%N →
  isSpace (Rune cp) = true ∧ cp ≠ 32%N ∧ unicode_L cp = false ∧ unicode_N cp = false.
Proof.
  intros Hcp. rewrite L_ascii, N_ascii by lia.
  assert (cp = 9 ∨ cp = 10 ∨ cp = 11 ∨ cp = 12 ∨ cp = 13)%N as Hcases by lia.
  destruct Hcases as [->|[->|[->|[->| ->]]]]; by repeat split.
Qed.

(** On ASCII text the slug is the one the ASCII tables give. *)
Lemma generateTagID_ascii (title : text) :
  Forall isASCII title →
  generateTagID p title = generateTagID (unicode := asciiTables) p title.
Proof.
  intros Hascii. unfold generateTagID. do 2 f_equal.
  assert (ToLower title = ToLower (unicode := asciiTables) title) as ->.
  { unfold ToLower. apply Forall_fmap_ext.
    eapply Forall_impl; [exact Hascii|]. intros c (cp & -> & Hcp). simpl.
    by rewrite ToLower_ascii. }
  assert (Forall isASCII (ReplaceAll (ToLower (unicode := asciiTables) title) 32 45))
    as Hstage.
  { unfold ReplaceAll, ToLower. rewrite <- list_fmap_compose. apply Forall_fmap.
    eapply Forall_impl; [exact Hascii|]. intros c (cp & -> & Hcp). simpl.
    destruct (asciiToLower cp =? 32)%N; [by exists 45%N|].
    exists (asciiToLower cp). split; [done|]. unfold asciiToLower.
    destruct ((65 <=? cp) && (cp <=? 90))%N eqn:Hupper; [|done].
    apply andb_true_iff in Hupper as [_ H2%N.leb_le]. lia. }
  revert Hstage.
  generalize (ReplaceAll (ToLower (unicode := asciiTables) title) 32 45).
  intros s Hstage.
  induction Hstage as [|c s (cp & -> & Hcp) Hs IH]; [done|].
  assert (slugChar (unicode := unicode) (Rune cp)
          = slugChar (unicode := asciiTables) (Rune cp)) as Heq.
  { unfold slugChar. cbn [codepoint].
    by rewrite (L_ascii (U := unicode) cp Hcp), (N_ascii (U := unicode) cp Hcp). }
  rewrite !filter_cons, IH.
  destruct (decide (slugChar (unicode := unicode) (Rune cp) = true)) as [H1|H1],
           (decide (slugChar (unicode := asciiTables) (Rune cp) = true)) as [H2|H2];
    try done; congruence.
Qed.

(** C8, as the code has it.  Slug derivation is idempotent and does not
    tell the case of letters, spaces around the text, or a space from a
    run of spaces: the title is lowercased, every space (U+0020) becomes a
    hyphen, characters other than letters, digits and hyphens are
    stripped, runs of hyphens collapse to one, and leading and trailing
    hyphens are trimmed.  White space other than the space is among the
    stripped characters and leaves no hyphen, the control characters (tab
    to carriage return) under the laws of the tables alone, and all that
    [unicode.IsSpace] knows when the tables class white space as neither
    letter nor digit: the slug is that of the title without the
    character, where what stands before and behind it reads the same
    once joined (bytes on the two sides that make up one code point when
    they meet are another title).  The slug of a title with a doubled space and
    spaces around is the slug of its normalized form. *)
Theorem slug_idempotent_and_insensitive (title a b : text) :
  generateTagID p (generateTagID p title) = generateTagID p title
  ∧ generateTagID p (ToLower title) = generateTagID p title
  ∧ (∀ other, ToLower title = ToLower other →
       generateTagID p title = generateTagID p other)
  ∧ generateTagID p (T " " ++ title) = generateTagID p title
  ∧ generateTagID p (title ++ T " ") = generateTagID p title
  ∧ generateTagID p (a ++ T "  " ++ b) = generateTagID p (a ++ T " " ++ b)
  ∧ (∀ cp, (9 ≤ cp ≤ 13)%N →
       plus a b = a ++ b →
       generateTagID p (a ++ Rune cp :: b) = generateTagID p (plus a b))
  ∧ (SpaceLaws unicode →
     ∀ cp, isSpace (Rune cp) = true → cp ≠ 32%N →
       plus a b = a ++ b →
       generateTagID p (a ++ Rune cp :: b) = generateTagID p (plus a b))
  ∧ generateTagID p (T " Hexagonal  Architecture ") = T "hexagonal-architecture"
  ∧ generateTagID p (T "hexagonal-architecture") = T "hexagonal-architecture".
Proof.
  split; [apply generateTagID_idempotent|].
  split; [apply generateTagID_case|].
  split.
  { intros other Hother. rewrite !generateTagID_stage. unfold slugStage. by rewrite Hother. }
  split; [apply generateTagID_leading_space|].
  split; [apply generateTagID_trailing_space|].
  split; [apply generateTagID_repeated_space|].
  split.
  { intros cp (Hspace & Hcp & HL & HN)%control_blank ->. by apply generateTagID_blank. }
  split.
  { intros Hlaws cp Hspace Hcp ->.
    apply generateTagID_blank; [done | done | by apply L_space | by apply N_space]. }
  split; (rewrite generateTagID_ascii; [by vm_compute | by apply isASCIIb_Forall]).
Qed.

End Slug.

(** A tab between two words: the code drops it, where collapsing white
    space to a hyphen keeps the words apart. *)
Lemma tab_leaves_no_hyphen :
  generateTagID (unicode := asciiTables) Samples.parser
                (T "Hexagonal" ++ [Rune 9] ++ T "Architecture")
  = T "hexagonalarchitecture"
  ∧ normalizedForm (unicode := asciiTables) (T "Hexagonal" ++ [Rune 9] ++ T "Architecture")
    = T "hexagonal-architecture"
  ∧ generateTagID (unicode := asciiTables) Samples.parser
                  (T "Hexagonal" ++ [Rune 9] ++ T "Architecture")
    ≠ generateTagID (unicode := asciiTables) Samples.parser
        (normalizedForm (unicode := asciiTables)
                        (T "Hexagonal" ++ [Rune 9] ++ T "Architecture")).
Proof. vm_compute. repeat split; try reflexivity. intros [=]. Qed.

Lemma slug_idempotent_and_insensitive_witness :
  generateTagID (unicode := asciiTables) Samples.parser
    (generateTagID (unicode := asciiTables) Samples.parser (T "Ports & Adapters"))
  = generateTagID (unicode := asciiTables) Samples.parser (T "Ports & Adapters")
  ∧ generateTagID (unicode := asciiTables) Samples.parser (T " Hexagonal  Architecture ")
    = T "hexagonal-architecture"
  ∧ generateTagID (unicode := asciiTables) Samples.parser
      (T "Ports" ++ Rune 0xA0 :: T "and Adapters")
    = generateTagID (unicode := asciiTables) Samples.parser
        (plus (T "Ports") (T "and Adapters")).
Proof.
  destruct (slug_idempotent_and_insensitive (unicode := asciiTables)
              (UnicodeLaws0 := asciiTables_laws)
              Samples.parser (T "Ports & Adapters") (T "Ports") (T "and Adapters"))
    as (Hidem & _ & _ & _ & _ & _ & _ & Hblank & Hexample & _).
  split; [exact Hidem|]. split; [exact Hexample|].
  apply (Hblank asciiTables_space_laws); [reflexivity | done | by vm_compute].
Defined.

(** A tab between the two bytes of a code point: with it the bytes are
    two stray bytes, which the slug drops; without it they are a letter,
    which the slug keeps. *)
Example white_space_inside_a_code_point :
  decode [99; 97; 102; 0xC3; 9; 0xA9; 115]%N
  = T "caf" ++ [RawByte 0xC3; Rune 9; RawByte 0xA9] ++ T "s"
  ∧ plus (T "caf" ++ [RawByte 0xC3]) (RawByte 0xA9 :: T "s") = T "caf" ++ Rune 0xE9 :: T "s"
  ∧ generateTagID (unicode := Samples.latin) Samples.parser
      (T "caf" ++ [RawByte 0xC3; Rune 9; RawByte 0xA9] ++ T "s") = T "cafs"
  ∧ generateTagID (unicode := Samples.latin) Samples.parser
      (plus (T "caf" ++ [RawByte 0xC3]) (RawByte 0xA9 :: T "s"))
    = T "caf" ++ Rune 0xE9 :: T "s".
Proof. by vm_compute. Qed.

End SlugFacts.

(** ** Fetching a section *)

Module SectionFacts.
Import GoString Book Spec TextFacts.

Lemma unlines_cons (line : text) (lines : list text) :
  unlines (line :: lines) = line ++ T "
" ++ unlines lines.
Proof. unfold unlines. by rewrite bind_cons, <- app_assoc. Qed.

Lemma unlines_nil_inv (lines : list text) : unlines lines = [] → lines = [].
Proof.
  destruct lines as [|line lines]; [done|].
  rewrite unlines_cons. by destruct line.
Qed.

(** A heading line starts with its mark. *)
Lemma headerMatch_mark (line headerText : text) :
  headerMatch line = Some headerText → ∃ rest, line = Rune 35 :: rest.
Proof.
  unfold headerMatch. destruct line as [|c rest]; [done|]. simpl.
  destruct (isChar 35 c) eqn:Hc; [|done].
  apply SlugFacts.isChar_eq in Hc as ->. by exists rest.
Qed.

Lemma trimRight_keep_head (c : gochar) (s : text) :
  isSpace c = false → ∃ t, trimRight isSpace (c :: s) = c :: t.
Proof.
  intros Hc. change (c :: s) with ([c] ++ s).
  destruct (forallb isSpace s) eqn:Hs.
  - rewrite trimRight_app_all by done. exists [].
    unfold trimRight. simpl. by rewrite Hc.
  - rewrite trimRight_app_keep by done. by eexists.
Qed.

(** What [strings.TrimSpace] leaves of a heading line and the text after
    it starts with the heading line, less the white space it may end in,
    and is not empty. *)
Lemma TrimSpace_heading (line headerText more : text) :
  headerMatch line = Some headerText →
  trimRight isSpace line `prefix_of` TrimSpace (line ++ more)
  ∧ TrimSpace (line ++ more) ≠ [].
Proof.
  intros (rest & ->)%headerMatch_mark.
  assert (TrimSpace ((Rune 35 :: rest) ++ more) = trimRight isSpace ((Rune 35 :: rest) ++ more))
    as -> by done.
  split.
  - destruct (forallb isSpace more) eqn:Hmore.
    + by rewrite trimRight_app_all.
    + rewrite trimRight_app_keep by done.
      etrans; [apply trimRight_prefix | by apply prefix_app_r].
  - rewrite <- app_comm_cons.
    destruct (trimRight_keep_head (Rune 35) (rest ++ more)) as [t ->]; done.
Qed.

Section Sections.
Context {unicode : Unicode} {os : OS} {json : JSON} {sort : Sort}.

(** The loop once the section has started: it takes lines up to the
    next heading of another slug. *)
Lemma sectionLoop_inside (p : Parser) (tag : text) (lines : list text) (written : text) :
  sectionLoop p tag lines true written
  = written ++ unlines (takeWhile (λ line, negb (otherHeading p tag line)) lines).
Proof.
  revert written. induction lines as [|line lines IH]; intros written.
  - simpl. by rewrite app_nil_r.
  - cbn [sectionLoop takeWhile]. unfold otherHeading at 1.
    destruct (headerMatch line) as [headerText|].
    + destruct (bool_decide (generateTagID p headerText = tag)); cbn [negb].
      * rewrite IH, unlines_cons. by rewrite <- !app_assoc.
      * by rewrite app_nil_r.
    + cbn [negb]. by rewrite IH, unlines_cons, <- !app_assoc.
Qed.

(** The loop before the section has started: it skips lines up to the
    first heading of the slug. *)
Lemma sectionLoop_outside (p : Parser) (tag : text) (lines : list text) :
  sectionLoop p tag lines false [] = unlines (sectionLines p tag lines).
Proof.
  unfold sectionLines. induction lines as [|line lines IH]; [done|].
  cbn [sectionLoop dropWhile]. unfold headingOf at 1.
  destruct (headerMatch line) as [headerText|]; cbn [negb]; [|exact IH].
  destruct (bool_decide (generateTagID p headerText = tag)); cbn [negb]; [|exact IH].
  rewrite sectionLoop_inside, unlines_cons. by rewrite app_nil_l, <- app_assoc.
Qed.

Lemma GetSection_lines (p : Parser) (chapterID sectionTagID locale : text)
    (chapter : Chapter) :
  GetChapter p chapterID locale = Ok chapter →
  GetSection p chapterID sectionTagID locale
  = match sectionLines p sectionTagID (Split (Chapter_Content chapter) (T "
")) with
    | [] => Err (ErrSectionNotFound sectionTagID)
    | lines => Ok (TrimSpace (unlines lines))
    end.
Proof.
  intros Hchapter. unfold GetSection. rewrite Hchapter, sectionLoop_outside.
  destruct (sectionLines _ _ _) as [|line lines] eqn:Hlines; [done|].
  destruct (Nat.eqb_spec (len (unlines (line :: lines))) 0) as [Hzero|]; [|done].
  by apply len_zero, unlines_nil_inv in Hzero.
Qed.

Lemma dropWhile_found {A} (f : A → bool) (l : list A) (x : A) :
  x ∈ l → f x = false → ∃ y rest, dropWhile f l = y :: rest ∧ f y = false.
Proof.
  induction l as [|z l IH]; simpl; [by intros ?%elem_of_nil|].
  intros [Heq|Hin]%elem_of_cons Hx.
  - subst z. rewrite Hx. by exists x, l.
  - destruct (f z) eqn:Hz; [by apply IH | by exists z, l].
Qed.

Lemma dropWhile_none {A} (f : A → bool) (l : list A) :
  Forall (λ x, f x = true) l → dropWhile f l = [].
Proof. induction 1 as [|x l Hx _ IH]; simpl; [done|]. by rewrite Hx. Qed.

(** C6, as the code has it.  For a chapter that is found, fetching the
    section [tag] fails with the section-not-found error exactly when no
    heading line of the chapter has that slug.  Otherwise it returns,
    trimmed of surrounding white space, the lines from the first heading
    whose slug is [tag] up to, and without, the next heading of another
    slug (a later heading of the same slug and the lines under it belong
    to the block).  The block is not empty and starts with that first
    heading's own line (less the white space the line may end in).  So
    for every heading of the chapter, fetching the section of its slug
    returns such a block. *)
Theorem get_section_block (p : Parser) (chapterID tag locale : text) (chapter : Chapter) :
  GetChapter p chapterID locale = Ok chapter →
  (Forall (λ line, headingOf p tag line = false)
          (Split (Chapter_Content chapter) (T "
")) →
   GetSection p chapterID tag locale = Err (ErrSectionNotFound tag))
  ∧ (∀ before heading after,
       Split (Chapter_Content chapter) (T "
") = before ++ heading :: after →
       Forall (λ line, headingOf p tag line = false) before →
       headingOf p tag heading = true →
       ∃ block,
         GetSection p chapterID tag locale = Ok block
         ∧ block = TrimSpace (unlines
                     (heading :: takeWhile (λ line, negb (otherHeading p tag line)) after))
         ∧ block ≠ []
         ∧ trimRight isSpace heading `prefix_of` block)
  ∧ (∀ line title,
       line ∈ Split (Chapter_Content chapter) (T "
") →
       headerMatch line = Some title →
       ∃ block,
         GetSection p chapterID (generateTagID p title) locale = Ok block ∧ block ≠ []).
Proof.
  intros Hchapter. split; [|split].
  - intros Hnone. rewrite (GetSection_lines _ _ _ _ _ Hchapter). unfold sectionLines.
    rewrite dropWhile_none; [done|].
    eapply Forall_impl; [exact Hnone|]. by intros line ->.
  - intros before heading after Hlines Hbefore Hheading.
    rewrite (GetSection_lines _ _ _ _ _ Hchapter). unfold sectionLines.
    rewrite Hlines, dropWhile_app_all; cycle 1.
    { apply forallb_intro. eapply Forall_impl; [exact Hbefore|]. by intros line ->. }
    cbn [dropWhile]. rewrite Hheading. cbn [negb].
    eexists. split; [reflexivity|]. split; [reflexivity|].
    rewrite unlines_cons.
    unfold headingOf in Hheading.
    destruct (headerMatch heading) as [headerText|] eqn:Hmatch; [|done].
    destruct (TrimSpace_heading heading headerText
                (T "
" ++ unlines (takeWhile (λ line, negb (otherHeading p tag line)) after)) Hmatch)
      as [Hprefix Hne].
    by split.
  - intros line title Hin Hmatch.
    rewrite (GetSection_lines _ _ _ _ _ Hchapter). unfold sectionLines.
    destruct (dropWhile_found (λ l, negb (headingOf p (generateTagID p title) l))
                (Split (Chapter_Content chapter) (T "
")) line Hin) as (heading & rest & -> & Hheading).
    { unfold headingOf. rewrite Hmatch. by rewrite bool_decide_eq_true_2. }
    eexists. split; [reflexivity|].
    rewrite unlines_cons. apply negb_false_iff in Hheading.
    unfold headingOf in Hheading.
    destruct (headerMatch heading) as [headerText|] eqn:Hm; [|done].
    by destruct (TrimSpace_heading heading headerText
      (T "
" ++ unlines (takeWhile (λ l, negb (otherHeading p (generateTagID p title) l)) rest)) Hm).
Qed.

End Sections.

(** Two headings of the slug [ports]: the second heading line and the
    text under it come back with the first, where a block that ends at
    the next heading of any level would stop before it. *)
Lemma same_slug_heading_stays_in_block :
  GetSection (unicode := asciiTables) (os := Samples.memOS Samples.twiceBook)
             (json := Samples.emptyArrayOnly) (sort := Samples.mergeSort)
             Samples.parser (T "twice") (T "ports") (T "en")
  = Ok (T "# Ports
first
## Ports
second")
  ∧ match GetChapter (os := Samples.memOS Samples.twiceBook)
                     (json := Samples.emptyArrayOnly) (sort := Samples.mergeSort)
                     Samples.parser (T "twice") (T "en") with
    | Ok chapter =>
        TrimSpace (unlines (linesToNextHeading (unicode := asciiTables) Samples.parser
                              (T "ports") (Split (Chapter_Content chapter) (T "
"))))
        = T "# Ports
first"
    | Err _ => False
    end.
Proof. vm_compute. split; reflexivity. Qed.

Lemma get_section_block_witness :
  ∃ chapter block,
    GetChapter (os := Samples.memOS Samples.book)
               (json := Samples.emptyArrayOnly) (sort := Samples.mergeSort)
               Samples.parser (T "hexagonal") (T "es") = Ok chapter
    ∧ GetSection (unicode := asciiTables) (os := Samples.memOS Samples.book)
                 (json := Samples.emptyArrayOnly) (sort := Samples.mergeSort)
                 Samples.parser (T "hexagonal")
                 (generateTagID (unicode := asciiTables) Samples.parser (T "Adapters"))
                 (T "es") = Ok block
    ∧ block ≠ [].
Proof.
  eexists.
  match goal with
  | |- ∃ block, ?G = Ok ?chapter ∧ _ =>
      assert (G = Ok chapter) as Hchapter by (vm_compute; reflexivity)
  end.
  destruct (get_section_block (unicode := asciiTables) (os := Samples.memOS Samples.book)
              (json := Samples.emptyArrayOnly) (sort := Samples.mergeSort)
              Samples.parser (T "hexagonal") (T "adapters") (T "es") _ Hchapter)
    as (_ & _ & Hevery).
  destruct (Hevery (T "## Adapters") (T "Adapters")) as (block & Hblock & Hne).
  - apply list_elem_of_lookup. exists 6. by vm_compute.
  - by vm_compute.
  - exists block. split; [exact Hchapter|]. split; [exact Hblock | exact Hne].
Defined.

End SectionFacts.

(** ** The chunker *)

Module ChunkFacts.
Import GoString Embeddings Main Spec TextFacts.

Lemma join_snoc (sep : text) (held : list text) (p : text) :
  held ≠ [] → join sep (held ++ [p]) = join sep held ++ sep ++ p.
Proof.
  induction held as [|x held IH]; [done|]. intros _.
  destruct held as [|y held]; [done|].
  change (join sep ((x :: y :: held) ++ [p]))
    with (x ++ sep ++ join sep ((y :: held) ++ [p])).
  rewrite IH by done.
  change (join sep (x :: y :: held)) with (x ++ sep ++ join sep (y :: held)).
  by rewrite <- !app_assoc.
Qed.

Lemma join_first (sep first : text) (others : list text) :
  first ≠ [] → join sep (first :: others) ≠ [].
Proof. intros Hfirst. destruct others; simpl; by destruct first. Qed.

Lemma held_nil (held : list text) :
  (∀ first others, held = first :: others → first ≠ []) →
  join paragraphBreak held = [] → held = [].
Proof.
  intros Hfirst Hjoin. destruct held as [|first others]; [done|].
  by apply join_first in Hjoin; [|eapply Hfirst].
Qed.

(** A buffer that starts anew with the paragraph [p]. *)
Lemma buffered_restart (maxLen : nat) (paragraphs done : list text)
    (chunks : list text) (p : text) :
  Forall (wholeParagraphs maxLen paragraphs) chunks →
  buffered maxLen paragraphs (done ++ [p]) (chunks, p).
Proof.
  intros Hchunks. split; [done|]. simpl.
  destruct p as [|c p'] eqn:Hp.
  - exists (done ++ [[]]), []. rewrite app_nil_r. repeat split; try done.
    intros init final Hnil. by destruct init.
  - exists done, [c :: p']. repeat split; try done.
    + by intros first others [= <- _].
    + intros init final Hsingle Hinit.
      destruct init as [|x init]; [done|].
      destruct init; discriminate.
Qed.

Lemma addParagraph_buffered (maxLen : nat) (paragraphs done rest : list text)
    (st : list text * text) (p : text) :
  paragraphs = done ++ p :: rest →
  buffered maxLen paragraphs done st →
  buffered maxLen paragraphs (done ++ [p]) (addParagraph maxLen st p).
Proof.
  intros Hall [Hchunks (before & held & Hdone & Hcurrent & Hfirst & Hlimit)].
  destruct st as [chunks current]. simpl in *. subst current.
  unfold addParagraph.
  destruct (bool_decide_reflect (join paragraphBreak held = [])) as [Hempty|Hfull].
  - rewrite andb_false_r. cbn [negb].
    rewrite Hempty, app_nil_l. by apply buffered_restart.
  - rewrite andb_true_r. cbn [negb].
    assert (held ≠ []) as Hheld by (by intros ->).
    destruct (Nat.ltb_spec maxLen (len (join paragraphBreak held) + len p)) as [Hover|Hfits].
    + apply buffered_restart. apply Forall_app. split; [done|].
      constructor; [|done].
      exists before, held, (p :: rest). repeat split; try done.
      by rewrite Hall, Hdone, <- app_assoc.
    + split; [done|]. simpl.
      exists before, (held ++ [p]). repeat split.
      * by rewrite Hdone, <- app_assoc.
      * by rewrite join_snoc, <- app_assoc.
      * intros first others Hcons. destruct held as [|x held']; [done|].
        injection Hcons as <- _. by eapply Hfirst.
      * intros init final [<- <-]%app_inj_tail _. exact Hfits.
Qed.

Lemma foldl_buffered (maxLen : nat) (paragraphs rest done : list text)
    (st : list text * text) :
  paragraphs = done ++ rest →
  buffered maxLen paragraphs done st →
  buffered maxLen paragraphs paragraphs (foldl (addParagraph maxLen) st rest).
Proof.
  revert done st. induction rest as [|p rest IH]; intros done st Hall Hst.
  - rewrite app_nil_r in Hall. by subst done.
  - simpl. apply (IH (done ++ [p])).
    + by rewrite <- app_assoc.
    + by eapply addParagraph_buffered.
Qed.

Lemma truncateContent_len (content : text) (maxLen : nat) :
  (len content ≤ maxLen → truncateContent content maxLen = content)
  ∧ (maxLen < len content →
       bytes (truncateContent content maxLen)
       = take maxLen (bytes content) ++ bytes (T "...")
       ∧ len (truncateContent content maxLen) = maxLen + 3)
  ∧ len (truncateContent content maxLen) ≤ maxLen + 3.
Proof.
  unfold truncateContent.
  destruct (Nat.leb_spec (len content) maxLen) as [Hfits|Hlong].
  - split; [done|]. split; [intros; lia | lia].
  - assert (len (sliceTo maxLen content ++ T "...") = maxLen + 3) as Hlen.
    { rewrite len_app, len_sliceTo by lia. reflexivity. }
    split; [intros; lia|]. split; [|lia].
    intros _. split; [|exact Hlen].
    unfold bytes at 1. rewrite bind_app.
    fold (bytes (sliceTo maxLen content)). by rewrite bytes_sliceTo.
Qed.

(** A section of one paragraph of 1001 bytes: one chunk of 1001 bytes,
    and not the introduction. *)
Lemma long_paragraph_is_one_chunk :
  match (splitIntoChunks (T "## Long
" ++ replicate 1001 (Rune 97)) (T "ch") (T "Chapter") (T "es") 0).1 with
  | [c] =>
      Chunk_Section c = T "Long"
      ∧ Chunk_Section c ≠ T "Introduction"
      ∧ len (Chunk_Content c) = 1001
      ∧ ¬ len (Chunk_Content c) ≤ 1000
  | _ => False
  end.
Proof.
  vm_compute. split; [reflexivity|]. split; [intros [=]|]. split; [reflexivity|].
  intros H. by apply (Nat.leb_le 1001 1000) in H.
Qed.

(** Three paragraphs of 400, 500 and 300 bytes come out as two parts:
    the first two paragraphs, which passed the check, and the third. *)
Example paragraphs_are_kept_whole :
  match (splitIntoChunks (T "## Parts
" ++ replicate 400 (Rune 97) ++ T "

" ++ replicate 500 (Rune 98) ++ T "

" ++ replicate 300 (Rune 99)) (T "ch") (T "Chapter") (T "es") 0).1 with
  | [c1; c2] =>
      Chunk_Section c1 = T "Parts (part 1)"
      ∧ Chunk_Section c2 = T "Parts (part 2)"
      ∧ Chunk_Content c2 = replicate 300 (Rune 99)
      ∧ Chunk_ID c1 = T "chunk_1"
      ∧ Chunk_ID c2 = T "chunk_2"
  | _ => False
  end.
Proof. vm_compute. repeat split; reflexivity. Qed.

(** *** The identifiers *)

Lemma nextIDs_app (idCounter : Z) (n m : nat) :
  nextIDs idCounter (n + m) = nextIDs idCounter n ++ nextIDs (advance idCounter n) m.
Proof.
  revert idCounter. induction n as [|n IH]; intros idCounter; [done|].
  simpl. by rewrite IH.
Qed.

Lemma advance_add (idCounter : Z) (n m : nat) :
  advance idCounter (n + m) = advance (advance idCounter n) m.
Proof.
  revert idCounter. induction n as [|n IH]; intros idCounter; [done|].
  simpl. by rewrite IH.
Qed.

Lemma numbered_nil (idCounter : Z) : numbered idCounter ([], idCounter).
Proof. done. Qed.

Lemma numbered_app (idCounter : Z) (chunks more : list Chunk) (mid last : Z) :
  numbered idCounter (chunks, mid) →
  numbered mid (more, last) →
  numbered idCounter (chunks ++ more, last).
Proof.
  unfold numbered. simpl. intros [Hids ->] [Hmore ->].
  rewrite length_app, fmap_app, nextIDs_app, fmap_app, advance_add.
  by rewrite Hids, Hmore.
Qed.

Lemma sectionChunks_numbered (chapterID chapterName locale sectionName : text)
    (several : bool) (j : nat) (contentChunks : list text) (idCounter : Z) :
  numbered idCounter
    (sectionChunks chapterID chapterName locale sectionName several j
                   contentChunks idCounter).
Proof.
  revert j idCounter.
  induction contentChunks as [|c contentChunks IH]; intros j idCounter; [done|].
  cbn [sectionChunks]. specialize (IH (S j) (wrapInt (idCounter + 1))).
  destruct (sectionChunks _ _ _ _ _ (S j) _ _) as [chunks counter].
  destruct IH as [Hids Hcounter]. unfold numbered in *.
  cbn [fst snd length nextIDs advance] in *.
  split; [|done]. rewrite !fmap_cons. cbn [Chunk_ID]. by rewrite Hids.
Qed.

Lemma headerChunks_numbered (chapterID chapterName locale : text) (sections : list text)
    (i : nat) (headers : list text) (idCounter : Z) :
  numbered idCounter
    (headerChunks chapterID chapterName locale sections i headers idCounter).
Proof.
  revert i idCounter. induction headers as [|header headers IH]; intros i idCounter; [done|].
  cbn [headerChunks].
  destruct (bool_decide _); [apply IH|].
  pose proof (sectionChunks_numbered chapterID chapterName locale header
    (1 <? length (splitLongContent
       (if i + 1 <? length sections then TrimSpace (default [] (sections !! (i + 1))) else [])
       1000)) 0
    (splitLongContent
       (if i + 1 <? length sections then TrimSpace (default [] (sections !! (i + 1))) else [])
       1000) idCounter) as Hsection.
  destruct (sectionChunks _ _ _ _ _ _ _ _) as [chunks counter].
  specialize (IH (S i) counter).
  destruct (headerChunks _ _ _ _ _ _ _) as [more counter'].
  by eapply numbered_app.
Qed.

(** Every chunk of a document takes the next value of the counter. *)
Lemma splitIntoChunks_numbered (content chapterID chapterName locale : text)
    (idCounter : Z) :
  numbered idCounter (splitIntoChunks content chapterID chapterName locale idCounter).
Proof.
  unfold splitIntoChunks.
  destruct (splitHeaders true 0 content) as [sections headers].
  destruct ((0 <? length sections)
            && negb (bool_decide (TrimSpace (default [] (sections !! 0)) = []))).
  - pose proof (headerChunks_numbered chapterID chapterName locale sections 0 headers
                  (wrapInt (idCounter + 1))) as Hmore.
    destruct (headerChunks _ _ _ _ _ _ _) as [more counter].
    eapply numbered_app; [|exact Hmore]. by split.
  - pose proof (headerChunks_numbered chapterID chapterName locale sections 0 headers
                  idCounter) as Hmore.
    destruct (headerChunks _ _ _ _ _ _ _) as [more counter].
    eapply numbered_app; [apply numbered_nil | exact Hmore].
Qed.

Lemma wrapInt_id (z : Z) : (- 2 ^ 63 ≤ z < 2 ^ 63)%Z → wrapInt z = z.
Proof. intros Hz. unfold wrapInt. rewrite Z.mod_small; lia. Qed.

(** Below 2^63 the counter counts. *)
Lemma nextIDs_count (idCounter : Z) (n : nat) :
  (0 ≤ idCounter)%Z → (idCounter + Z.of_nat n < 2 ^ 63)%Z →
  nextIDs idCounter n = (λ k, idCounter + Z.of_nat k)%Z <$> seq 1 n.
Proof.
  revert idCounter. induction n as [|n IH]; intros idCounter Hlow Hhigh; [done|].
  cbn [nextIDs seq fmap list_fmap]. rewrite wrapInt_id by lia.
  rewrite IH by lia. f_equal.
  rewrite <- (fmap_S_seq 1), <- list_fmap_compose.
  apply list_fmap_ext. intros i k _. simpl. lia.
Qed.

(** [%d] prints different numbers differently. *)
Lemma formatInt_inj (a b : Z) : formatInt a = formatInt b → a = b.
Proof.
  unfold formatInt, T. intros Heq.
  assert (Inj (=) (=) (λ a, Rune (Ascii.N_of_ascii a))) as Hinj.
  { intros x y [= Hxy]. by rewrite <- (Ascii.ascii_N_embedding x), Hxy, Ascii.ascii_N_embedding. }
  apply (inj (fmap (λ a, Rune (Ascii.N_of_ascii a)))) in Heq.
  assert (NilZero.string_of_int (Z.to_int a) = NilZero.string_of_int (Z.to_int b)) as Hs.
  { rewrite <- (String.string_of_list_ascii_of_string (NilZero.string_of_int (Z.to_int a))),
            <- (String.string_of_list_ascii_of_string (NilZero.string_of_int (Z.to_int b))).
    by rewrite Heq. }
  assert (∀ z, NilZero.int_of_string (NilZero.string_of_int (Z.to_int z)) = Some (Z.to_int z))
    as Hround.
  { intros z. apply NilZero.isi; destruct z; simpl; try done;
      intros [= H]; by apply DecimalPos.Unsigned.to_uint_nonnil in H. }
  apply (f_equal NilZero.int_of_string) in Hs. rewrite !Hround in Hs.
  injection Hs as Hs. by rewrite <- (DecimalZ.of_to a), <- (DecimalZ.of_to b), Hs.
Qed.

Lemma chunkID_inj (a b : Z) : chunkID a = chunkID b → a = b.
Proof. unfold chunkID. intros Heq%app_inv_head. by apply formatInt_inj. Qed.

Section Build.
Context {os : Book.OS} {json : Book.JSON} {sort : Book.Sort}.

Lemma chapterChunks_numbered (locale : text) (chapters : list Book.Chapter)
    (idCounter : Z) (st : list Chunk * Z) :
  numbered idCounter st →
  numbered idCounter (foldl (chapterChunks locale) st chapters).
Proof.
  revert st. induction chapters as [|chapter chapters IH]; intros st Hst; [done|].
  simpl. apply IH. destruct st as [allChunks counter]. unfold chapterChunks.
  pose proof (splitIntoChunks_numbered (Book.Chapter_Content chapter)
    (Book.Chapter_ID chapter) (Book.Chapter_Name chapter) locale counter) as Hchapter.
  destruct (splitIntoChunks _ _ _ _ _) as [chunks counter'].
  by eapply numbered_app.
Qed.

Lemma localeChunks_numbered (parser : Book.Parser) (locales : list text)
    (idCounter : Z) (st st' : list Chunk * Z) :
  numbered idCounter st →
  localeChunks parser locales st = Ok st' →
  numbered idCounter st'.
Proof.
  revert st. induction locales as [|locale locales IH]; intros st Hst; simpl.
  - by intros [= <-].
  - destruct (Book.ListChapters parser locale) as [chapters|err]; [|done].
    apply IH. by apply chapterChunks_numbered.
Qed.

(** C3, as the code has it.  The chunk identifiers of one index build
    come from one counter shared by all documents and locales of the
    build, which starts at 0 in every build: as long as the build makes
    fewer than 2^63 chunks, its k-th chunk is [chunk_k], so that within
    the build every identifier's number is the previous one plus one and
    no two chunks share an identifier. *)
Theorem build_numbers_chunks_from_one (parser : Book.Parser) (localeParam : text)
    (allChunks : list Chunk) :
  buildChunks parser localeParam = Ok allChunks →
  (Z.of_nat (length allChunks) < 2 ^ 63)%Z →
  Chunk_ID <$> allChunks = (λ k, chunkID (Z.of_nat k)) <$> seq 1 (length allChunks)
  ∧ NoDup (Chunk_ID <$> allChunks).
Proof.
  unfold buildChunks. intros Hbuild Hfew.
  destruct (localeChunks parser _ ([], 0%Z)) as [[chunks counter]|r] eqn:Hloop; [|done].
  injection Hbuild as ->.
  apply (localeChunks_numbered _ _ 0%Z) in Hloop as [Hids _]; [|done].
  simpl in Hids. rewrite nextIDs_count in Hids by lia.
  rewrite <- list_fmap_compose in Hids.
  assert (Chunk_ID <$> allChunks = (λ k, chunkID (Z.of_nat k)) <$> seq 1 (length allChunks))
    as Hnumbers.
  { rewrite Hids. apply list_fmap_ext. intros i k _. simpl. f_equal. }
  split; [exact Hnumbers|].
  rewrite Hnumbers. apply NoDup_fmap_2; [|apply NoDup_seq].
  intros a b Hab%chunkID_inj. lia.
Qed.

End Build.

(** Two builds of the same locale in one process: the second one numbers
    its chunks from 1 again, and the store ends up with every identifier
    twice. *)
Lemma second_build_repeats_identifiers :
  match handleBuildSemanticIndex
          (os := Samples.memOS Samples.book) (json := Samples.emptyArrayOnly)
          (sort := Samples.mergeSort) Samples.parser
          (Some (NewSemanticEngine [Some Samples.unitVector; Some Samples.unitVector]))
          (T "es") with
  | Returns (Some engine, SuccessfullyIndexed 4 1) =>
      match handleBuildSemanticIndex
              (os := Samples.memOS Samples.book) (json := Samples.emptyArrayOnly)
              (sort := Samples.mergeSort) Samples.parser (Some engine) (T "es") with
      | Returns (Some engine, SuccessfullyIndexed 4 1) =>
          Chunk_ID <$> chunks (store engine)
          = [T "chunk_1"; T "chunk_2"; T "chunk_3"; T "chunk_4";
             T "chunk_1"; T "chunk_2"; T "chunk_3"; T "chunk_4"]
          ∧ ¬ NoDup (Chunk_ID <$> chunks (store engine))
      | _ => False
      end
  | _ => False
  end.
Proof.
  vm_compute. split; [reflexivity|].
  intros Hnodup. apply NoDup_cons in Hnodup as [Hfirst _].
  apply Hfirst. do 3 apply list_elem_of_further. apply list_elem_of_here.
Qed.

Lemma build_numbers_chunks_from_one_witness :
  ∃ allChunks,
    buildChunks (os := Samples.memOS Samples.book) (json := Samples.emptyArrayOnly)
                (sort := Samples.mergeSort) Samples.parser (T "es") = Ok allChunks
    ∧ Chunk_ID <$> allChunks = [T "chunk_1"; T "chunk_2"; T "chunk_3"; T "chunk_4"]
    ∧ NoDup (Chunk_ID <$> allChunks).
Proof.
  eexists.
  match goal with
  | |- ?B = Ok ?allChunks ∧ _ =>
      assert (B = Ok allChunks) as Hbuild by (vm_compute; reflexivity)
  end.
  destruct (build_numbers_chunks_from_one
              (os := Samples.memOS Samples.book) (json := Samples.emptyArrayOnly)
              (sort := Samples.mergeSort) Samples.parser (T "es") _ Hbuild)
    as [Hids Hnodup].
  { by vm_compute. }
  split; [exact Hbuild|]. split; [|exact Hnodup].
  rewrite Hids. by vm_compute.
Defined.

End ChunkFacts.

(** ** The order and the reach of the vector search *)

Module VectorFacts.
Import GoString Embeddings Spec.

(** *** The comparison of [float64] *)

Lemma SFltb_trans (x y z : spec_float) :
  SFltb x y = true → SFltb y z = true → SFltb x z = true.
Proof.
  unfold SFltb, SFcompare.
  destruct x as [sx|sx| |sx mx ex], y as [sy|sy| |sy my ey], z as [sz|sz| |sz mz ez];
    try destruct sx; try destruct sy; try destruct sz; try done;
    change (PosDef.Pos.compare_cont Eq) with Pos.compare;
    destruct (Z.compare_spec ex ey), (Z.compare_spec ey ez), (Z.compare_spec ex ez);
    try done; try lia; subst;
    destruct (Pos.compare_spec mx my), (Pos.compare_spec my mz), (Pos.compare_spec mx mz);
    try done; try lia.
Qed.

Lemma SFltb_irrefl (x : spec_float) : SFltb x x = false.
Proof.
  unfold SFltb, SFcompare. destruct x as [sx|sx| |sx mx ex]; try destruct sx; try done;
    change (PosDef.Pos.compare_cont Eq) with Pos.compare;
    by rewrite Z.compare_refl, Pos.compare_refl.
Qed.

Lemma ltb_trans (x y z : float) :
  (x <? y)%float = true → (y <? z)%float = true → (x <? z)%float = true.
Proof. rewrite !ltb_spec. apply SFltb_trans. Qed.

Lemma ltb_asym (x y : float) : (x <? y)%float = true → (y <? x)%float = false.
Proof.
  intros Hxy. destruct (y <? x)%float eqn:Hyx; [|done].
  pose proof (ltb_trans _ _ _ Hxy Hyx) as Hxx.
  by rewrite ltb_spec, SFltb_irrefl in Hxx.
Qed.

(** *** The exchange loops *)

Lemma foldl_seq_invariant {A} (P : nat → A → Prop) (f : A → nat → A) (a m : nat) (x : A) :
  P a x →
  (∀ k y, a ≤ k → k < a + m → P k y → P (S k) (f y k)) →
  P (a + m) (foldl f x (seq a m)).
Proof.
  revert a x. induction m as [|m IH]; intros a x Hx Hstep.
  - by rewrite Nat.add_0_r.
  - cbn [seq foldl]. replace (a + S m) with (S a + m) by lia.
    apply IH; [apply Hstep; [lia|lia|done]|].
    intros k y Hlo Hhi. apply Hstep; lia.
Qed.

Lemma exchange_keep (i j : nat) (results : list scored) (ri rj : scored) :
  results !! i = Some ri → results !! j = Some rj →
  (score ri <? score rj)%float = false →
  exchange i j results = results.
Proof. intros Hi Hj Hlt. unfold exchange. by rewrite Hi, Hj, Hlt. Qed.

Lemma exchange_swap (i j : nat) (results : list scored) (ri rj : scored) (k : nat) :
  results !! i = Some ri → results !! j = Some rj → i ≠ j →
  (score ri <? score rj)%float = true →
  exchange i j results !! k
  = if decide (k = i) then Some rj else if decide (k = j) then Some ri else results !! k.
Proof.
  intros Hi Hj Hne Hlt. unfold exchange. rewrite Hi, Hj, Hlt.
  destruct (decide (k = i)) as [->|Hki].
  - apply list_lookup_insert_eq. rewrite length_insert. by eapply lookup_lt_Some.
  - rewrite list_lookup_insert_ne by done.
    destruct (decide (k = j)) as [->|Hkj].
    + apply list_lookup_insert_eq. by eapply lookup_lt_Some.
    + by rewrite list_lookup_insert_ne.
Qed.

(** One step of the inner loop. *)
Lemma exchange_step (i j : nat) (results : list scored) :
  i < j → j < length results →
  settled i results → leads i j results →
  settled i (exchange i j results) ∧ leads i (S j) (exchange i j results).
Proof.
  intros Hij Hj Hsettled Hleads.
  destruct (lookup_lt_is_Some_2 results i) as [ri Hi]; [lia|].
  destruct (lookup_lt_is_Some_2 results j) as [rj Hrj]; [lia|].
  destruct (score ri <? score rj)%float eqn:Hlt.
  - assert (∀ k, exchange i j results !! k
              = if decide (k = i) then Some rj
                else if decide (k = j) then Some ri else results !! k) as Hswap.
    { intros k. apply exchange_swap; [done|done|lia|done]. }
    split.
    + intros p q rp rq Hp Hpq. rewrite !Hswap.
      destruct (decide (p = i)); [lia|]. destruct (decide (p = j)); [lia|].
      intros Hrp. destruct (decide (q = i)) as [->|].
      { intros [= <-]. eapply (Hsettled p j); [done|lia|done|done]. }
      destruct (decide (q = j)) as [->|].
      { intros [= <-]. eapply (Hsettled p i); [done|lia|done|done]. }
      intros Hrq. by eapply (Hsettled p q).
    + intros q r rq Hiq Hqj. rewrite !Hswap. rewrite decide_True by done.
      destruct (decide (q = i)); [lia|]. intros [= <-].
      destruct (decide (q = j)) as [->|].
      { intros [= <-]. by apply ltb_asym. }
      intros Hrq. unfold notBelow.
      destruct (score rj <? score rq)%float eqn:Hjq; [|done].
      pose proof (ltb_trans _ _ _ Hlt Hjq) as Hiq'.
      assert (notBelow ri rq) as Hnot by (eapply (Hleads q); [done|lia|done|done]).
      unfold notBelow in Hnot. congruence.
  - rewrite (exchange_keep i j results ri rj) by done. split; [done|].
    intros q r rq Hiq Hqj Hr Hrq.
    destruct (decide (q = j)) as [->|].
    + by simplify_eq.
    + eapply (Hleads q); [done|lia|done|done].
Qed.

(** The inner loop for one [i]. *)
Lemma exchanges_settle (i n : nat) (results : list scored) :
  length results = n → i < n → settled i results →
  let after := foldl (λ results j, exchange i j results) results (seq (i + 1) (n - (i + 1))) in
  length after = n ∧ settled (S i) after.
Proof.
  intros Hlen Hi Hsettled after.
  assert (length after = n ∧ settled i after ∧ leads i (i + 1 + (n - (i + 1))) after)
    as (Hlen' & Hsettled' & Hleads').
  { apply (foldl_seq_invariant
             (λ j l, length l = n ∧ settled i l ∧ leads i j l)
             (λ results j, exchange i j results)).
    - split; [done|]. split; [done|]. intros q ri rq Hiq Hqj. lia.
    - intros j l Hlo Hhi (Hl & Hs & Hle).
      destruct (exchange_step i j l) as [Hs' Hle']; [lia|lia|done|done|].
      split; [by rewrite EngineFacts.exchange_length|done]. }
  split; [done|].
  intros p q rp rq Hp Hpq Hrp Hrq.
  destruct (decide (p = i)) as [->|].
  - eapply (Hleads' q); [lia| |done|done].
    apply lookup_lt_Some in Hrq. lia.
  - eapply (Hsettled' p q); [lia|done|done|done].
Qed.

Lemma sortDescending_settled (results : list scored) :
  settled (length results) (sortDescending results).
Proof.
  unfold sortDescending. set (n := length results).
  assert (length (foldl (λ results i,
             foldl (λ results j, exchange i j results) results (seq (i + 1) (n - (i + 1))))
           results (seq 0 n)) = n
          ∧ settled (0 + n) (foldl (λ results i,
             foldl (λ results j, exchange i j results) results (seq (i + 1) (n - (i + 1))))
           results (seq 0 n))) as [_ Hsettled].
  { apply (foldl_seq_invariant (λ i l, length l = n ∧ settled i l)
             (λ results i, foldl (λ results j, exchange i j results) results
                             (seq (i + 1) (n - (i + 1))))).
    - split; [done|]. intros p q rp rq Hp. lia.
    - intros i l _ Hhi [Hl Hs]. by apply exchanges_settle; [|lia|]. }
  exact Hsettled.
Qed.

Lemma settled_sorted (l : list scored) :
  settled (length l) l → StronglySorted notBelow l.
Proof.
  induction l as [|r l IH]; intros Hsettled; [constructor|].
  constructor.
  - apply IH. intros p q rp rq Hp Hpq Hrp Hrq.
    apply (Hsettled (S p) (S q)); simpl; [lia|lia|done|done].
  - apply Forall_forall. intros r' [q Hq]%list_elem_of_lookup_1.
    apply (Hsettled 0 (S q)); simpl; [lia|lia|done|done].
Qed.

Lemma sortDescending_sorted (results : list scored) :
  StronglySorted notBelow (sortDescending results).
Proof.
  apply settled_sorted. rewrite EngineFacts.sortDescending_length.
  apply sortDescending_settled.
Qed.

(** *** The exchange loops keep what the list holds *)

Lemma delete_insert_same {A} (l : list A) (i : nat) (x : A) :
  delete i (<[i:=x]> l) = delete i l.
Proof.
  rewrite !delete_take_drop, take_insert_ge by lia. by rewrite drop_insert_lt by lia.
Qed.

Lemma insert_Permutation {A} (l : list A) (i : nat) (x y : A) :
  l !! i = Some x → y :: l ≡ₚ x :: <[i:=y]> l.
Proof.
  intros Hi.
  assert (<[i:=y]> l !! i = Some y) as Hy.
  { apply list_lookup_insert_eq. by eapply lookup_lt_Some. }
  rewrite (delete_Permutation l i x Hi) at 1.
  rewrite (delete_Permutation (<[i:=y]> l) i y Hy), delete_insert_same.
  apply perm_swap.
Qed.

Lemma exchange_Permutation (i j : nat) (results : list scored) :
  i ≠ j → exchange i j results ≡ₚ results.
Proof.
  intros Hne. unfold exchange.
  destruct (results !! i) as [ri|] eqn:Hi; [|done].
  destruct (results !! j) as [rj|] eqn:Hj; [|done].
  destruct (_ <? _)%float; [|done].
  apply (Permutation_cons_inv (a := ri)), (Permutation_cons_inv (a := rj)).
  assert (<[j:=ri]> results !! i = Some ri) as Hi' by (by rewrite list_lookup_insert_ne).
  rewrite <- (insert_Permutation (<[j:=ri]> results) i ri rj Hi').
  by rewrite <- (insert_Permutation results j rj ri Hj).
Qed.

Lemma sortDescending_Permutation (results : list scored) :
  sortDescending results ≡ₚ results.
Proof.
  unfold sortDescending. generalize (length results) as n. intros n.
  assert (0 + n = n ∧ foldl (λ results i,
             foldl (λ results j, exchange i j results) results (seq (i + 1) (n - (i + 1))))
           results (seq 0 n) ≡ₚ results) as [_ Hperm]; [|done].
  apply (foldl_seq_invariant (λ i l, i = i ∧ l ≡ₚ results)
           (λ results i, foldl (λ results j, exchange i j results) results
                           (seq (i + 1) (n - (i + 1))))); [done|].
  intros i l _ _ [_ Hl]. split; [done|].
  assert (i + 1 + (n - (i + 1)) = i + 1 + (n - (i + 1))
          ∧ foldl (λ results j, exchange i j results) l (seq (i + 1) (n - (i + 1))) ≡ₚ results)
    as [_ Hinner]; [|done].
  apply (foldl_seq_invariant (λ j l', j = j ∧ l' ≡ₚ results)
           (λ results j, exchange i j results)); [done|].
  intros j l' Hlo _ [_ Hl']. split; [done|].
  rewrite exchange_Permutation by lia. done.
Qed.

(** *** [Search] for a [topK] that is not negative *)

Lemma Search_first (v : VectorStore) (queryEmbedding : vector) (locale : text) (k : nat) :
  VectorStore_Search v queryEmbedding locale (Z.of_nat k)
  = Returns (toSemanticResult
               <$> take k (sortDescending (Spec.scoredIn queryEmbedding locale (chunks v)))).
Proof.
  unfold VectorStore_Search. rewrite EngineFacts.Search_loop, app_nil_l.
  destruct (Z.ltb_spec (Z.of_nat k)
              (Z.of_nat (length (sortDescending
                 (Spec.scoredIn queryEmbedding locale (chunks v)))))) as [Hlt|Hge].
  - destruct (Z.ltb_spec (Z.of_nat k) 0) as [Hneg|_]; [lia|]. by rewrite Nat2Z.id.
  - by rewrite take_ge by lia.
Qed.

(** The results of the store's search come best first: no result scores
    below a result behind it.  (A score that is no number compares with
    nothing, and stays where the loops leave it.) *)
Theorem vector_search_is_ordered (v : VectorStore) (queryEmbedding : vector)
    (locale : text) (k : nat) :
  ∃ results,
    VectorStore_Search v queryEmbedding locale (Z.of_nat k) = Returns results
    ∧ StronglySorted notBelowResult results.
Proof.
  eexists. split; [apply Search_first|].
  apply (StronglySorted_fmap _ notBelow); [done|].
  apply SearchFacts.StronglySorted_take, sortDescending_sorted.
Qed.

(** What the search returns and what it leaves out are together the
    chunks of the store in the locale, each once with its score, and
    nothing left out scores above a result. *)
Theorem vector_search_returns_the_top (v : VectorStore) (queryEmbedding : vector)
    (locale : text) (k : nat) :
  ∃ results rest,
    VectorStore_Search v queryEmbedding locale (Z.of_nat k) = Returns results
    ∧ results ++ rest
      ≡ₚ toSemanticResult <$> Spec.scoredIn queryEmbedding locale (chunks v)
    ∧ Forall (λ r, Forall (notBelowResult r) rest) results.
Proof.
  exists (toSemanticResult
            <$> take k (sortDescending (Spec.scoredIn queryEmbedding locale (chunks v)))),
         (toSemanticResult
            <$> drop k (sortDescending (Spec.scoredIn queryEmbedding locale (chunks v)))).
  split; [apply Search_first|]. split.
  - by rewrite <- fmap_app, take_drop, sortDescending_Permutation.
  - apply Forall_forall. intros r Hr. apply Forall_forall. intros r' Hr'.
    eapply (StronglySorted_app_1_elem_of notBelowResult); [|exact Hr|exact Hr'].
    rewrite <- fmap_app, take_drop.
    apply (StronglySorted_fmap _ notBelow); [done|]. apply sortDescending_sorted.
Qed.

(** *** Cosine similarity *)

Lemma SFmul_comm (prec emax : Z) (x y : spec_float) : SFmul prec emax x y = SFmul prec emax y x.
Proof.
  destruct x as [sx|sx| |sx mx ex], y as [sy|sy| |sy my ey]; simpl;
    try done; try (by rewrite xorb_comm).
  by rewrite xorb_comm, Pos.mul_comm, Z.add_comm.
Qed.

Lemma mul_comm (x y : float) : (x * y = y * x)%float.
Proof. apply Prim2SF_inj. rewrite !mul_spec. apply SFmul_comm. Qed.

Lemma sums_swap (a b : vector) (dotProduct normA normB : float) :
  foldl (λ '(dotProduct, normA, normB) '(ai, bi),
           (dotProduct + ai * bi, normA + ai * ai, normB + bi * bi)%float)
        (dotProduct, normB, normA) (zip b a)
  = (let '(dotProduct, normA, normB) :=
         foldl (λ '(dotProduct, normA, normB) '(ai, bi),
                  (dotProduct + ai * bi, normA + ai * ai, normB + bi * bi)%float)
               (dotProduct, normA, normB) (zip a b) in
     (dotProduct, normB, normA)).
Proof.
  revert b dotProduct normA normB.
  induction a as [|ai a IH]; intros [|bi b] dotProduct normA normB; try done.
  cbn [zip zip_with foldl]. rewrite IH. by rewrite (mul_comm bi ai).
Qed.

(** The similarity of two vectors does not depend on their order. *)
Theorem cosineSimilarity_symmetric (a b : vector) :
  cosineSimilarity a b = cosineSimilarity b a.
Proof.
  unfold cosineSimilarity.
  rewrite (Nat.eqb_sym (length b) (length a)).
  destruct (length a =? length b); [|done]. cbn [negb].
  rewrite (sums_swap a b 0 0 0).
  destruct (foldl _ _ (zip a b)) as [[dotProduct normA] normB].
  rewrite (orb_comm (normB =? 0)%float). destruct (_ || _); [done|].
  by rewrite (mul_comm (sqrt normB)).
Qed.

(** A number that equals zero is one of the two zeros. *)
Lemma zero_cases (x : float) : (x =? 0)%float = true → x = 0%float ∨ x = (-0)%float.
Proof.
  rewrite FloatAxioms.eqb_spec. change (Prim2SF 0) with (S754_zero false).
  intros Hx. rewrite <- (SF2Prim_Prim2SF x).
  destruct (Prim2SF x) as [[]|[]| |[] m e]; try done; [by right|by left].
Qed.

Lemma sums_zero_l (l : list (float * float)) (dotProduct normB : float) :
  Forall (λ p, (p.1 =? 0)%float = true) l →
  (foldl (λ '(dotProduct, normA, normB) '(ai, bi),
            (dotProduct + ai * bi, normA + ai * ai, normB + bi * bi)%float)
         (dotProduct, 0%float, normB) l).1.2 = 0%float.
Proof.
  revert dotProduct normB. induction l as [|[ai bi] l IH]; intros dotProduct normB Hl; [done|].
  apply Forall_cons in Hl as [Hai Hl]. simpl in Hai.
  cbn [foldl].
  destruct (zero_cases ai Hai) as [-> | ->].
  - change (0 + 0 * 0)%float with 0%float. by apply IH.
  - change (0 + -0 * -0)%float with 0%float. by apply IH.
Qed.

(** A vector of zeros, of either sign ([a[i] == 0] in Go), has
    similarity 0 with every vector, the vectors of other lengths, of no
    numbers, of zeros and of numbers that are infinite or none included:
    its norm is caught before the division. *)
Theorem cosineSimilarity_zero (a b : vector) :
  Forall (λ x, (x =? 0)%float = true) a →
  cosineSimilarity a b = 0%float ∧ cosineSimilarity b a = 0%float.
Proof.
  intros Hzero.
  assert (Forall (λ p : float * float, (p.1 =? 0)%float = true) (zip a b)) as Hzip.
  { clear -Hzero. revert b. induction Hzero as [|ai a Hai _ IH]; intros [|bi b];
      try constructor; [done|apply IH]. }
  pose proof (sums_zero_l (zip a b) 0 0 Hzip) as Hnorm.
  unfold cosineSimilarity. split.
  - destruct (length a =? length b); [|done]. cbn [negb].
    destruct (foldl _ _ (zip a b)) as [[dotProduct normA] normB].
    simpl in Hnorm. by subst normA.
  - destruct (length b =? length a); [|done]. cbn [negb].
    rewrite (sums_swap a b 0 0 0).
    destruct (foldl _ _ (zip a b)) as [[dotProduct normA] normB].
    simpl in Hnorm. subst normA. by destruct (normB =? 0)%float.
Qed.

Lemma cosineSimilarity_zero_witness :
  cosineSimilarity [0; -0]%float [3; infinity]%float = 0%float
  ∧ cosineSimilarity [3; infinity]%float [0; -0]%float = 0%float.
Proof. apply cosineSimilarity_zero. by repeat constructor. Defined.

End VectorFacts.

(** ** Listing chapters, the index and the locales *)

Module ListingFacts.
Import GoString Book Spec.

Lemma byOrder_strictWeak :
  strictWeak (λ a b : Chapter, (Chapter_Order a <? Chapter_Order b)%Z).
Proof.
  split.
  - intros x y Hxy%Z.ltb_lt. apply Z.ltb_ge. lia.
  - intros x y z Hxz%Z.ltb_lt.
    destruct (Z.ltb_spec (Chapter_Order x) (Chapter_Order y)); [by left|].
    right. apply Z.ltb_lt. lia.
Qed.

Section Listing.
Context {unicode : Unicode} {os : OS} {json : JSON} {sort : Sort}.

Lemma ListChapters_loop (p : Parser) (locale : text) (entries : list DirEntry)
    (chapters : list Chapter) :
  foldl (λ chapters entry,
           if Entry_IsDir entry || negb (HasSuffix (Entry_Name entry) (T ".mdx"))
           then chapters
           else match ParseChapter p (filepath_Join (filepath_Join (bookPath p) locale)
                                                    (Entry_Name entry)) locale with
                | Err _ => chapters
                | Ok chapter => chapters ++ [chapter]
                end)
        chapters entries
  = chapters ++ omap (chapterOf p locale) entries.
Proof.
  revert chapters. induction entries as [|entry entries IH]; intros chapters.
  - by rewrite app_nil_r.
  - cbn [foldl omap list_omap]. rewrite IH. unfold chapterOf at 2.
    destruct (_ || _); [done|].
    destruct (ParseChapter _ _ _) as [chapter|err]; [|done].
    by rewrite <- app_assoc.
Qed.

Lemma chapterOf_locale (p : Parser) (locale : text) (entry : DirEntry) (chapter : Chapter) :
  chapterOf p locale entry = Some chapter → Chapter_Locale chapter = locale.
Proof.
  unfold chapterOf, ParseChapter. destruct (_ || _); [done|].
  destruct (os_ReadFile _) as [contentStr|]; [|done].
  destruct (parseFrontmatter contentStr) as [[fm body]|err]; [|done].
  by intros [= <-].
Qed.

Context {laws : SortLaws sort}.

Lemma ListChapters_listed (p : Parser) (locale : text) (entries : list DirEntry) :
  os_ReadDir (filepath_Join (bookPath p) locale) = Some entries →
  ∃ chapters,
    ListChapters p locale = Ok chapters
    ∧ chapters ≡ₚ omap (chapterOf p locale) entries
    ∧ StronglySorted byOrder chapters
    ∧ Forall (λ chapter, Chapter_Locale chapter = locale) chapters.
Proof.
  intros Hdir. unfold ListChapters. rewrite Hdir, ListChapters_loop, app_nil_l.
  eexists. split; [reflexivity|].
  assert (sort_Slice (λ a b, (Chapter_Order a <? Chapter_Order b)%Z)
            (omap (chapterOf p locale) entries)
          ≡ₚ omap (chapterOf p locale) entries) as Hperm by apply sort_Slice_perm.
  split; [done|]. split.
  - eapply SearchFacts.StronglySorted_weaken; [|apply sort_Slice_sorted, byOrder_strictWeak].
    intros a b Hab%Z.ltb_ge. exact Hab.
  - rewrite Hperm. apply Forall_forall. intros chapter [entry [_ Hentry]]%list_elem_of_omap.
    by eapply chapterOf_locale.
Qed.

Lemma ListChapters_ordered (p : Parser) (locale : text) (chapters : list Chapter) :
  ListChapters p locale = Ok chapters →
  StronglySorted byOrder chapters
  ∧ Forall (λ chapter, Chapter_Locale chapter = locale) chapters.
Proof.
  intros Hlist.
  destruct (os_ReadDir (filepath_Join (bookPath p) locale)) as [entries|] eqn:Hdir.
  - destruct (ListChapters_listed p locale entries Hdir) as (chapters' & Hlist' & _ & Hs & Hl).
    rewrite Hlist in Hlist'. injection Hlist' as <-. by split.
  - unfold ListChapters in Hlist. by rewrite Hdir in Hlist.
Qed.

(** [ListChapters] fails when the directory of the locale cannot be
    read, and only then.  Otherwise it returns one chapter for every
    entry of the directory that is a file, has a name ending in [.mdx]
    and parses (what does not parse is left out, without an error), all
    of the locale asked for, by ascending order number. *)
Theorem list_chapters_in_order (p : Parser) (locale : text) :
  match os_ReadDir (filepath_Join (bookPath p) locale) with
  | None =>
      ListChapters p locale = Err (ErrReadingDirectory (filepath_Join (bookPath p) locale))
  | Some entries =>
      ∃ chapters,
        ListChapters p locale = Ok chapters
        ∧ chapters ≡ₚ omap (chapterOf p locale) entries
        ∧ StronglySorted byOrder chapters
        ∧ Forall (λ chapter, Chapter_Locale chapter = locale) chapters
  end.
Proof.
  destruct (os_ReadDir _) as [entries|] eqn:Hdir.
  - by apply ListChapters_listed.
  - unfold ListChapters. by rewrite Hdir.
Qed.

(** [GetChapter] passes a listing error on.  On a listing that succeeds
    it returns a chapter of the list that has the identifier asked for
    and the locale asked for, and among several of that identifier one
    of the lowest order number; it fails with the chapter-not-found
    error exactly when no chapter of the list has the identifier. *)
Theorem get_chapter_by_id (p : Parser) (chapterID locale : text) :
  match ListChapters p locale with
  | Err err => GetChapter p chapterID locale = Err err
  | Ok chapters =>
      match GetChapter p chapterID locale with
      | Ok chapter =>
          chapter ∈ chapters
          ∧ Chapter_ID chapter = chapterID
          ∧ Chapter_Locale chapter = locale
          ∧ ∀ other, other ∈ chapters → Chapter_ID other = chapterID →
              byOrder chapter other
      | Err err =>
          err = ErrChapterNotFound chapterID
          ∧ Forall (λ chapter, Chapter_ID chapter ≠ chapterID) chapters
      end
  end.
Proof.
  unfold GetChapter. destruct (ListChapters p locale) as [chapters|err] eqn:Hlist; [|done].
  destruct (ListChapters_ordered p locale chapters Hlist) as [Hsorted Hlocale].
  destruct (list_find _ chapters) as [[i chapter]|] eqn:Hfind.
  - apply list_find_Some in Hfind as (Hi & Hid & Hfirst).
    split; [by eapply list_elem_of_lookup_2|]. split; [done|].
    split; [by eapply Forall_lookup_1 in Hlocale|].
    intros other [j Hj]%list_elem_of_lookup_1 Hother.
    destruct (decide (i = j)) as [->|Hne].
    + simplify_eq. unfold byOrder. lia.
    + assert (i < j) as Hij.
      { destruct (Nat.lt_ge_cases j i) as [Hji|Hge]; [|lia].
        by destruct (Hfirst j other Hj Hji). }
      pose proof (take_drop_middle chapters i chapter Hi) as Hsplit.
      rewrite <- Hsplit in Hsorted.
      apply StronglySorted_app_1_r, StronglySorted_inv in Hsorted as [_ Hsorted].
      eapply Forall_forall in Hsorted; [exact Hsorted|].
      apply list_elem_of_lookup. exists (j - S i).
      rewrite lookup_drop. by replace (S i + (j - S i)) with j by lia.
  - split; [done|]. by apply list_find_None in Hfind.
Qed.

(** The index of a locale is its chapter list without the texts: as
    many chapters, in the same order (ascending order number), each with
    the identifier, order number, name, locale, title list and path of
    the chapter it stands for and an empty content.  A listing error is
    passed on. *)
Theorem book_index_has_no_content (p : Parser) (locale : text) :
  match ListChapters p locale with
  | Err err => GetBookIndex p locale = Err err
  | Ok chapters =>
      ∃ index,
        GetBookIndex p locale = Ok index
        ∧ Index_Locale index = locale
        ∧ Index_TotalChapters index = length chapters
        ∧ Forall2 sameHeader (Index_Chapters index) chapters
        ∧ Forall (λ chapter, Chapter_Content chapter = []) (Index_Chapters index)
        ∧ StronglySorted byOrder (Index_Chapters index)
  end.
Proof.
  unfold GetBookIndex. destruct (ListChapters p locale) as [chapters|err] eqn:Hlist; [|done].
  destruct (ListChapters_ordered p locale chapters Hlist) as [Hsorted _].
  eexists. split; [reflexivity|]. cbn [Index_Locale Index_TotalChapters Index_Chapters].
  split; [done|]. split; [by rewrite length_fmap|]. split; [|split].
  - apply Forall2_fmap_l, Forall_Forall2_diag, Forall_forall. by intros chapter _.
  - by apply Forall_fmap, Forall_forall.
  - by eapply StronglySorted_fmap; [|exact Hsorted].
Qed.

End Listing.

Section Locales.
Context {os : OS}.

Lemma GetAvailableLocales_loop (entries : list DirEntry) (locales : list text) :
  foldl (λ locales entry,
           if Entry_IsDir entry
              && (bool_decide (Entry_Name entry = T "en")
                  || bool_decide (Entry_Name entry = T "es"))
           then locales ++ [Entry_Name entry]
           else locales)
        locales entries
  = locales
    ++ filter (λ name, name = T "en" ∨ name = T "es")
         (Entry_Name <$> filter (λ entry, Entry_IsDir entry = true) entries).
Proof.
  revert locales. induction entries as [|entry entries IH]; intros locales.
  - by rewrite app_nil_r.
  - cbn [foldl]. rewrite IH. destruct (Entry_IsDir entry) eqn:Hdir.
    + rewrite (filter_cons_True (λ entry, Entry_IsDir entry = true)) by done.
      rewrite fmap_cons.
      destruct (bool_decide_reflect (Entry_Name entry = T "en")) as [Hen|Hen].
      { cbn [andb orb]. rewrite filter_cons_True by (by left). by rewrite <- app_assoc. }
      destruct (bool_decide_reflect (Entry_Name entry = T "es")) as [Hes|Hes].
      { cbn [andb orb]. rewrite filter_cons_True by (by right). by rewrite <- app_assoc. }
      cbn [andb orb]. rewrite filter_cons_False; [done|]. by intros [?|?].
    + cbn [andb].
      rewrite (filter_cons_False (λ entry, Entry_IsDir entry = true)); [done|].
      by rewrite Hdir.
Qed.

(** [GetAvailableLocales] fails when the book directory cannot be read.
    Otherwise it returns, in the order of the directory, the names [en]
    and [es] of the entries that are directories; a file of such a name
    and a directory of another name are left out.  In a directory that
    has no name twice that is at most the two. *)
Theorem available_locales_are_en_es (p : Parser) :
  match os_ReadDir (bookPath p) with
  | None => GetAvailableLocales p = None
  | Some entries =>
      ∃ locales,
        GetAvailableLocales p = Some locales
        ∧ (∀ locale, locale ∈ locales ↔
             (locale = T "en" ∨ locale = T "es")
             ∧ {| Entry_Name := locale; Entry_IsDir := true |} ∈ entries)
        ∧ locales `sublist_of` Entry_Name <$> entries
        ∧ (NoDup (Entry_Name <$> entries) → NoDup locales ∧ length locales ≤ 2)
  end.
Proof.
  unfold GetAvailableLocales. destruct (os_ReadDir (bookPath p)) as [entries|]; [|done].
  eexists. split; [reflexivity|]. rewrite GetAvailableLocales_loop, app_nil_l.
  assert (filter (λ name, name = T "en" ∨ name = T "es")
            (Entry_Name <$> filter (λ entry, Entry_IsDir entry = true) entries)
          `sublist_of` Entry_Name <$> entries) as Hsub.
  { etrans; [apply sublist_filter|]. apply fmap_sublist, sublist_filter. }
  split; [|split; [done|]].
  - intros locale. rewrite list_elem_of_filter, list_elem_of_fmap. split.
    + intros [Hname (entry & -> & [Hdir Hin]%list_elem_of_filter)]. split; [done|].
      destruct entry as [name dir]. simpl in *. by subst dir.
    + intros [Hname Hin]. split; [done|].
      eexists. split; [|apply list_elem_of_filter; split; [|exact Hin]]; done.
  - intros Hnodup.
    assert (NoDup (filter (λ name, name = T "en" ∨ name = T "es")
              (Entry_Name <$> filter (λ entry, Entry_IsDir entry = true) entries))) as Hnd.
    { eapply sublist_NoDup; [exact Hnodup|exact Hsub]. }
    split; [done|].
    change 2 with (length [T "en"; T "es"]).
    apply submseteq_length, NoDup_submseteq; [done|].
    intros locale [[->| ->] _]%list_elem_of_filter;
      [apply list_elem_of_here | apply list_elem_of_further, list_elem_of_here].
Qed.

End Locales.

Lemma list_chapters_in_order_witness :
  ∃ chapters,
    ListChapters (os := Samples.memOS Samples.book) (json := Samples.emptyArrayOnly)
                 (sort := Samples.mergeSort) Samples.parser (T "es") = Ok chapters
    ∧ length chapters = 2
    ∧ StronglySorted byOrder chapters.
Proof.
  pose proof (list_chapters_in_order
                (os := Samples.memOS Samples.book) (json := Samples.emptyArrayOnly)
                (sort := Samples.mergeSort) (laws := SearchFacts.mergeSort_laws)
                Samples.parser (T "es")) as Hlist.
  destruct (os_ReadDir _) as [entries|] eqn:Hdir in Hlist; [|by vm_compute in Hdir].
  destruct Hlist as (chapters & Hlist & Hperm & Hsorted & _).
  exists chapters. split; [exact Hlist|]. split; [|exact Hsorted].
  rewrite Hperm. vm_compute in Hdir. injection Hdir as <-. by vm_compute.
Defined.

Lemma get_chapter_by_id_witness :
  match GetChapter (os := Samples.memOS Samples.book) (json := Samples.emptyArrayOnly)
                   (sort := Samples.mergeSort) Samples.parser (T "hexagonal") (T "es") with
  | Ok chapter => Chapter_ID chapter = T "hexagonal" ∧ Chapter_Locale chapter = T "es"
  | Err _ => False
  end.
Proof.
  pose proof (get_chapter_by_id
                (os := Samples.memOS Samples.book) (json := Samples.emptyArrayOnly)
                (sort := Samples.mergeSort) (laws := SearchFacts.mergeSort_laws)
                Samples.parser (T "hexagonal") (T "es")) as Hget.
  destruct (ListChapters _ _) as [chapters|err] eqn:Hlist in Hget; [|by vm_compute in Hlist].
  destruct (GetChapter _ _ _) as [chapter|err].
  - by destruct Hget as (_ & Hid & Hlocale & _).
  - destruct Hget as [_ Hnone]. vm_compute in Hlist. injection Hlist as <-.
    apply Forall_cons in Hnone as [_ [Hhex _]%Forall_cons]. by apply Hhex.
Defined.

Lemma book_index_has_no_content_witness :
  ∃ index,
    GetBookIndex (os := Samples.memOS Samples.book) (json := Samples.emptyArrayOnly)
                 (sort := Samples.mergeSort) Samples.parser (T "es") = Ok index
    ∧ Index_TotalChapters index = 2
    ∧ Forall (λ chapter, Chapter_Content chapter = []) (Index_Chapters index).
Proof.
  pose proof (book_index_has_no_content
                (os := Samples.memOS Samples.book) (json := Samples.emptyArrayOnly)
                (sort := Samples.mergeSort) (laws := SearchFacts.mergeSort_laws)
                Samples.parser (T "es")) as Hindex.
  destruct (ListChapters _ _) as [chapters|err] eqn:Hlist in Hindex; [|by vm_compute in Hlist].
  destruct Hindex as (index & Hindex & _ & Htotal & _ & Hempty & _).
  exists index. split; [exact Hindex|]. split; [|exact Hempty].
  rewrite Htotal. vm_compute in Hlist. by injection Hlist as <-.
Defined.

(** A book directory with [en], [es], a third directory and a file; and
    one in which [en] is a file. *)
Example available_locales_samples :
  GetAvailableLocales (os := Samples.shelf) (NewParser (T "shelf")) = Some [T "en"; T "es"]
  ∧ GetAvailableLocales (os := Samples.shelf) (NewParser (T "desk")) = Some []
  ∧ GetAvailableLocales (os := Samples.shelf) (NewParser (T "attic")) = None.
Proof. by vm_compute. Qed.

End ListingFacts.

(** ** Front matter read back *)

Module FrontmatterFacts.
Import GoString Book Spec TextFacts.

(** Literals of the source as lists of characters. *)
Ltac literals :=
  repeat match goal with
         | |- context [T ?s] =>
             let v := eval vm_compute in (T s) in change (T s) with v
         end;
  cbn [app].

(** *** Prefixes and occurrences *)

Lemma HasPrefix_app (key rest : text) : HasPrefix (key ++ rest) key = true.
Proof.
  induction key as [|p key IH]; [by destruct rest|].
  simpl. by rewrite bool_decide_true, IH.
Qed.

Lemma HasPrefix_head (c p : gochar) (s key : text) :
  c ≠ p → HasPrefix (c :: s) (p :: key) = false.
Proof. intros Hne. simpl. by rewrite bool_decide_false. Qed.

(** A prefix that runs into a character it does not have ends before
    it. *)
Lemma HasPrefix_app_inv (t r key : text) (q : gochar) :
  q ∉ key → HasPrefix (t ++ q :: r) key = true → HasPrefix t key = true.
Proof.
  revert t. induction key as [|p key IH]; intros t Hq; [by destruct t|].
  apply not_elem_of_cons in Hq as [Hqp Hq].
  destruct t as [|c t]; simpl.
  - by rewrite bool_decide_false.
  - intros [Hc Hrest]%andb_true_iff. rewrite Hc. simpl. by apply IH.
Qed.

Lemma HasPrefix_elem (t key : text) (c : gochar) :
  HasPrefix t key = true → c ∈ key → c ∈ t.
Proof.
  revert t. induction key as [|p key IH]; intros t Hprefix Hc; [inversion Hc|].
  destruct t as [|x t]; [done|]. simpl in Hprefix.
  apply andb_true_iff in Hprefix as [Hx%bool_decide_eq_true Hrest]. subst x.
  apply elem_of_cons in Hc as [->|Hc]; [apply list_elem_of_here|].
  apply list_elem_of_further. by apply IH.
Qed.

(** No occurrence starts in a text that lacks a character of the key
    and is followed by a character the key does not have. *)
Lemma HasPrefix_lacking (t r key : text) (c q : gochar) :
  c ∈ key → c ∉ t → q ∉ key → HasPrefix (t ++ q :: r) key = false.
Proof.
  intros Hc Hct Hq. destruct (HasPrefix (t ++ q :: r) key) eqn:Hprefix; [|done].
  apply HasPrefix_app_inv in Hprefix; [|done].
  destruct Hct. by eapply HasPrefix_elem.
Qed.

Lemma Index_here (s sep : text) : HasPrefix s sep = true → Index s sep = Some 0.
Proof. intros H. destruct s; simpl in *; by rewrite H. Qed.

Lemma Index_next (c : gochar) (s sep : text) :
  HasPrefix (c :: s) sep = false → Index (c :: s) sep = S <$> Index s sep.
Proof. intros H. cbn [Index]. by rewrite H. Qed.

Lemma Index_char (c p : gochar) (s sep : text) :
  c ≠ p → Index (c :: s) (p :: sep) = S <$> Index s (p :: sep).
Proof. intros Hne. by apply Index_next, HasPrefix_head. Qed.

Lemma Index_None_inv (c : gochar) (s sep : text) :
  Index (c :: s) sep = None → HasPrefix (c :: s) sep = false ∧ Index s sep = None.
Proof.
  cbn [Index]. destruct (HasPrefix (c :: s) sep); [intros [=]|].
  destruct (Index s sep); [intros [=] | done].
Qed.

(** A text without an occurrence, followed by a character the separator
    does not have: the first occurrence is behind it. *)
Lemma Index_app_skip (t r sep : text) (q : gochar) :
  Index t sep = None → q ∉ sep →
  Index (t ++ q :: r) sep = (λ n, length t + n) <$> Index (q :: r) sep.
Proof.
  intros Hnone Hq. induction t as [|c t IH].
  - change ([] ++ q :: r) with (q :: r). by destruct (Index (q :: r) sep).
  - apply Index_None_inv in Hnone as [Hhere Hnone].
    change ((c :: t) ++ q :: r) with (c :: (t ++ q :: r)).
    assert (HasPrefix (c :: t ++ q :: r) sep = false) as Hp.
    { destruct (HasPrefix (c :: t ++ q :: r) sep) eqn:Hp; [|done].
      apply (HasPrefix_app_inv (c :: t)) in Hp; [congruence|done]. }
    rewrite Index_next, IH by done.
    by destruct (Index (q :: r) sep).
Qed.

Lemma Index_lacking (t sep : text) (c : gochar) : c ∈ sep → c ∉ t → Index t sep = None.
Proof.
  intros Hc Hct. induction t as [|x t IH].
  - destruct sep; [inversion Hc | reflexivity].
  - apply not_elem_of_cons in Hct as [Hcx Hct].
    assert (HasPrefix (x :: t) sep = false) as Hp.
    { destruct (HasPrefix (x :: t) sep) eqn:Hp; [|done]. exfalso.
      eapply HasPrefix_elem in Hp; [|exact Hc].
      apply elem_of_cons in Hp as [->|Hp]; done. }
    rewrite Index_next by done. by rewrite IH.
Qed.

(** The separator behind a text that lacks its first character. *)
Lemma Index_first (t r sep : text) (p : gochar) :
  p ∉ t → Index (t ++ (p :: sep) ++ r) (p :: sep) = Some (length t).
Proof.
  intros Hp. induction t as [|c t IH].
  - apply Index_here, (HasPrefix_app (p :: sep)).
  - apply not_elem_of_cons in Hp as [Hpc Hp].
    change ((c :: t) ++ (p :: sep) ++ r) with (c :: (t ++ (p :: sep) ++ r)).
    rewrite Index_char, IH by done. done.
Qed.

(** *** [FindStringSubmatch] *)

Lemma findAfterKey_here (key : text) (after : text → option text) (s v : text) :
  HasPrefix s key = true → after (drop (length key) s) = Some v →
  findAfterKey key after s = Some v.
Proof. intros Hp Hv. destruct s; simpl in *; by rewrite Hp, Hv. Qed.

Lemma findAfterKey_next (key : text) (after : text → option text) (c : gochar) (s : text) :
  HasPrefix (c :: s) key = false →
  findAfterKey key after (c :: s) = findAfterKey key after s.
Proof. intros Hp. cbn [findAfterKey]. by rewrite Hp. Qed.

Lemma findAfterKey_char (key : text) (after : text → option text) (c p : gochar) (s : text) :
  c ≠ p → findAfterKey (p :: key) after (c :: s) = findAfterKey (p :: key) after s.
Proof. intros Hne. by apply findAfterKey_next, HasPrefix_head. Qed.

Lemma findAfterKey_app_skip (key : text) (after : text → option text) (t r : text)
    (c q : gochar) :
  c ∈ key → c ∉ t → q ∉ key →
  findAfterKey key after (t ++ q :: r) = findAfterKey key after (q :: r).
Proof.
  intros Hc Hct Hq. induction t as [|x t IH]; [done|].
  change ((x :: t) ++ q :: r) with (x :: (t ++ q :: r)).
  rewrite findAfterKey_next.
  - apply IH. by apply not_elem_of_cons in Hct as [_ Hct].
  - by apply (HasPrefix_lacking (x :: t) r key c q).
Qed.

Lemma findAfterKey_lacking (key : text) (after : text → option text) (t : text) (c : gochar) :
  c ∈ key → c ∉ t → findAfterKey key after t = None.
Proof.
  intros Hc Hct.
  assert (∀ s, c ∉ s → HasPrefix s key = false) as Hno.
  { intros s Hs. destruct (HasPrefix s key) eqn:Hp; [|done].
    destruct Hs. by eapply HasPrefix_elem. }
  induction t as [|x t IH].
  - cbn [findAfterKey]. by rewrite Hno.
  - rewrite findAfterKey_next by by apply Hno.
    apply IH. by apply not_elem_of_cons in Hct as [_ Hct].
Qed.

Lemma takeWhile_app_stop {A} (p : A → bool) (t r : list A) (q : A) :
  Forall (λ x, p x = true) t → p q = false → takeWhile p (t ++ q :: r) = t.
Proof.
  intros Ht Hq. induction Ht as [|x t Hx _ IH]; simpl; [by rewrite Hq|]. by rewrite Hx, IH.
Qed.

(** *** Trimming *)

Lemma dropWhile_idemp {A} (p : A → bool) (l : list A) :
  dropWhile p (dropWhile p l) = dropWhile p l.
Proof.
  induction l as [|x l IH]; [done|]. simpl. destruct (p x) eqn:Hx; [done|].
  simpl. by rewrite Hx.
Qed.

Lemma dropWhile_fixed {A} (p : A → bool) (l : list A) :
  (∀ x k, l = x :: k → p x = false) → dropWhile p l = l.
Proof. destruct l as [|x l]; [done|]. intros H. simpl. by rewrite (H x l). Qed.

Lemma TrimSpace_idemp (s : text) : TrimSpace (TrimSpace s) = TrimSpace s.
Proof.
  unfold TrimSpace, trimLeft.
  assert (dropWhile isSpace (trimRight isSpace (dropWhile isSpace s))
          = trimRight isSpace (dropWhile isSpace s)) as ->.
  { apply dropWhile_fixed. intros x k Hk.
    destruct (trimRight_prefix isSpace (dropWhile isSpace s)) as [rest Hrest].
    rewrite Hk in Hrest.
    pose proof (dropWhile_idemp isSpace s) as Hidem. rewrite Hrest in Hidem.
    simpl in Hidem. destruct (isSpace x); [|done].
    assert (length (dropWhile isSpace (k ++ rest)) ≤ length (k ++ rest)) as Hle.
    { destruct (dropWhile_suffix isSpace (k ++ rest)) as [a Ha].
      rewrite Ha at 2. rewrite length_app. lia. }
    rewrite Hidem in Hle. simpl in Hle. lia. }
  unfold trimRight. by rewrite reverse_involutive, dropWhile_idemp.
Qed.

Lemma findAfterKey_absent (key : text) (after : text → option text) (s : text) :
  Index s key = None → findAfterKey key after s = None.
Proof.
  induction s as [|c s IH]; intros Hnone.
  - cbn [findAfterKey]. destruct (HasPrefix [] key) eqn:Hp; [|done].
    by rewrite (Index_here [] key Hp) in Hnone.
  - apply Index_None_inv in Hnone as [Hp Hnone].
    rewrite findAfterKey_next by done. by apply IH.
Qed.

(** *** A front matter of three keys *)

Ltac prefixed :=
  match goal with
  | |- HasPrefix ?s ?key = true =>
      let n := eval cbv in (length key) in exact (HasPrefix_app key (drop n s))
  end.

Ltac notin :=
  let H := fresh in
  intros H; repeat (apply elem_of_cons in H as [H|H]; [by inversion H|]); inversion H.

Lemma plainValue_colon (v : text) : plainValue v → colon ∉ v.
Proof.
  intros (_ & Hplain & _) Hin. eapply Forall_forall in Hplain as [_ Hne]; [|exact Hin]. done.
Qed.

Lemma plainValue_quotes (v : text) :
  plainValue v → Forall (λ c, negb (isQuote c) = true) v.
Proof.
  intros (_ & Hplain & _). eapply Forall_impl; [exact Hplain|].
  intros c [Hq _]. by rewrite Hq.
Qed.

Lemma digits_lack (ds : text) (c : gochar) : reDigit c = false → digits ds → c ∉ ds.
Proof.
  intros Hc [_ Hds] Hin. eapply Forall_forall in Hds; [|exact Hin]. congruence.
Qed.

Lemma quotedValue_quoted (v r : text) :
  plainValue v → quotedValue (Rune 32 :: quote :: v ++ quote :: r) = Some v.
Proof.
  intros Hv. pose proof (plainValue_quotes v Hv) as Hquotes.
  destruct Hv as (Hne & _). unfold quotedValue.
  change (dropWhile reSpace (Rune 32 :: quote :: v ++ quote :: r))
    with (quote :: v ++ quote :: r).
  change (isQuote quote) with true. cbv iota zeta.
  rewrite (takeWhile_app_stop _ v r quote) by done.
  destruct v as [|c v]; [done|]. cbv iota.
  by rewrite (drop_app_length (c :: v)).
Qed.

Lemma digitsValueAt_digits (ds r : text) :
  digits ds → digitsValueAt (Rune 32 :: ds ++ newline :: r) = Some ds.
Proof.
  intros [Hne Hds]. unfold digitsValueAt. cbn [dropWhile reSpace isChar N.eqb Pos.eqb orb].
  destruct ds as [|d ds]; [done|].
  assert (reSpace d = false) as Hd.
  { apply Forall_cons in Hds as [Hd _]. destruct d as [cp|b]; [|done].
    unfold reDigit in Hd. apply andb_true_iff in Hd as [H1%N.leb_le H2%N.leb_le].
    unfold reSpace, isChar.
    by rewrite !(proj2 (N.eqb_neq _ _)) by lia. }
  change ((d :: ds) ++ newline :: r) with (d :: (ds ++ newline :: r)).
  rewrite dropWhile_head by done.
  change (d :: ds ++ newline :: r) with ((d :: ds) ++ newline :: r).
  by rewrite (takeWhile_app_stop _ (d :: ds) r newline).
Qed.

Section Keys.
Variables (id order name : text).
Hypothesis (Hid : plainValue id) (Horder : digits order) (Hname : plainValue name).

Lemma frontMatterOf_end (rest : text) :
  Index (frontMatterOf id order name ++ T "---" ++ rest) (T "---")
  = Some (length (frontMatterOf id order name)).
Proof.
  unfold frontMatterOf. rewrite <- !app_assoc. literals.
  repeat (rewrite Index_char by done).
  rewrite Index_app_skip by (apply Hid || notin).
  repeat (rewrite Index_char by done).
  rewrite Index_app_skip
    by ((apply (Index_lacking _ _ hyphen); [repeat constructor | by apply digits_lack])
        || notin).
  repeat (rewrite Index_char by done).
  rewrite Index_app_skip by (apply Hname || notin).
  repeat (rewrite Index_char by done).
  rewrite Index_here by prefixed.
  cbn [fmap option_fmap option_map]. f_equal.
  repeat first [rewrite length_app | progress cbn [length]]. lia.
Qed.

Lemma frontMatterOf_id :
  findAfterKey (T "id:") quotedValue (frontMatterOf id order name) = Some id.
Proof.
  unfold frontMatterOf. literals.
  repeat (rewrite findAfterKey_char by done).
  apply findAfterKey_here; [prefixed|].
  cbn [drop length]. by apply quotedValue_quoted.
Qed.

Lemma frontMatterOf_order :
  findAfterKey (T "order:") digitsValueAt (frontMatterOf id order name) = Some order.
Proof.
  unfold frontMatterOf. literals.
  repeat (rewrite findAfterKey_char by done).
  rewrite (findAfterKey_app_skip _ _ id _ colon) by (solve [notin] || (by apply plainValue_colon) || (repeat constructor)).
  repeat (rewrite findAfterKey_char by done).
  apply findAfterKey_here; [prefixed|].
  cbn [drop length]. by apply digitsValueAt_digits.
Qed.

Lemma frontMatterOf_name :
  findAfterKey (T "name:") quotedValue (frontMatterOf id order name) = Some name.
Proof.
  unfold frontMatterOf. literals.
  repeat (rewrite findAfterKey_char by done).
  rewrite (findAfterKey_app_skip _ _ id _ colon) by (solve [notin] || (by apply plainValue_colon) || (repeat constructor)).
  repeat (rewrite findAfterKey_char by done).
  rewrite (findAfterKey_app_skip _ _ order _ colon) by (solve [notin] || (by apply digits_lack) || (repeat constructor)).
  repeat (rewrite findAfterKey_char by done).
  apply findAfterKey_here; [prefixed|].
  cbn [drop length]. by apply quotedValue_quoted.
Qed.

Lemma frontMatterOf_titleList :
  titleListLiteral (frontMatterOf id order name) = None.
Proof.
  unfold titleListLiteral.
  assert (Index (frontMatterOf id order name) (T "titleList:") = None) as ->; [|done].
  unfold frontMatterOf. literals.
  repeat (rewrite Index_char by done).
  rewrite Index_app_skip
    by ((apply (Index_lacking _ _ colon); [repeat constructor | by apply plainValue_colon])
        || notin).
  repeat (rewrite Index_char by done).
  rewrite Index_app_skip
    by ((apply (Index_lacking _ _ colon); [repeat constructor | by apply digits_lack])
        || notin).
  repeat (rewrite Index_char by done).
  rewrite Index_app_skip
    by ((apply (Index_lacking _ _ colon); [repeat constructor | by apply plainValue_colon])
        || notin).
  repeat (rewrite Index_char by done).
  reflexivity.
Qed.

End Keys.

Section Parse.
Context {unicode : Unicode} {os : OS} {json : JSON} {sort : Sort}.

Lemma parseFrontmatter_file (fmContent rest : text) :
  Index (fmContent ++ T "---" ++ rest) (T "---") = Some (length fmContent) →
  parseFrontmatter (chapterFile fmContent rest)
  = Ok ({| fm_ID := default [] (findAfterKey (T "id:") quotedValue fmContent);
           fm_Order := default 0%Z (Atoi <$> findAfterKey (T "order:") digitsValueAt fmContent);
           fm_Name := default [] (findAfterKey (T "name:") quotedValue fmContent);
           fm_TitleList := parseTitleList fmContent |},
        TrimSpace rest).
Proof.
  intros Hend. unfold parseFrontmatter, chapterFile.
  rewrite (HasPrefix_app (T "---")). cbn [negb].
  change (drop 3 (T "---" ++ fmContent ++ T "---" ++ rest))
    with (fmContent ++ T "---" ++ rest).
  rewrite Hend, take_app_length.
  replace (drop (length fmContent + 6) (T "---" ++ fmContent ++ T "---" ++ rest)) with rest;
    [done|].
  rewrite !app_assoc, drop_app_length'; [done|].
  rewrite !length_app. change (length (T "---")) with 3. lia.
Qed.

(** A chapter file whose front matter gives [id], [order] and [name],
    one on a line, parses to these values: the identifier and the name
    as written between the quotes, the order number read from its digits
    (the largest [int] when the number does not fit), no title list, and
    as content what follows the closing delimiter, trimmed. *)
Theorem parse_chapter_round_trip (p : Parser) (filePath locale id order name rest : text) :
  plainValue id → digits order → plainValue name →
  os_ReadFile filePath = Some (chapterFile (frontMatterOf id order name) rest) →
  ParseChapter p filePath locale
  = Ok {| Chapter_ID := id;
          Chapter_Order := Atoi order;
          Chapter_Name := name;
          Chapter_Locale := locale;
          Chapter_TitleList := [];
          Chapter_Content := TrimSpace rest;
          Chapter_FilePath := filePath |}.
Proof.
  intros Hid Horder Hname Hfile. unfold ParseChapter. rewrite Hfile.
  rewrite parseFrontmatter_file by by apply frontMatterOf_end.
  unfold parseTitleList.
  by rewrite frontMatterOf_id, frontMatterOf_order, frontMatterOf_name,
             frontMatterOf_titleList.
Qed.

(** Whatever parses: a key that does not occur in the front matter
    leaves its field at the zero value (the empty string, 0, no title
    list), and the content has no white space around it. *)
Theorem missing_keys_leave_zero_values (content : text) (fm : frontmatter) (body : text) :
  parseFrontmatter content = Ok (fm, body) →
  ∃ endIndex,
    Index (drop 3 content) (T "---") = Some endIndex
    ∧ (Index (take endIndex (drop 3 content)) (T "id:") = None → fm_ID fm = [])
    ∧ (Index (take endIndex (drop 3 content)) (T "order:") = None → fm_Order fm = 0%Z)
    ∧ (Index (take endIndex (drop 3 content)) (T "name:") = None → fm_Name fm = [])
    ∧ (Index (take endIndex (drop 3 content)) (T "titleList:") = None → fm_TitleList fm = [])
    ∧ TrimSpace body = body.
Proof.
  unfold parseFrontmatter. destruct (HasPrefix content (T "---")); [|done]. cbn [negb].
  destruct (Index (drop 3 content) (T "---")) as [endIndex|]; [|done].
  intros [= <- <-]. exists endIndex. split; [done|]. cbn [fm_ID fm_Order fm_Name fm_TitleList].
  repeat split.
  - intros Hnone. by rewrite findAfterKey_absent.
  - intros Hnone. by rewrite findAfterKey_absent.
  - intros Hnone. by rewrite findAfterKey_absent.
  - intros Hnone. unfold parseTitleList, titleListLiteral. by rewrite Hnone.
  - apply TrimSpace_idemp.
Qed.

End Parse.

Lemma parse_chapter_round_trip_witness :
  ParseChapter (os := Samples.memOS Samples.greekBook) (json := Samples.emptyArrayOnly)
               Samples.parser (T "book/el/greek.mdx") (T "el")
  = Ok {| Chapter_ID := T "greek";
          Chapter_Order := 1;
          Chapter_Name := T "Greek";
          Chapter_Locale := T "el";
          Chapter_TitleList := [];
          Chapter_Content := T "alpha
beta";
          Chapter_FilePath := T "book/el/greek.mdx" |}.
Proof.
  rewrite (parse_chapter_round_trip (os := Samples.memOS Samples.greekBook)
             Samples.parser (T "book/el/greek.mdx") (T "el")
             (T "greek") (T "1") (T "Greek") (T "
alpha
beta
")).
  - by vm_compute.
  - split; [done|]. split; [|by vm_compute]. by repeat constructor.
  - split; [done|]. by repeat constructor.
  - split; [done|]. split; [|by vm_compute]. by repeat constructor.
  - by vm_compute.
Defined.

Lemma missing_keys_leave_zero_values_witness :
  ∃ fm body,
    parseFrontmatter (json := Samples.emptyArrayOnly) (T "---
title: none
---
text
") = Ok (fm, body)
    ∧ fm_ID fm = [] ∧ fm_Order fm = 0%Z ∧ fm_Name fm = [] ∧ fm_TitleList fm = []
    ∧ body = T "text".
Proof.
  eexists _, _.
  match goal with
  | |- ?P = Ok (?fm, ?body) ∧ _ =>
      assert (P = Ok (fm, body)) as Hparse by (vm_compute; reflexivity)
  end.
  split; [exact Hparse|].
  destruct (missing_keys_leave_zero_values _ _ _ Hparse)
    as (endIndex & Hend & Hid & Horder & Hname & Htitles & _).
  vm_compute in Hend. injection Hend as <-.
  split; [by apply Hid|]. split; [by apply Horder|]. split; [by apply Hname|].
  split; [by apply Htitles|]. by vm_compute.
Defined.

End FrontmatterFacts.

(** ** The title list on its way to the decoder, and the shape of a slug *)

Module CleanFacts.
Import GoString Book Spec TextFacts.










(** A vertical tab and a no-break space are white space for
    [unicode.IsSpace], and stay as they are. *)
Example other_white_space_stays :
  cleanArrayToJSON [Rune 11; Rune 0xA0; Rune 0x85] = [Rune 11; Rune 0xA0; Rune 0x85]
  ∧ forallb isSpace [Rune 11; Rune 0xA0; Rune 0x85] = true.
Proof. by vm_compute. Qed.

(** A title list in the house style comes out as JSON. *)
Example clean_array_sample :
  cleanArrayToJSON (T "[
    { name: 'Ports',   tagId: 'ports' },
    {name:'Driving adapters', tagId:'driving-adapters'}
  ]")
  = T "[ { " ++ dquote :: T "name" ++ dquote :: T ": " ++ dquote :: T "Ports" ++ dquote
      :: T ", " ++ dquote :: T "tagId" ++ dquote :: T ": " ++ dquote :: T "ports" ++ dquote
      :: T " }, {" ++ dquote :: T "name" ++ dquote :: T ":" ++ dquote
      :: T "Driving adapters" ++ dquote :: T ", " ++ dquote :: T "tagId" ++ dquote
      :: T ":" ++ dquote :: T "driving-adapters" ++ dquote :: T "} ]".
Proof. by vm_compute. Qed.

Section Slug.
Context {unicode : Unicode} (p : Parser).

Lemma slugStage_hyphens (title : text) :
  Forall (λ c, unicode_L (unicode_ToLower (codepoint c)) = false
               ∧ unicode_N (unicode_ToLower (codepoint c)) = false) title →
  Forall (λ c, isChar 45 c = true) (slugStage title).
Proof.
  intros Hnone. apply Forall_forall. intros c [Hslug Hin]%list_elem_of_filter.
  unfold ReplaceAll in Hin. apply list_elem_of_fmap in Hin as (c1 & -> & Hin).
  unfold ToLower in Hin. apply list_elem_of_fmap in Hin as (c0 & -> & Hin0).
  eapply Forall_forall in Hnone as [HL HN]; [|exact Hin0].
  cbn [isChar] in *. destruct (N.eqb_spec (unicode_ToLower (codepoint c0)) 32); [done|].
  unfold slugChar in Hslug. cbn [codepoint isChar] in Hslug.
  by rewrite HL, HN in Hslug.
Qed.

(** A slug is made of lowered letters, digits and hyphens; no hyphen
    follows a hyphen, and none starts or ends the slug, so that a slug is
    a sequence of words joined by single hyphens.  A title without a
    letter or a digit has the empty slug. *)
Theorem slug_is_hyphenated_words (title : text) :
  Forall slugMade (generateTagID p title)
  ∧ noDoubleHyphen (generateTagID p title)
  ∧ startsWithHyphen (generateTagID p title) = false
  ∧ startsWithHyphen (reverse (generateTagID p title)) = false
  ∧ (Forall (λ c, unicode_L (unicode_ToLower (codepoint c)) = false
                  ∧ unicode_N (unicode_ToLower (codepoint c)) = false) title →
     generateTagID p title = []).
Proof.
  destruct (SlugFacts.generateTagID_shape p title) as (Hmade & Hnd & Hstart & Hend).
  repeat (split; [done|]).
  intros Hnone. rewrite SlugFacts.generateTagID_stage.
  apply slugStage_hyphens, (SlugFacts.squeezeHyphens_Forall _ _) in Hnone.
  unfold Trim, trimLeft. rewrite dropWhile_all; [done|]. by apply forallb_intro.
Qed.

End Slug.

End CleanFacts.

(** ** Splitting long sections *)

Module SplitterFacts.
Import GoString Embeddings Main Spec TextFacts.

Lemma written_app (a b : list text) : written (a ++ b) = written a ++ written b.
Proof. apply filter_app. Qed.

Lemma written_one (p : text) : written [p] = if decide (p = []) then [] else [p].
Proof.
  unfold written. destruct (decide (p = [])) as [->|Hne].
  - by rewrite filter_cons_False by (by intros H).
  - by rewrite filter_cons_True.
Qed.

Lemma group_join (held : list text) : group held → join paragraphBreak held ≠ [].
Proof. intros (first & others & -> & Hfirst). by apply ChunkFacts.join_first. Qed.

Lemma gathered_restart (done : list text) (groups : list (list text)) (p : text)
    (chunks : list text) :
  chunks = pieceOf <$> groups →
  Forall group groups →
  written (concat groups) = written done →
  ∃ held, gathered (done ++ [p]) groups held (chunks, p).
Proof.
  intros Hchunks Hgroups Hwritten. destruct (decide (p = [])) as [->|Hne].
  - exists []. repeat split; try done; [by left|].
    rewrite app_nil_r, written_app, written_one, decide_True by done.
    by rewrite app_nil_r.
  - exists [p]. repeat split; try done; [right; by exists p, []|].
    by rewrite !written_app, Hwritten.
Qed.

Lemma addParagraph_gathered (maxLen : nat) (done : list text) (groups : list (list text))
    (held : list text) (st : list text * text) (p : text) :
  gathered done groups held st →
  ∃ groups' held', gathered (done ++ [p]) groups' held' (addParagraph maxLen st p).
Proof.
  intros (Hchunks & Hcurrent & Hgroups & Hheld & Hwritten).
  destruct st as [chunks current]. simpl in Hchunks, Hcurrent. subst chunks current.
  unfold addParagraph.
  destruct Hheld as [->|Hgroup].
  - change (join paragraphBreak []) with (@nil gochar).
    destruct (bool_decide_reflect (@nil gochar = [])) as [_|Hne]; [|by destruct Hne].
    rewrite andb_false_r. cbn [negb app].
    rewrite app_nil_r in Hwritten.
    destruct (gathered_restart done groups p (pieceOf <$> groups)) as [held' Hheld'];
      [done|done|done|]. by exists groups, held'.
  - pose proof (group_join held Hgroup) as Hfull.
    destruct (bool_decide_reflect (join paragraphBreak held = [])) as [Hempty|_];
      [by destruct Hfull|].
    rewrite andb_true_r. cbn [negb].
    destruct (maxLen <? len (join paragraphBreak held) + len p).
    + destruct (gathered_restart done (groups ++ [held]) p
                 (pieceOf <$> groups ++ [held])) as [held' Hheld'].
      * done.
      * apply Forall_app. split; [done|]. by constructor.
      * by rewrite concat_app, <- Hwritten; simpl; rewrite app_nil_r.
      * exists (groups ++ [held]), held'.
        by rewrite fmap_app in Hheld'.
    + exists groups, (held ++ [p]). repeat split; [|done| |].
      * simpl. rewrite ChunkFacts.join_snoc, <- app_assoc; [done|].
        destruct Hgroup as (first & others & -> & _). done.
      * right. destruct Hgroup as (first & others & -> & Hfirst).
        by exists first, (others ++ [p]).
      * by rewrite app_assoc, written_app, Hwritten, <- written_app.
Qed.

Lemma foldl_gathered (maxLen : nat) (rest done : list text) (groups : list (list text))
    (held : list text) (st : list text * text) :
  gathered done groups held st →
  ∃ groups' held',
    gathered (done ++ rest) groups' held' (foldl (addParagraph maxLen) st rest).
Proof.
  revert done groups held st. induction rest as [|p rest IH]; intros done groups held st Hst.
  - rewrite app_nil_r. by exists groups, held.
  - cbn [foldl].
    destruct (addParagraph_gathered maxLen done groups held st p Hst) as (g1 & h1 & Hst1).
    destruct (IH (done ++ [p]) g1 h1 _ Hst1) as (g2 & h2 & Hst2).
    exists g2, h2. by rewrite <- app_assoc in Hst2.
Qed.

(** A section longer than the limit comes out as the pieces of groups of
    its paragraphs: the groups are, one after the other, all paragraphs
    of the section that are not empty, each once and in their order; an
    empty paragraph is dropped only where a piece would start with it.
    Every group starts with a paragraph that is not empty, and its piece
    is the group joined by blank lines and trimmed.  A section within
    the limit is its own and only piece. *)
Theorem splitter_keeps_every_paragraph (content : text) (maxLen : nat) :
  (len content ≤ maxLen → splitLongContent content maxLen = [content])
  ∧ (maxLen < len content →
     ∃ groups,
       splitLongContent content maxLen = pieceOf <$> groups
       ∧ Forall group groups
       ∧ written (concat groups) = written (Split content paragraphBreak)).
Proof.
  unfold splitLongContent.
  destruct (Nat.leb_spec (len content) maxLen) as [Hfits|Hlong].
  { split; [done|]. intros. lia. }
  split; [intros; lia|]. intros _.
  change (T "

") with paragraphBreak.
  destruct (foldl_gathered maxLen (Split content paragraphBreak) [] [] [] ([], []))
    as (groups & held & Hchunks & Hcurrent & Hgroups & Hheld & Hwritten).
  { repeat split; try done. by left. }
  rewrite app_nil_l in Hwritten.
  destruct (foldl (addParagraph maxLen) ([], []) (Split content paragraphBreak))
    as [chunks current].
  simpl in Hchunks, Hcurrent. subst chunks current.
  destruct Hheld as [->|Hgroup].
  - destruct (bool_decide_reflect (join paragraphBreak [] = [])) as [_|Hne];
      [|by destruct Hne].
    cbn [negb]. exists groups. by rewrite app_nil_r in Hwritten.
  - destruct (bool_decide_reflect (join paragraphBreak held = [])) as [Hempty|_];
      [by apply group_join in Hgroup|].
    cbn [negb].
    exists (groups ++ [held]). split; [by rewrite fmap_app|]. split.
    + apply Forall_app. split; [done|]. by constructor.
    + rewrite concat_app. simpl. by rewrite app_nil_r.
Qed.

Lemma splitter_keeps_every_paragraph_witness :
  ∃ groups,
    splitLongContent (replicate 400 (Rune 97) ++ paragraphBreak ++ paragraphBreak
                      ++ replicate 500 (Rune 98) ++ paragraphBreak
                      ++ replicate 300 (Rune 99)) 1000
    = pieceOf <$> groups
    ∧ length groups = 2
    ∧ written (concat groups)
      = [replicate 400 (Rune 97); replicate 500 (Rune 98); replicate 300 (Rune 99)].
Proof.
  destruct (splitter_keeps_every_paragraph
              (replicate 400 (Rune 97) ++ paragraphBreak ++ paragraphBreak
               ++ replicate 500 (Rune 98) ++ paragraphBreak
               ++ replicate 300 (Rune 99)) 1000) as [_ Hlong].
  destruct Hlong as (groups & Hsplit & Hgroups & Hwritten).
  { vm_compute. lia. }
  exists groups. split; [exact Hsplit|]. split.
  - apply (f_equal length) in Hsplit. rewrite length_fmap in Hsplit. rewrite <- Hsplit.
    by vm_compute.
  - rewrite Hwritten. by vm_compute.
Defined.

(** A paragraph of white space between two long ones is a piece of its
    own, which comes out empty. *)
Example blank_paragraph_makes_an_empty_piece :
  splitLongContent (replicate 1000 (Rune 97) ++ paragraphBreak ++ T " " ++ paragraphBreak
                    ++ replicate 1000 (Rune 98)) 1000
  = [replicate 1000 (Rune 97); []; replicate 1000 (Rune 98)].
Proof. by vm_compute. Qed.

(** *** Where a chunk comes from *)

Lemma sectionChunks_origin (chapterID chapterName locale sectionName : text)
    (several : bool) (j : nat) (contentChunks : list text) (idCounter : Z) :
  Forall (chunkOf chapterID chapterName locale)
    (sectionChunks chapterID chapterName locale sectionName several j
                   contentChunks idCounter).1
  ∧ labelled <$> (sectionChunks chapterID chapterName locale sectionName several j
                                contentChunks idCounter).1
    = imap (λ k piece, (sectionName ++ (if several then partSuffix (j + k) else []), piece))
           contentChunks.
Proof.
  revert j idCounter. induction contentChunks as [|c contentChunks IH]; intros j idCounter.
  { by split. }
  cbn [sectionChunks]. destruct (IH (S j) (wrapInt (idCounter + 1))) as [Horigin Hlabels].
  destruct (sectionChunks _ _ _ _ _ (S j) _ _) as [chunks counter].
  cbn [fst] in *. split; [by constructor|].
  rewrite fmap_cons, Hlabels. cbn [imap]. unfold labelled at 1. cbn [Chunk_Section Chunk_Content].
  rewrite Nat.add_0_r. f_equal. apply imap_ext. intros k piece _. simpl.
  by replace (j + S k) with (S j + k) by lia.
Qed.

Lemma headerChunks_origin (chapterID chapterName locale : text) (sections : list text)
    (i : nat) (headers : list text) (idCounter : Z) :
  Forall (chunkOf chapterID chapterName locale)
    (headerChunks chapterID chapterName locale sections i headers idCounter).1.
Proof.
  revert i idCounter. induction headers as [|header headers IH]; intros i idCounter; [done|].
  cbn [headerChunks].
  destruct (bool_decide _); [apply IH|].
  pose proof (sectionChunks_origin chapterID chapterName locale header
    (1 <? length (splitLongContent
       (if i + 1 <? length sections then TrimSpace (default [] (sections !! (i + 1))) else [])
       1000)) 0
    (splitLongContent
       (if i + 1 <? length sections then TrimSpace (default [] (sections !! (i + 1))) else [])
       1000) idCounter) as [Hsection _].
  destruct (sectionChunks _ _ _ _ _ _ _ _) as [chunks counter].
  specialize (IH (S i) counter).
  destruct (headerChunks _ _ _ _ _ _ _) as [more counter'].
  cbn [fst] in *. by apply Forall_app.
Qed.

Example parts_are_numbered :
  labelled <$> (splitIntoChunks (T "## Parts
" ++ replicate 400 (Rune 97) ++ paragraphBreak ++ replicate 500 (Rune 98) ++ paragraphBreak
    ++ replicate 300 (Rune 99)) (T "ch") (T "Chapter") (T "es") 0).1
  = [(T "Parts (part 1)",
      replicate 400 (Rune 97) ++ paragraphBreak ++ replicate 500 (Rune 98));
     (T "Parts (part 2)", replicate 300 (Rune 99))].
Proof. by vm_compute. Qed.

End SplitterFacts.

(** ** Building the index *)

Module BuildFacts.
Import GoString Embeddings Main Spec TextFacts.

Section Build.
Context {unicode : Unicode} {os : Book.OS} {json : Book.JSON} {sort : Book.Sort}.
Context {C : Type} {embedding : EmbeddingClient C}.

Lemma localeChunks_success (parser : Book.Parser) (locales : list text)
    (st st' : list Chunk * Z) :
  localeChunks parser locales st = Ok st' →
  Forall (λ locale, ∃ chapters, Book.ListChapters parser locale = Ok chapters) locales.
Proof.
  revert st. induction locales as [|locale locales IH]; intros st; [done|].
  cbn [localeChunks]. destruct (Book.ListChapters parser locale) as [chapters|err] eqn:Hlist;
    [|done].
  intros Hrest%IH. constructor; [by exists chapters | done].
Qed.

End Build.

End BuildFacts.

(** ** The OpenAI and Ollama clients *)

Module ClientFacts.
Import GoString Embeddings Spec.

Lemma placing_panics (n : nat) (data : list openAIDatum) :
  foldl (placeDatum n) Panics data = Panics.
Proof. induction data as [|d data IH]; [done|]. exact IH. Qed.

Lemma indexed_test (n : nat) (d : openAIDatum) :
  (0 <=? Datum_Index d)%Z && (Datum_Index d <? Z.of_nat n)%Z = true ↔ indexed n d.
Proof. unfold indexed. rewrite andb_true_iff, Z.leb_le, Z.ltb_lt. done. Qed.

Lemma placing_places (n : nat) (data seen : list openAIDatum) (embeddings : list vector) :
  length embeddings = n →
  (∀ i, i < n → embeddings !! i = Some (placed seen i)) →
  match foldl (placeDatum n) (Returns embeddings) data with
  | Returns embeddings' =>
      Forall (indexed n) data
      ∧ length embeddings' = n
      ∧ ∀ i, i < n → embeddings' !! i = Some (placed (seen ++ data) i)
  | Panics => Exists (λ d, ¬ indexed n d) data
  end.
Proof.
  revert seen embeddings. induction data as [|d data IH]; intros seen embeddings Hlen Hseen.
  - cbn [foldl]. rewrite app_nil_r. by split.
  - cbn [foldl placeDatum].
    destruct ((0 <=? Datum_Index d)%Z && (Datum_Index d <? Z.of_nat n)%Z) eqn:Htest.
    + apply indexed_test in Htest.
      specialize (IH (seen ++ [d])
                     (<[Z.to_nat (Datum_Index d) := Datum_Embedding d]> embeddings)).
      rewrite <- app_assoc in IH. cbn [app] in IH.
      destruct (foldl _ _ data) as [embeddings'|].
      * destruct IH as (Hall & Hlen' & Hplaced).
        -- by rewrite length_insert.
        -- intros i Hi. unfold placed. rewrite filter_app, fmap_app.
           destruct (decide (Z.to_nat (Datum_Index d) = i)) as [<-|Hne].
           ++ rewrite list_lookup_insert_eq by (unfold indexed in Htest; lia).
              rewrite filter_cons_True by (unfold indexed in Htest; lia).
              rewrite filter_nil, fmap_cons, fmap_nil, last_snoc. done.
           ++ rewrite list_lookup_insert_ne by done.
              rewrite filter_cons_False by (unfold indexed in Htest; lia).
              rewrite filter_nil, fmap_nil, app_nil_r. by apply Hseen.
        -- split; [by constructor|]. by split.
      * apply Exists_cons_tl. apply IH.
        -- by rewrite length_insert.
        -- intros i Hi. unfold placed. rewrite filter_app, fmap_app.
           destruct (decide (Z.to_nat (Datum_Index d) = i)) as [<-|Hne].
           ++ rewrite list_lookup_insert_eq by (unfold indexed in Htest; lia).
              rewrite filter_cons_True by (unfold indexed in Htest; lia).
              rewrite filter_nil, fmap_cons, fmap_nil, last_snoc. done.
           ++ rewrite list_lookup_insert_ne by done.
              rewrite filter_cons_False by (unfold indexed in Htest; lia).
              rewrite filter_nil, fmap_nil, app_nil_r. by apply Hseen.
    + rewrite placing_panics. apply Exists_cons_hd.
      intros Hd%indexed_test. congruence.
Qed.

Lemma placeByIndex_places (n : nat) (data : list openAIDatum) :
  match placeByIndex n data with
  | Returns embeddings =>
      Forall (indexed n) data
      ∧ length embeddings = n
      ∧ ∀ i, i < n → embeddings !! i = Some (placed data i)
  | Panics => Exists (λ d, ¬ indexed n d) data
  end.
Proof.
  apply (placing_places n data [] (replicate n [])).
  - apply length_replicate.
  - intros i Hi. by rewrite lookup_replicate_2.
Qed.

Section Clients.
Context {H : Type} {network : Network H}.

(** [OpenAIClient.EmbedBatch] without a key fails before it sends
    anything.  On a response without an error it returns one embedding
    for each text: text [i] gets the embedding of the last datum of index
    [i], and the empty embedding when the response has none for it; no
    error is reported for a text that was left out.  A datum whose index
    is not one of the texts makes the call panic. *)
Theorem openai_batch_places_by_index (c : OpenAIClient) (texts : list text) :
  (OpenAI_apiKey c = [] →
   OpenAIClient_EmbedBatch c texts
   = Returns (Err (ErrClient (T "OpenAI API key not set")), c))
  ∧ (OpenAI_apiKey c ≠ [] →
     ∀ data http,
       openAI_post (OpenAI_http c) (OpenAI_apiKey c) (OpenAI_model c) texts
       = (Ok {| openAI_Data := data; openAI_Error := None |}, http) →
       match OpenAIClient_EmbedBatch c texts with
       | Returns (answer, c') =>
           OpenAI_http c' = http
           ∧ Forall (indexed (length texts)) data
           ∧ ∃ embeddings,
               answer = Ok embeddings
               ∧ length embeddings = length texts
               ∧ ∀ i, i < length texts → embeddings !! i = Some (placed data i)
       | Panics => Exists (λ d, ¬ indexed (length texts) d) data
       end).
Proof.
  unfold OpenAIClient_EmbedBatch. split.
  - intros Hkey. by rewrite bool_decide_true.
  - intros Hkey data http Hpost. rewrite bool_decide_false by done.
    rewrite Hpost. cbn [openAI_Error openAI_Data].
    pose proof (placeByIndex_places (length texts) data) as Hplace.
    destruct (placeByIndex (length texts) data) as [embeddings|]; [|done].
    destruct Hplace as (Hall & Hlen & Hplaced).
    split; [done|]. split; [done|]. by exists embeddings.
Qed.

(** [OpenAIClient.Embed] returns what [EmbedBatch] returns for the one
    text: its error, or the one embedding.  The batch of one text always
    comes back with one embedding, so the check for no embeddings never
    fires; a response without data gives the empty embedding, and no
    error. *)
Theorem openai_embed_is_the_batch_of_one (c : OpenAIClient) (text_ : text) :
  match OpenAIClient_EmbedBatch c [text_] with
  | Panics => OpenAIClient_Embed c text_ = Panics
  | Returns (Err err, c') => OpenAIClient_Embed c text_ = Returns (Err err, c')
  | Returns (Ok embeddings, c') =>
      ∃ emb, embeddings = [emb] ∧ OpenAIClient_Embed c text_ = Returns (Ok emb, c')
  end
  ∧ (OpenAI_apiKey c ≠ [] →
     ∀ http,
       openAI_post (OpenAI_http c) (OpenAI_apiKey c) (OpenAI_model c) [text_]
       = (Ok {| openAI_Data := []; openAI_Error := None |}, http) →
       ∃ c', OpenAIClient_Embed c text_ = Returns (Ok [], c')).
Proof.
  split.
  - unfold OpenAIClient_Embed.
    destruct (OpenAIClient_EmbedBatch c [text_]) as [[[embeddings|err] c']|] eqn:Hbatch;
      [|done|done].
    assert (length embeddings = 1) as Hlen.
    { unfold OpenAIClient_EmbedBatch in Hbatch.
      destruct (bool_decide _); [done|].
      destruct (openAI_post _ _ _ _) as [[openAIResp|err] http]; [|done].
      destruct (openAI_Error openAIResp); [done|].
      pose proof (placeByIndex_places (length [text_]) (openAI_Data openAIResp)) as Hplace.
      destruct (placeByIndex _ _) as [embeddings'|]; [|done].
      destruct Hplace as (_ & Hlen & _). by simplify_eq. }
    destruct embeddings as [|emb [|]]; try done. by exists emb.
  - intros Hkey http Hpost. unfold OpenAIClient_Embed, OpenAIClient_EmbedBatch.
    rewrite bool_decide_false by done. rewrite Hpost. by eexists.
Qed.

Lemma embedEach_count (c : OllamaClient) (i : nat) (texts : list text)
    (embeddings : list vector) :
  match embedEach c i texts embeddings with
  | (Ok embeddings', _) => length embeddings' = length embeddings
  | (Err err, _) =>
      ∃ k cause,
        i ≤ k < i + length texts
        ∧ err = ErrClient (T "error embedding text " ++ formatInt (Z.of_nat k)
                           ++ T ": " ++ errorMessage cause)
  end.
Proof.
  revert c i embeddings. induction texts as [|text_ texts IH]; intros c i embeddings; [done|].
  cbn [embedEach]. destruct (OllamaClient_Embed c text_) as [[emb|err] c'].
  - specialize (IH c' (S i) (<[i:=emb]> embeddings)).
    destruct (embedEach c' (S i) texts _) as [[embeddings'|err] c''].
    + by rewrite length_insert in IH.
    + destruct IH as (k & cause & Hk & ->). exists k, cause. split; [simpl; lia|done].
  - exists i, err. split; [simpl; lia|done].
Qed.

(** [OllamaClient.EmbedBatch] asks for the texts one by one.  It returns
    as many embeddings as there are texts, or the error of the first
    text that failed, with the number of that text in its message; for
    no texts it returns no embeddings and asks for nothing. *)
Theorem ollama_batch_is_one_by_one (c : OllamaClient) (texts : list text) :
  match OllamaClient_EmbedBatch c texts with
  | (Ok embeddings, _) => length embeddings = length texts
  | (Err err, _) =>
      ∃ k cause,
        k < length texts
        ∧ err = ErrClient (T "error embedding text " ++ formatInt (Z.of_nat k)
                           ++ T ": " ++ errorMessage cause)
  end
  ∧ OllamaClient_EmbedBatch c [] = (Ok [], c)
  ∧ ∀ text_ rest,
      OllamaClient_EmbedBatch c (text_ :: rest)
      = match OllamaClient_Embed c text_ with
        | (Err err, c') =>
            (Err (ErrClient (T "error embedding text 0: " ++ errorMessage err)), c')
        | (Ok emb, c') =>
            embedEach c' 1 rest (emb :: replicate (length rest) [])
        end.
Proof.
  split; [|split; [done|]].
  - unfold OllamaClient_EmbedBatch.
    pose proof (embedEach_count c 0 texts (replicate (length texts) [])) as Hcount.
    destruct (embedEach c 0 texts _) as [[embeddings|err] c'].
    + by rewrite length_replicate in Hcount.
    + destruct Hcount as (k & cause & Hk & ->). exists k, cause. split; [lia|done].
  - intros text_ rest. unfold OllamaClient_EmbedBatch. cbn [embedEach length replicate].
    by destruct (OllamaClient_Embed c text_) as [[emb|err] c'].
Qed.

End Clients.

End ClientFacts.

(** ** The batches sent to the provider *)

Module BatchFacts.
Import GoString Embeddings Spec.

Lemma writeEmbeddings_fits (at_ : nat) (embeddings : list vector) (chunks : list Chunk) :
  at_ + length embeddings ≤ length chunks →
  ∃ chunks',
    writeEmbeddings at_ embeddings chunks = Returns chunks'
    ∧ length chunks' = length chunks.
Proof.
  revert at_ chunks. induction embeddings as [|emb embeddings IH]; intros at_ chunks Hfits.
  - by exists chunks.
  - cbn [writeEmbeddings]. simpl in Hfits.
    destruct (lookup_lt_is_Some_2 chunks at_) as [c Hc]; [lia|]. rewrite Hc.
    destruct (IH (S at_) (<[at_ := withEmbedding c emb]> chunks)) as (chunks' & Hwrite & Hlen).
    { rewrite length_insert. lia. }
    exists chunks'. split; [done|]. by rewrite Hlen, length_insert.
Qed.

Lemma batch_take (texts : list text) (i : nat) :
  take ((if length texts <? i + batchSize then length texts else i + batchSize) - i)
       (drop i texts)
  = take batchSize (drop i texts).
Proof.
  destruct (Nat.ltb_spec (length texts) (i + batchSize)) as [Hshort|Hlong].
  - rewrite !take_ge; [done| |]; rewrite length_drop; lia.
  - f_equal. lia.
Qed.

Lemma batches_concat (texts : list text) (m : nat) :
  concat (batch texts <$> seq 0 m) = take (m * batchSize) texts.
Proof.
  induction m as [|m IH]; [done|].
  rewrite seq_S, fmap_app, concat_app, IH. cbn [fmap list_fmap concat].
  rewrite app_nil_r. unfold batch. rewrite take_take_drop. f_equal. lia.
Qed.

Lemma batchStarts_count (n : nat) :
  let m := (n + (batchSize - 1)) / batchSize in
  n ≤ m * batchSize ∧ ∀ k, k < m → k * batchSize < n.
Proof.
  unfold batchSize. cbn zeta.
  pose proof (Nat.div_mod_eq (n + (100 - 1)) 100) as Hdiv.
  pose proof (Nat.mod_upper_bound (n + (100 - 1)) 100) as Hmod.
  split; [lia|]. intros k Hk. nia.
Qed.

End BatchFacts.

(** ** The clients on canned answers *)

Module ClientSamples.
Import GoString Embeddings.

(** Two texts; the response gives them out of order, gives one of them
    only, or gives an index that is none of theirs. *)
Example openai_batch_samples :
  OpenAIClient_EmbedBatch
    (NewOpenAIClient Samples.noenv
       ([Samples.openAIAnswer [Samples.datum 1 2; Samples.datum 0 1]], []) [])
    [T "a"; T "b"]
  = Returns (Err (ErrClient (T "OpenAI API key not set")),
             NewOpenAIClient Samples.noenv
               ([Samples.openAIAnswer [Samples.datum 1 2; Samples.datum 0 1]], []) [])
  ∧ match OpenAIClient_EmbedBatch
            (NewOpenAIClient Samples.noenv
               ([Samples.openAIAnswer [Samples.datum 1 2; Samples.datum 0 1]], [])
               (T "key"))
            [T "a"; T "b"] with
    | Returns (Ok embeddings, _) => embeddings = [[1%float]; [2%float]]
    | _ => False
    end
  ∧ match OpenAIClient_EmbedBatch
            (NewOpenAIClient Samples.noenv
               ([Samples.openAIAnswer [Samples.datum 1 2]], []) (T "key"))
            [T "a"; T "b"] with
    | Returns (Ok embeddings, _) => embeddings = [[]; [2%float]]
    | _ => False
    end
  ∧ OpenAIClient_EmbedBatch
      (NewOpenAIClient Samples.noenv
         ([Samples.openAIAnswer [Samples.datum 2 2]], []) (T "key"))
      [T "a"; T "b"] = Panics
  ∧ OpenAIClient_EmbedBatch
      (NewOpenAIClient Samples.noenv
         ([Samples.openAIAnswer [Samples.datum (-1) 2]], []) (T "key"))
      [T "a"; T "b"] = Panics
  ∧ match OpenAIClient_Embed
            (NewOpenAIClient Samples.noenv ([Samples.openAIAnswer []], []) (T "key"))
            (T "a") with
    | Returns (Ok emb, _) => emb = []
    | _ => False
    end.
Proof. by vm_compute. Qed.

(** Three texts of which the second fails. *)
Example ollama_batch_sample :
  match OllamaClient_EmbedBatch
          (NewOllamaClient Samples.noenv
             ([], [Samples.ollamaAnswer 1;
                   Ok {| ollama_Embedding := []; ollama_Error := T "busy" |};
                   Samples.ollamaAnswer 3]) [] [])
          [T "a"; T "b"; T "c"] with
  | (Err err, c) =>
      err = ErrClient (T "error embedding text 1: Ollama error: busy")
      ∧ Ollama_baseURL c = T "http://localhost:11434"
      ∧ Ollama_model c = T "nomic-embed-text"
      ∧ length (Ollama_http c).2 = 1
  | _ => False
  end.
Proof. by vm_compute. Qed.

End ClientSamples.

(** ** The search tools *)

Module HandlerFacts.
Import GoString Embeddings Main Spec TextFacts.

Lemma Search_below_zero (v : VectorStore) (queryEmbedding : vector) (locale : text)
    (topK : Z) :
  (topK < 0)%Z → VectorStore_Search v queryEmbedding locale topK = Panics.
Proof.
  intros Hneg. unfold VectorStore_Search.
  rewrite (proj2 (Z.ltb_lt topK _)) by lia.
  by rewrite (proj2 (Z.ltb_lt topK 0)).
Qed.

Section Handlers.
Context {unicode : Unicode} {os : Book.OS} {json : Book.JSON} {sort : Book.Sort}.
Context {C : Type} {embedding : EmbeddingClient C}.

(** The semantic search tool looks at the engine before it looks at the
    query: without an engine it answers that semantic search is not
    available, and with an index that is not built that the index is not
    built, whatever the query is, the empty one included, and the engine
    and its client are left as they were; with an index and an empty
    query it answers that a query is required.  Otherwise the query is embedded: the
    provider's error is reported; a negative [top_k] makes the handler
    panic; else the answer is what the store's search returns, or the
    text that nothing was found when that is empty, as it is for a
    [top_k] of 0. *)
Theorem semantic_search_tool (engine : SemanticEngine C) (query locale : text) (topK : Z) :
  handleSemanticSearch (C := C) None query locale topK
  = Returns (None,
             ToolError (T "Semantic search not available. Set OPENAI_API_KEY or ensure Ollama is running."))
  ∧ (isIndexed engine = false →
     handleSemanticSearch (Some engine) query locale topK
     = Returns (Some engine,
                ToolError (T "Semantic index not built. Run 'build_semantic_index' first.")))
  ∧ (isIndexed engine = true → query = [] →
     handleSemanticSearch (Some engine) query locale topK
     = Returns (Some engine, ToolError (T "query is required")))
  ∧ (isIndexed engine = true → query ≠ [] →
     match Embed (client engine) query with
     | (Err err, client') =>
         handleSemanticSearch (Some engine) query locale topK
         = Returns (Some (withClient engine client'),
                    ToolSearchErrorOf (T "Search error: ") err)
     | (Ok queryEmbedding, client') =>
         ((topK < 0)%Z → handleSemanticSearch (Some engine) query locale topK = Panics)
         ∧ ((0 ≤ topK)%Z →
            ∃ results,
              VectorStore_Search (store engine) queryEmbedding locale topK = Returns results
              ∧ handleSemanticSearch (Some engine) query locale topK
                = Returns (Some (withClient engine client'),
                           if length results =? 0
                           then ToolText (T "No semantic matches found for: " ++ query)
                           else ToolJSONMatches results)
              ∧ (topK = 0%Z → results = []))
     end).
Proof.
  unfold handleSemanticSearch, SemanticEngine_IsIndexed, SemanticEngine_Search, withClient.
  split; [done|]. split; [|split].
  - by intros ->.
  - intros -> ->. done.
  - intros -> Hquery. cbn [negb]. rewrite bool_decide_false by done.
    destruct (Embed (client engine) query) as [[queryEmbedding|err] client']; [|done].
    split.
    + intros Hneg. by rewrite Search_below_zero.
    + intros Hpos. rewrite <- (Z2Nat.id topK Hpos), VectorFacts.Search_first.
      eexists. split; [reflexivity|]. split; [done|].
      intros Hzero. replace (Z.to_nat topK) with 0 by lia. done.
Qed.

Context {sortLaws : Book.SortLaws sort} {unicodeLaws : UnicodeLaws unicode}.

(** The keyword search tool wants a query that is not empty.  With one,
    a locale that cannot be listed is reported as an error; a query that
    finds no line, as every query made of white space does, is answered
    with the text that nothing was found, which is no error; and else at
    most 20 hits are returned, and at least one. *)
Theorem search_book_tool (parser : Book.Parser) (query locale : text) :
  (query = [] → handleSearchBook parser query locale = ToolError (T "query is required"))
  ∧ (query ≠ [] →
     match Book.ListChapters parser locale with
     | Err err =>
         handleSearchBook parser query locale = ToolErrorOf (T "Error searching: ") err
     | Ok chapters =>
         (allHits (Fields (ToLower query)) locale chapters = [] →
          handleSearchBook parser query locale
          = ToolText (T "No results found for: " ++ query))
         ∧ (allHits (Fields (ToLower query)) locale chapters ≠ [] →
            ∃ results,
              handleSearchBook parser query locale = ToolJSONHits results
              ∧ results ≠ [] ∧ length results ≤ 20)
         ∧ (forallb isSpace query = true →
            handleSearchBook parser query locale
            = ToolText (T "No results found for: " ++ query))
     end).
Proof.
  unfold handleSearchBook. split; [by intros ->|].
  intros Hquery. rewrite bool_decide_false by done.
  destruct (Book.ListChapters parser locale) as [chapters|err] eqn:Hlist.
  - destruct (SearchFacts.Search_ranked parser query locale chapters Hlist)
      as (ranked & -> & Hperm & _).
    assert (allHits (Fields (ToLower query)) locale chapters = [] →
            (if length (take 20 ranked) =? 0
             then ToolText (T "No results found for: " ++ query)
             else ToolJSONHits (take 20 ranked))
            = ToolText (T "No results found for: " ++ query)) as Hnone.
    { intros Hhits. rewrite Hhits in Hperm. apply Permutation_nil_r in Hperm. by subst ranked. }
    split; [done|]. split.
    + intros Hhits. exists (take 20 ranked).
      destruct ranked as [|r ranked].
      { apply Permutation_nil_l in Hperm. by destruct Hhits. }
      split; [done|]. split; [done|]. rewrite length_take. lia.
    + intros Hblank. apply Hnone.
      rewrite SearchFacts.ToLower_blank, SearchFacts.Fields_blank by done.
      apply SearchFacts.allHits_no_words.
  - unfold Book.Search. by rewrite Hlist.
Qed.

End Handlers.

Lemma search_book_tool_witness :
  handleSearchBook (unicode := asciiTables) (os := Samples.memOS Samples.greekBook)
                   (json := Samples.emptyArrayOnly) (sort := Samples.mergeSort)
                   Samples.parser (T "  ") (T "el")
  = ToolText (T "No results found for:   ").
Proof.
  pose proof (search_book_tool
                (unicode := asciiTables) (os := Samples.memOS Samples.greekBook)
                (json := Samples.emptyArrayOnly) (sort := Samples.mergeSort)
                (sortLaws := SearchFacts.mergeSort_laws)
                (unicodeLaws := TextFacts.asciiTables_laws)
                Samples.parser (T "  ") (T "el")) as [_ Htool].
  specialize (Htool ltac:(done)).
  destruct (Book.ListChapters _ _) as [chapters|err] eqn:Hlist in Htool;
    [|by vm_compute in Hlist].
  destruct Htool as (_ & _ & Hblank). by apply Hblank.
Defined.

(** The tools on the sample book. *)
Example tools_on_the_sample_book :
  handleReadChapter (unicode := asciiTables) (os := Samples.memOS Samples.book)
                    (json := Samples.emptyArrayOnly) (sort := Samples.mergeSort)
                    Samples.parser [] (T "ports") (T "es")
  = ToolError (T "chapter_id is required")
  ∧ handleReadChapter (unicode := asciiTables) (os := Samples.memOS Samples.book)
                      (json := Samples.emptyArrayOnly) (sort := Samples.mergeSort)
                      Samples.parser (T "hexagonal") (T "ports") (T "es")
    = ToolText (T "## Ports

A port is an interface owned by the core.")
  ∧ handleReadChapter (unicode := asciiTables) (os := Samples.memOS Samples.book)
                      (json := Samples.emptyArrayOnly) (sort := Samples.mergeSort)
                      Samples.parser (T "clean-agile") [] (T "es")
    = ToolText (T "# Clean Agile

# Clean Agile
Agile is about small teams doing small things.")
  ∧ handleReadChapter (unicode := asciiTables) (os := Samples.memOS Samples.book)
                      (json := Samples.emptyArrayOnly) (sort := Samples.mergeSort)
                      Samples.parser (T "scrum") [] (T "es")
    = ToolErrorOf (T "Error reading chapter: ") (Book.ErrChapterNotFound (T "scrum"))
  ∧ handleSearchBook (unicode := asciiTables) (os := Samples.memOS Samples.book)
                     (json := Samples.emptyArrayOnly) (sort := Samples.mergeSort)
                     Samples.parser (T "scrum") (T "es")
    = ToolText (T "No results found for: scrum")
  ∧ handleSemanticSearch (Some (NewSemanticEngine [Some Samples.unitVector])) [] (T "es") 5
    = Returns (Some (NewSemanticEngine [Some Samples.unitVector]),
               ToolError (T "Semantic index not built. Run 'build_semantic_index' first.")).
Proof. by vm_compute. Qed.

End HandlerFacts.

(** ** What the engine does with the answer of the provider *)

Module AnswerFacts.
Import GoString Embeddings Spec.

Lemma writeEmbeddings_lookup (at_ : nat) (embeddings : list vector)
    (chunks chunks' : list Chunk) (i : nat) :
  writeEmbeddings at_ embeddings chunks = Returns chunks' →
  chunks' !! i = written_at at_ embeddings i <$> chunks !! i.
Proof.
  revert at_ chunks. induction embeddings as [|emb embeddings IH]; intros at_ chunks.
  - intros [= <-]. unfold written_at. destruct (chunks !! i) as [c|]; [|done].
    simpl. destruct (decide (at_ ≤ i)); by rewrite ?lookup_nil.
  - cbn [writeEmbeddings]. destruct (chunks !! at_) as [c|] eqn:Hat; [|done].
    intros Hrest%IH. rewrite Hrest.
    destruct (decide (i = at_)) as [->|Hne].
    + rewrite list_lookup_insert_eq by by eapply lookup_lt_Some.
      rewrite Hat. simpl. f_equal. unfold written_at.
      rewrite decide_False by lia. rewrite decide_True by lia.
      by rewrite Nat.sub_diag.
    + rewrite list_lookup_insert_ne by done.
      destruct (chunks !! i) as [ci|]; [|done]. simpl. f_equal. unfold written_at.
      destruct (decide (S at_ ≤ i)) as [Hle|Hgt].
      * rewrite decide_True by lia.
        by replace (i - at_) with (S (i - S at_)) by lia.
      * by rewrite decide_False by lia.
Qed.

Lemma writeEmbeddings_written (at_ : nat) (embeddings : list vector)
    (chunks chunks' : list Chunk) :
  writeEmbeddings at_ embeddings chunks = Returns chunks' →
  chunks' = imap (written_at at_ embeddings) chunks.
Proof.
  intros Hwrite. apply list_eq. intros i.
  by rewrite list_lookup_imap, (writeEmbeddings_lookup _ _ _ _ _ Hwrite).
Qed.

Lemma writeEmbeddings_panics (at_ : nat) (embeddings : list vector) (chunks : list Chunk) :
  writeEmbeddings at_ embeddings chunks = Panics
  ↔ embeddings ≠ [] ∧ length chunks < at_ + length embeddings.
Proof.
  revert at_ chunks. induction embeddings as [|emb embeddings IH]; intros at_ chunks.
  - split; [done|]. by intros [? _].
  - cbn [writeEmbeddings length]. destruct (chunks !! at_) as [c|] eqn:Hat.
    + rewrite IH, length_insert. apply lookup_lt_Some in Hat. split.
      * intros [_ Hlong]. split; [done|lia].
      * intros [_ Hlong]. split; [|lia]. intros ->. simpl in Hlong. lia.
    + apply lookup_ge_None in Hat. split; [|done]. intros _. split; [done|lia].
Qed.

Section Engine.
Context {C : Type} {embedding : EmbeddingClient C}.

Lemma batchStarts_one (n : nat) : 0 < n → n ≤ 100 → batchStarts n = [0].
Proof.
  intros Hpos Hle. unfold batchStarts, batchSize.
  replace ((n + (100 - 1)) / 100) with 1; [done|].
  apply (Nat.div_unique _ _ _ (n - 1)); lia.
Qed.

(** [IndexChunks] takes the answer of the provider as it comes.  For
    chunks that make one batch: an answer of fewer embeddings than
    chunks is no error, the chunks left over are stored without an
    embedding; an answer of more embeddings than chunks makes the call
    panic.  The chunks stored are the chunks given, each with the
    embedding at its place in the answer. *)
Theorem index_chunks_trusts_the_answer (e : SemanticEngine C) (chunks : list Chunk)
    (embeddings : list vector) (client' : C) :
  chunks ≠ [] → length chunks ≤ 100 →
  EmbedBatch (client e) (Chunk_Content <$> chunks) = (Ok embeddings, client') →
  (length chunks < length embeddings → SemanticEngine_IndexChunks e chunks = Panics)
  ∧ (length embeddings ≤ length chunks →
     SemanticEngine_IndexChunks e chunks
     = Returns ({| client := client';
                   store := VectorStore_AddBatch (store e)
                              (imap (written_at 0 embeddings) chunks);
                   isIndexed := true |},
                imap (written_at 0 embeddings) chunks, None)).
Proof.
  intros Hsome Hbatch Hanswer. unfold SemanticEngine_IndexChunks.
  rewrite batchStarts_one; [|rewrite length_fmap; destruct chunks; [done|simpl; lia]
                            |by rewrite length_fmap].
  cbn [embedBatches]. rewrite BatchFacts.batch_take, drop_0.
  rewrite take_ge by (rewrite length_fmap; unfold batchSize; lia).
  rewrite Hanswer.
  destruct (writeEmbeddings 0 embeddings chunks) as [chunks'|] eqn:Hwrite.
  - split.
    + intros Hlong.
      assert (writeEmbeddings 0 embeddings chunks = Panics) as Hpanic.
      { apply writeEmbeddings_panics. split; [|lia]. intros ->. simpl in Hlong. lia. }
      congruence.
    + intros _. by rewrite (writeEmbeddings_written _ _ _ _ Hwrite).
  - split; [done|]. intros Hfits.
    apply writeEmbeddings_panics in Hwrite as [_ Hlong]. lia.
Qed.

End Engine.

Lemma index_chunks_trusts_the_answer_witness :
  SemanticEngine_IndexChunks (NewSemanticEngine [Some Samples.unitVector])
                             [Samples.plainChunk 1]
  = Returns ({| client := [];
                store := {| chunks := [withEmbedding (Samples.plainChunk 1) Samples.unitVector] |};
                isIndexed := true |},
             [withEmbedding (Samples.plainChunk 1) Samples.unitVector], None).
Proof.
  destruct (index_chunks_trusts_the_answer
              (NewSemanticEngine [Some Samples.unitVector]) [Samples.plainChunk 1]
              [Samples.unitVector] []) as [_ Hfits]; [done|simpl; lia|done|].
  rewrite Hfits by (simpl; lia). reflexivity.
Defined.

End AnswerFacts.

(** ** The hits of the keyword search *)

Module HitFacts.
Import GoString Book Spec TextFacts.

Lemma takeWhile_length {A} (p : A → bool) (l : list A) (i : nat) (x : A) :
  l !! i = Some x → p x = false → length (takeWhile p l) ≤ i.
Proof.
  revert i. induction l as [|y l IH]; intros i; [done|].
  destruct i as [|i]; simpl.
  - intros [= ->] ->. simpl. lia.
  - intros Hx Hp. destruct (p y); simpl; [|lia].
    specialize (IH i Hx Hp). lia.
Qed.

Lemma snippetOf_len (line : text) : len (snippetOf line) ≤ 203.
Proof.
  unfold snippetOf. destruct (Nat.ltb_spec 200 (len line)) as [Hlong|Hshort]; [|lia].
  rewrite len_app, len_sliceTo by lia. change (len (T "...")) with 3. lia.
Qed.

Section Hits.
Context {unicode : Unicode} {os : OS} {json : JSON} {sort : Sort}.

Lemma hitAt_hitOf (queryWords : list text) (locale : text) (chapters : list Chapter)
    (chapter : Chapter) (i : nat) (line : text) (r : SearchResult) :
  chapter ∈ chapters →
  ScanLines (Chapter_Content chapter) !! i = Some line →
  hitAt queryWords chapter locale (ScanLines (Chapter_Content chapter)) i line = Some r →
  hitOf queryWords locale chapters r
  ∧ (0 < Result_Relevance r)%Q ∧ (Result_Relevance r <= 1)%Q.
Proof.
  intros Hchapter Hline. unfold hitAt.
  destruct (Nat.ltb_spec 0 (wordsFound queryWords (ToLower line))) as [Hfound|]; [|done].
  intros [= <-]. cbn [Result_Relevance]. split; [|split].
  - exists chapter, line.
    cbn [Result_ChapterID Result_ChapterName Result_Locale Result_LineNumber Result_Section
         Result_Snippet].
    replace (S i - 1) with i by lia.
    repeat split; try done; [lia| |].
    + unfold wordsFound in Hfound.
      destruct (filter _ queryWords) as [|word found] eqn:Hfilter; [simpl in Hfound; lia|].
      exists word.
      assert (word ∈ filter (λ word, Contains (ToLower line) word = true) queryWords)
        as [Hword Hin]%list_elem_of_filter by (rewrite Hfilter; apply list_elem_of_here).
      by split.
    + intros k long Hlong Hbig.
      assert (length (ScanLines (Chapter_Content chapter)) ≤ k) as Hstop.
      { unfold ScanLines. rewrite length_fmap.
        eapply takeWhile_length; [exact Hlong|].
        unfold fitsBuffer. apply Nat.ltb_ge. exact Hbig. }
      apply lookup_lt_Some in Hline. lia.
  - unfold Qlt. simpl. lia.
  - pose proof (SearchFacts.wordsFound_le queryWords (ToLower line)) as Hle.
    unfold Qle. simpl. rewrite Z.mul_1_r.
    destruct (length queryWords) as [|n] eqn:Hwords; [lia|].
    pose proof (Nat2Pos.id (S n) ltac:(lia)) as Hpos.
    assert (Z.pos (Pos.of_nat (S n)) = Z.of_nat (S n)) as -> by lia. lia.
Qed.

Lemma allHits_hitOf (queryWords : list text) (locale : text) (chapters : list Chapter)
    (r : SearchResult) :
  r ∈ allHits queryWords locale chapters →
  hitOf queryWords locale chapters r
  ∧ (0 < Result_Relevance r)%Q ∧ (Result_Relevance r <= 1)%Q.
Proof.
  unfold allHits. intros (chapter & Hr & Hchapter)%list_elem_of_bind.
  unfold chapterHits in Hr. apply list_elem_of_omap in Hr as (o & Ho & Hid).
  simpl in Hid. subst o.
  apply elem_of_lookup_imap_1 in Ho as (i & line & Hhit & Hline).
  symmetry in Hhit. by eapply hitAt_hitOf.
Qed.

Context {sortLaws : SortLaws sort}.

(** Every hit the keyword search returns is a hit of a line of a chapter
    of the locale: it names that chapter and the locale, its line number
    counts the lines of the chapter from 1, its section is the text of
    the last heading up to its line (empty before the first), and its
    line has a word of the query.  Its relevance is above 0 and at most
    1, and its snippet has at most 203 bytes.  No hit comes from a line
    at or behind a line of 64 KiB or more: there the scanner stops, and
    the rest of the chapter is not searched. *)
Theorem hits_are_well_formed (p : Parser) (query locale : text) (chapters : list Chapter)
    (results : list SearchResult) :
  ListChapters p locale = Ok chapters →
  Search p query locale = Ok results →
  Forall (λ r, hitOf (Fields (ToLower query)) locale chapters r
               ∧ (0 < Result_Relevance r)%Q ∧ (Result_Relevance r <= 1)%Q
               ∧ len (Result_Snippet r) ≤ 203) results.
Proof.
  intros Hlist Hsearch.
  destruct (SearchFacts.Search_ranked p query locale chapters Hlist)
    as (ranked & Hranked & Hperm & _).
  rewrite Hsearch in Hranked. injection Hranked as ->.
  apply Forall_forall. intros r Hr%subseteq_take.
  rewrite Hperm in Hr.
  destruct (allHits_hitOf _ _ _ _ Hr) as (Hhit & Hpos & Hone).
  repeat split; try done.
  destruct Hhit as (chapter & line & _ & _ & _ & _ & _ & _ & _ & -> & _).
  apply snippetOf_len.
Qed.

End Hits.

Lemma hits_are_well_formed_witness :
  ∃ results,
    Search (unicode := asciiTables) (os := Samples.memOS Samples.book)
           (json := Samples.emptyArrayOnly) (sort := Samples.mergeSort)
           Samples.parser (T "port core") (T "es") = Ok results
    ∧ length results = 5
    ∧ Forall (λ r, (0 < Result_Relevance r)%Q ∧ (Result_Relevance r <= 1)%Q
                   ∧ len (Result_Snippet r) ≤ 203) results.
Proof.
  eexists.
  match goal with
  | |- ?S = Ok ?results ∧ _ =>
      assert (S = Ok results) as Hsearch by (vm_compute; reflexivity)
  end.
  split; [exact Hsearch|]. split; [by vm_compute|].
  assert (∃ chapters,
            ListChapters (os := Samples.memOS Samples.book) (json := Samples.emptyArrayOnly)
                         (sort := Samples.mergeSort) Samples.parser (T "es") = Ok chapters)
    as [chapters Hlist].
  { vm_compute. by eexists. }
  eapply Forall_impl;
    [exact (hits_are_well_formed (sortLaws := SearchFacts.mergeSort_laws)
              _ _ _ _ _ Hlist Hsearch)|].
  intros r (_ & Hpos & Hone & Hlen). done.
Defined.

End HitFacts.

(** ** The tool that reads a chapter *)

Module ReadFacts.
Import GoString Book Main Spec TextFacts.

Lemma dropWhile_stops {A} (f : A → bool) (l : list A) (y : A) (rest : list A) :
  dropWhile f l = y :: rest → f y = false.
Proof.
  induction l as [|x l IH]; simpl; [done|].
  destruct (f x) eqn:Hx; [exact IH|]. by intros [= <- _].
Qed.

Section Read.
Context {unicode : Unicode} {os : OS} {json : JSON} {sort : Sort}.

(** A section that is found comes back as a text that starts with the
    mark of its heading. *)
Lemma GetSection_mark (p : Parser) (chapterID sectionTagID locale content : text) :
  GetSection p chapterID sectionTagID locale = Ok content →
  ∃ rest, content = Rune 35 :: rest.
Proof.
  destruct (GetChapter p chapterID locale) as [chapter|err] eqn:Hchapter;
    [|by unfold GetSection; rewrite Hchapter].
  rewrite (SectionFacts.GetSection_lines _ _ _ _ _ Hchapter). unfold sectionLines.
  destruct (dropWhile _ _) as [|heading after] eqn:Hdrop; [done|].
  apply dropWhile_stops, negb_false_iff in Hdrop. unfold headingOf in Hdrop.
  destruct (headerMatch heading) as [headerText|] eqn:Hmatch; [|done].
  intros [= <-]. rewrite <- app_assoc.
  destruct (SectionFacts.headerMatch_mark _ _ Hmatch) as [rest ->].
  set (more := T "
" ++ unlines (takeWhile (λ line, negb (otherHeading p sectionTagID line)) after)).
  assert (TrimSpace ((Rune 35 :: rest) ++ more)
          = trimRight isSpace ((Rune 35 :: rest) ++ more)) as -> by done.
  rewrite <- app_comm_cons.
  destruct (SectionFacts.trimRight_keep_head (Rune 35) (rest ++ more))
    as [t ->]; [done|]. by exists t.
Qed.

(** The tool that reads a chapter wants a chapter identifier, also when
    a section is asked for.  A chapter that cannot be fetched is
    reported with the error of the fetch, under the prefix of the
    section when a section was asked for and of the chapter otherwise.
    Without a section the tool answers with the chapter's name as a
    first-level heading, an empty line and the content.  With a section
    it answers with the section alone, which starts with the mark of its
    heading, or with the error that the section was not found; the
    chapter's name is not put before a section. *)
Theorem read_chapter_tool (parser : Parser) (chapterID sectionID locale : text) :
  (chapterID = [] →
   handleReadChapter parser chapterID sectionID locale
   = ToolError (T "chapter_id is required"))
  ∧ (chapterID ≠ [] →
     match GetChapter parser chapterID locale with
     | Err err =>
         handleReadChapter parser chapterID sectionID locale
         = ToolErrorOf (if bool_decide (sectionID = [])
                        then T "Error reading chapter: "
                        else T "Error reading section: ") err
     | Ok chapter =>
         (sectionID = [] →
          handleReadChapter parser chapterID sectionID locale
          = ToolText (T "# " ++ Chapter_Name chapter ++ T "

" ++ Chapter_Content chapter))
         ∧ (sectionID ≠ [] →
            match handleReadChapter parser chapterID sectionID locale with
            | ToolText content =>
                GetSection parser chapterID sectionID locale = Ok content
                ∧ ∃ rest, content = Rune 35 :: rest
            | ToolErrorOf prefix err =>
                prefix = T "Error reading section: "
                ∧ err = ErrSectionNotFound sectionID
            | _ => False
            end)
     end).
Proof.
  unfold handleReadChapter. split.
  - intros ->. by rewrite bool_decide_eq_true_2.
  - intros Hid. rewrite (bool_decide_eq_false_2 _ Hid).
    destruct (GetChapter parser chapterID locale) as [chapter|err] eqn:Hchapter.
    + split.
      * intros ->. by rewrite bool_decide_eq_true_2.
      * intros Hsection. rewrite (bool_decide_eq_false_2 _ Hsection). cbn [negb].
        destruct (GetSection parser chapterID sectionID locale) as [content|err] eqn:Hget.
        -- split; [done|]. by eapply GetSection_mark.
        -- split; [done|].
           rewrite (SectionFacts.GetSection_lines _ _ _ _ _ Hchapter) in Hget.
           by destruct (sectionLines _ _ _); simplify_eq.
    + destruct (bool_decide_reflect (sectionID = [])) as [->|Hsection]; cbn [negb].
      * done.
      * unfold GetSection. by rewrite Hchapter.
Qed.

End Read.
End ReadFacts.

(** ** The chunks of a document *)

Module DocumentFacts.
Import GoString Embeddings Main Spec TextFacts.

(** A section that is too long comes out as pieces of whole paragraphs
    of its own. *)
Lemma splitLongContent_whole (content : text) (maxLen : nat) :
  maxLen < len content →
  Forall (wholeParagraphs maxLen (Split content paragraphBreak))
         (splitLongContent content maxLen).
Proof.
  intros Hlong. unfold splitLongContent.
  rewrite (proj2 (Nat.leb_gt _ _)) by done.
  pose proof (ChunkFacts.foldl_buffered maxLen (Split content paragraphBreak)
                (Split content paragraphBreak) [] ([], []) eq_refl) as Hfold.
  destruct Hfold as [Hchunks (before & held & Hdone & Hcurrent & Hfirst & Hlimit)].
  { split; [done|]. exists [], []. repeat split; try done.
    intros init final Hnil. by destruct init. }
  change (T "

") with paragraphBreak.
  destruct (foldl (addParagraph maxLen) ([], []) (Split content paragraphBreak))
    as [chunks current].
  simpl in *.
  destruct (bool_decide_reflect (current = [])) as [Hempty|Hfull]; [done|].
  cbn [negb]. apply Forall_app. split; [done|]. constructor; [|done].
  exists before, held, []. rewrite app_nil_r. repeat split; try done.
  - intros ->. by subst current.
  - by subst current.
Qed.

Lemma pieceLabels_origin (chapterID chapterName locale header : text)
    (pieces : list text) (idCounter : Z) :
  labelled <$> (sectionChunks chapterID chapterName locale header
                              (1 <? length pieces) 0 pieces idCounter).1
  = pieceLabels header pieces.
Proof.
  destruct (SplitterFacts.sectionChunks_origin chapterID chapterName locale header
              (1 <? length pieces) 0 pieces idCounter) as [_ ->].
  unfold pieceLabels. destruct (1 <? length pieces); [done|].
  rewrite <- (imap_const (λ piece, (header, piece))).
  apply imap_ext. intros k piece _. simpl. by rewrite app_nil_r.
Qed.

(** The chunks of the pieces of one section. *)
Lemma sectionChunks_section (chapterID chapterName locale header section : text)
    (idCounter : Z) :
  section ≠ [] →
  Forall (chunkOfSection 1000 header section)
    (sectionChunks chapterID chapterName locale header
                   (1 <? length (splitLongContent section 1000)) 0
                   (splitLongContent section 1000) idCounter).1.
Proof.
  intros Hsection. apply Forall_forall. intros c Hc.
  apply (list_elem_of_fmap_2 labelled) in Hc. rewrite pieceLabels_origin in Hc.
  split; [done|]. unfold pieceLabels in Hc.
  destruct (Nat.leb_spec (len section) 1000) as [Hfits|Hlong].
  - left. unfold splitLongContent in Hc. rewrite (proj2 (Nat.leb_le _ _)) in Hc by done.
    cbn in Hc. apply list_elem_of_singleton in Hc. unfold labelled in Hc.
    by injection Hc as -> ->.
  - right. split; [done|].
    pose proof (splitLongContent_whole section 1000 Hlong) as Hwhole.
    destruct (1 <? length (splitLongContent section 1000)).
    + apply list_elem_of_lookup_1 in Hc as [k Hk].
      rewrite list_lookup_imap in Hk.
      destruct (splitLongContent section 1000 !! k) as [piece|] eqn:Hpiece; [|done].
      cbn [fmap option_fmap option_map] in Hk.
      assert (labelled c = (header ++ partSuffix k, piece)) as Hlabel by congruence.
      unfold labelled in Hlabel. injection Hlabel as -> ->.
      split; [|by right; exists k].
      eapply Forall_lookup_1; [exact Hwhole | exact Hpiece].
    + apply list_elem_of_fmap in Hc as (piece & Hlabel & Hpiece).
      unfold labelled in Hlabel. injection Hlabel as -> ->.
      split; [|by left].
      eapply Forall_forall; [exact Hwhole | exact Hpiece].
Qed.

Lemma sectionContent_default (sections : list text) (i : nat) :
  (if i + 1 <? length sections then TrimSpace (default [] (sections !! (i + 1))) else [])
  = TrimSpace (default [] (sections !! S i)).
Proof.
  rewrite Nat.add_1_r. destruct (Nat.ltb_spec (S i) (length sections)) as [Hin|Hout]; [done|].
  by rewrite lookup_ge_None_2 by lia.
Qed.

(** The chunks of the sections under the headings, the first of which
    is heading [i]. *)
Lemma headerChunks_sections (chapterID chapterName locale : text) (sections : list text)
    (i : nat) (headers : list text) (idCounter : Z) :
  Forall (λ c, ∃ j header,
            headers !! j = Some header
            ∧ chunkOfSection 1000 header
                (TrimSpace (default [] (sections !! S (i + j)))) c)
    (headerChunks chapterID chapterName locale sections i headers idCounter).1.
Proof.
  revert i idCounter. induction headers as [|header headers IH]; intros i idCounter; [done|].
  cbn [headerChunks]. rewrite sectionContent_default.
  assert (∀ counter,
            Forall (λ c, ∃ j header0,
                      (header :: headers) !! j = Some header0
                      ∧ chunkOfSection 1000 header0
                          (TrimSpace (default [] (sections !! S (i + j)))) c)
              (headerChunks chapterID chapterName locale sections (S i) headers counter).1)
    as Hmore.
  { intros counter. eapply Forall_impl; [apply IH|].
    intros c (j & header0 & Hj & Hc). exists (S j), header0. split; [done|].
    by replace (i + S j) with (S i + j) by lia. }
  destruct (bool_decide_reflect (TrimSpace (default [] (sections !! S i)) = []))
    as [Hempty|Hsection]; [apply Hmore|].
  pose proof (sectionChunks_section chapterID chapterName locale header _ idCounter Hsection)
    as Hchunks.
  destruct (sectionChunks _ _ _ _ _ _ _ _) as [chunks counter].
  specialize (Hmore counter).
  destruct (headerChunks _ _ _ _ _ _ _) as [more counter'].
  cbn [fst] in *. apply Forall_app. split; [|done].
  eapply Forall_impl; [exact Hchunks|].
  intros c Hc. exists 0, header. split; [done|]. by rewrite Nat.add_0_r.
Qed.

(** The labels and contents of the chunks of the sections, heading by
    heading. *)
Lemma headerChunks_labelled (chapterID chapterName locale : text) (sections : list text)
    (i : nat) (headers : list text) (idCounter : Z) :
  labelled <$> (headerChunks chapterID chapterName locale sections i headers idCounter).1
  = concat (zip_with sectionLabelled headers (drop (S i) sections)).
Proof.
  revert i idCounter. induction headers as [|header headers IH]; intros i idCounter; [done|].
  cbn [headerChunks]. rewrite sectionContent_default.
  destruct (sections !! S i) as [section|] eqn:Hsection.
  - rewrite (drop_S _ _ _ Hsection). cbn [zip_with concat].
    change (default [] (Some section)) with section.
    unfold sectionLabelled at 1.
    destruct (bool_decide_reflect (TrimSpace section = [])) as [Hempty|Hfull];
      [by rewrite IH|].
    pose proof (pieceLabels_origin chapterID chapterName locale header
                  (splitLongContent (TrimSpace section) 1000) idCounter) as Hlabels.
    destruct (sectionChunks _ _ _ _ _ _ _ _) as [chunks counter].
    specialize (IH (S i) counter).
    destruct (headerChunks _ _ _ _ _ _ _) as [more counter'].
    cbn [fst] in *. by rewrite fmap_app, Hlabels, IH.
  - change (TrimSpace (default [] None)) with (@nil gochar).
    rewrite bool_decide_eq_true_2 by done. rewrite IH.
    apply lookup_ge_None_1 in Hsection.
    rewrite !drop_ge by lia. by destruct headers.
Qed.

(** C1, as the code has it.  The chunks of a document body are the
    introduction, if the text before the first level-2 heading is not
    white space only, and then the chunks of the sections.  The
    introduction holds that text trimmed: whole when it is at most 1000
    bytes long, and else its first 1000 bytes followed by three dots,
    1003 bytes.  Every other chunk is made of the section under a
    heading of the document: a section of at most 1000 bytes is one
    chunk; a longer section is split at blank lines into pieces of whole
    consecutive paragraphs, joined by blank lines and trimmed; the
    splitter adds a paragraph to a buffer that is not empty only when the
    buffer and the paragraph are at most 1000 bytes together, and a
    paragraph that is longer than 1000 bytes by itself is a piece of its
    own, neither split nor cut. *)
Theorem chunks_are_bounded_by_paragraphs (content chapterID chapterName locale : text)
    (idCounter : Z) :
  let sections := (splitHeaders true 0 content).1 in
  let headers := (splitHeaders true 0 content).2 in
  let preamble := TrimSpace (default [] (sections !! 0)) in
  ∃ intro rest,
    (splitIntoChunks content chapterID chapterName locale idCounter).1 = intro ++ rest
    ∧ match intro with
      | [] => preamble = []
      | [c] => preamble ≠ [] ∧ introductionOf 1000 preamble c
      | _ => False
      end
    ∧ Forall (λ c, ∃ i header,
                headers !! i = Some header
                ∧ chunkOfSection 1000 header
                    (TrimSpace (default [] (sections !! S i))) c) rest.
Proof.
  cbn zeta. unfold splitIntoChunks.
  destruct (splitHeaders true 0 content) as [sections headers]. cbn [fst snd].
  destruct (bool_decide_reflect (TrimSpace (default [] (sections !! 0)) = []))
    as [Hempty|Hpreamble].
  - rewrite andb_false_r.
    pose proof (headerChunks_sections chapterID chapterName locale sections 0 headers
                  idCounter) as Hmore.
    destruct (headerChunks _ _ _ _ _ _ _) as [more counter].
    exists [], more. by repeat split.
  - assert ((0 <? length sections) = true) as ->.
    { apply Nat.ltb_lt. destruct sections; [done | simpl; lia]. }
    cbn [andb negb].
    pose proof (headerChunks_sections chapterID chapterName locale sections 0 headers
                  (wrapInt (idCounter + 1))) as Hmore.
    destruct (headerChunks _ _ _ _ _ _ _) as [more counter].
    eexists [_], more. split; [done|]. split; [|done].
    split; [done|]. split; [done|]. cbn [Chunk_Content].
    destruct (ChunkFacts.truncateContent_len (TrimSpace (default [] (sections !! 0))) 1000)
      as (Hwhole & Hcut & _).
    split; [exact Hwhole | exact Hcut].
Qed.

(** Every chunk of a chapter carries the chapter's identifier and name
    and the locale, and has no embedding yet.  The labels and the
    contents of the chunks are those of the document: the introduction,
    if the text before the first heading is not white space only, under
    the label [Introduction]; then, heading by heading in the order of
    the document, the pieces of the section under the heading, labelled
    with the heading, followed by [(part 1)], [(part 2)], ... in their
    order when the section has more than one piece; a section of white
    space has no chunk. *)
Theorem chunks_carry_their_origin (content chapterID chapterName locale : text)
    (idCounter : Z) :
  let sections := (splitHeaders true 0 content).1 in
  let headers := (splitHeaders true 0 content).2 in
  let preamble := TrimSpace (default [] (sections !! 0)) in
  Forall (chunkOf chapterID chapterName locale)
         (splitIntoChunks content chapterID chapterName locale idCounter).1
  ∧ labelled <$> (splitIntoChunks content chapterID chapterName locale idCounter).1
    = (if bool_decide (preamble = []) then []
       else [(T "Introduction", truncateContent preamble 1000)])
      ++ concat (zip_with sectionLabelled headers (drop 1 sections)).
Proof.
  cbn zeta. unfold splitIntoChunks.
  destruct (splitHeaders true 0 content) as [sections headers]. cbn [fst snd].
  assert (∀ counter,
            Forall (chunkOf chapterID chapterName locale)
              (headerChunks chapterID chapterName locale sections 0 headers counter).1
            ∧ labelled <$> (headerChunks chapterID chapterName locale sections 0 headers
                                         counter).1
              = concat (zip_with sectionLabelled headers (drop 1 sections))) as Hmore.
  { intros counter. split; [apply SplitterFacts.headerChunks_origin|].
    apply headerChunks_labelled. }
  destruct (bool_decide_reflect (TrimSpace (default [] (sections !! 0)) = []))
    as [Hempty|Hpreamble].
  - rewrite andb_false_r. destruct (Hmore idCounter) as [Horigin Hlabels].
    by destruct (headerChunks _ _ _ _ _ _ _) as [more counter].
  - assert ((0 <? length sections) = true) as ->.
    { apply Nat.ltb_lt. destruct sections; [done | simpl; lia]. }
    cbn [andb negb]. destruct (Hmore (wrapInt (idCounter + 1))) as [Horigin Hlabels].
    destruct (headerChunks _ _ _ _ _ _ _) as [more counter].
    cbn [fst app] in *. split; [by constructor|].
    by rewrite fmap_cons, Hlabels.
Qed.

(** Two sections under their headings and the text before them. *)
Example chunks_of_a_document :
  labelled <$> (splitIntoChunks (T "Before.
## Ports
A port.
##   Adapters
An adapter.
") (T "ch") (T "Chapter") (T "es") 0).1
  = [(T "Introduction", T "Before."); (T "Ports", T "A port.");
     (T "Adapters", T "An adapter.")].
Proof. by vm_compute. Qed.

End DocumentFacts.

(** ** The provider asked for the batches *)

Module ProviderFacts.
Import GoString Embeddings Main Spec.

Lemma batch_length (texts : list text) (k : nat) :
  length (batch texts k) = batchSize `min` (length texts - k * batchSize).
Proof. unfold batch. by rewrite length_take, length_drop. Qed.

(** The answers behind [a] batches that were not asked. *)
Lemma padded_lookup (a : nat) (answers : list (list vector)) (k j : nat) :
  (replicate a [] ++ answers) !! k ≫= (λ answer, answer !! j)
  = if decide (a ≤ k) then answers !! (k - a) ≫= (λ answer, answer !! j) else None.
Proof.
  destruct (decide (a ≤ k)) as [Hle|Hlt].
  - rewrite lookup_app_r by (rewrite length_replicate; lia). by rewrite length_replicate.
  - rewrite lookup_app_l by (rewrite length_replicate; lia).
    rewrite lookup_replicate_2 by lia. done.
Qed.

Lemma answeredAt_none (a : nat) (chunks : list Chunk) :
  imap (answeredAt (replicate a [] ++ [])) chunks = chunks.
Proof.
  apply list_eq. intros i. rewrite list_lookup_imap.
  destruct (chunks !! i) as [c|]; [|done]. simpl. f_equal.
  unfold answeredAt. rewrite padded_lookup.
  destruct (decide _); [|done]. by rewrite lookup_nil.
Qed.

Lemma place_in_batch (a i : nat) :
  (i / batchSize = a ↔ a * batchSize ≤ i < a * batchSize + batchSize)
  ∧ (a * batchSize ≤ i → i - a * batchSize < batchSize → i mod batchSize = i - a * batchSize).
Proof.
  unfold batchSize.
  pose proof (Nat.div_mod_eq i 100) as Hdiv.
  pose proof (Nat.mod_upper_bound i 100) as Hmod.
  split; [split|]; intros; nia.
Qed.

(** The lists of a concatenation found by division, when they have [n]
    elements each but for the last, which has at most [n]. *)
Lemma concat_lookup {A} (n : nat) (l : list (list A)) (i : nat) :
  0 < n →
  Forall (λ x, length x ≤ n) l →
  (∀ k x, l !! k = Some x → S k < length l → length x = n) →
  concat l !! i = l !! (i / n) ≫= (λ x, x !! (i mod n)).
Proof.
  intros Hn. revert i. induction l as [|x l IH]; intros i Hle Hfull; [done|].
  apply Forall_cons in Hle as [Hx Hle]. cbn [concat].
  destruct (decide (i < n)) as [Hi|Hi].
  - rewrite Nat.div_small, Nat.mod_small by done. cbn [lookup list_lookup mbind option_bind].
    destruct (decide (i < length x)) as [Hin|Hout]; [by rewrite lookup_app_l|].
    rewrite (lookup_ge_None_2 x) by lia.
    destruct l as [|y l]; [by rewrite app_nil_r, lookup_ge_None_2 by lia|].
    specialize (Hfull 0 x eq_refl). simpl in Hfull. lia.
  - destruct l as [|y l].
    + rewrite app_nil_r, lookup_ge_None_2 by lia.
      assert (0 < i / n) as Hk by (apply Nat.div_str_pos; lia).
      destruct (i / n); [lia|done].
    + assert (length x = n) as Hlen by (apply (Hfull 0); [done | simpl; lia]).
      rewrite lookup_app_r by lia. rewrite Hlen, IH; [|done|].
      2: { intros k z Hz Hk. apply (Hfull (S k)); [done | simpl in *; lia]. }
      assert (i / n = S ((i - n) / n)) as ->.
      { rewrite <- Nat.add_1_r, <- Nat.div_add by lia. f_equal. lia. }
      assert (i mod n = (i - n) mod n) as ->.
      { rewrite <- (Nat.Div0.mod_add (i - n) 1 n). f_equal. lia. }
      done.
Qed.

Lemma complete_lengths (answers : list (list vector)) (bs : list (list text)) :
  complete answers bs → length (concat answers) = length (concat bs).
Proof.
  induction 1 as [|answer b answers bs Hlen _ IH]; [done|].
  cbn [concat]. rewrite !length_app. lia.
Qed.

Lemma complete_fits (answers : list (list vector)) (bs : list (list text)) :
  complete answers bs → fits answers bs.
Proof.
  intros Hall. unfold fits. rewrite (Forall2_length _ _ _ Hall), firstn_all.
  eapply Forall2_impl; [exact Hall|]. intros answer b Hlen. simpl in Hlen. lia.
Qed.

(** The batches are the texts in their order, a hundred in each batch
    but the last, which has one at least. *)
Lemma batches_shape (texts : list text) :
  concat (batches texts) = texts
  ∧ length (batches texts) = (length texts + 99) / 100
  ∧ (∀ k b, batches texts !! k = Some b → b ≠ [] ∧ length b ≤ 100)
  ∧ (∀ k b, batches texts !! k = Some b → S k < length (batches texts) → length b = 100).
Proof.
  unfold batches.
  pose proof (BatchFacts.batchStarts_count (length texts)) as [Hall Hstarts].
  split; [|split; [|split]].
  - rewrite BatchFacts.batches_concat. apply take_ge, Hall.
  - by rewrite length_fmap, length_seq.
  - intros k b Hb. apply list_lookup_fmap_Some in Hb as (k' & -> & Hk%lookup_seq).
    destruct Hk as [-> Hk]. rewrite batch_length.
    split; [|unfold batchSize; lia].
    intros Hnil%(f_equal length). rewrite batch_length in Hnil.
    cbn [length] in Hnil.
    specialize (Hstarts k Hk). unfold batchSize in *. lia.
  - intros k b Hb Hnext. rewrite length_fmap, length_seq in Hnext.
    apply list_lookup_fmap_Some in Hb as (k' & -> & Hk%lookup_seq).
    destruct Hk as [-> Hk]. rewrite batch_length.
    specialize (Hstarts (S k) Hnext). unfold batchSize in *. lia.
Qed.

(** Complete answers, written to the chunks, are the embeddings of the
    answers one after the other, one for each chunk. *)
Lemma answeredAt_complete (answers : list (list vector)) (chunks : list Chunk) :
  complete answers (batches (Chunk_Content <$> chunks)) →
  length (concat answers) = length chunks
  ∧ imap (answeredAt answers) chunks = zip_with withEmbedding chunks (concat answers).
Proof.
  intros Hall.
  destruct (batches_shape (Chunk_Content <$> chunks)) as (Hconcat & _ & Hbound & Hfull).
  assert (length (concat answers) = length chunks) as Hlen.
  { by rewrite (complete_lengths _ _ Hall), Hconcat, length_fmap. }
  split; [done|].
  apply list_eq. intros i. rewrite list_lookup_imap, lookup_zip_with.
  destruct (chunks !! i) as [c|] eqn:Hc; [|done]. simpl.
  unfold answeredAt.
  rewrite <- (concat_lookup batchSize answers i); [|unfold batchSize; lia| |].
  { destruct (lookup_lt_is_Some_2 (concat answers) i) as [emb Hemb].
    - rewrite Hlen. by eapply lookup_lt_Some.
    - by rewrite Hemb. }
  - apply Forall_forall. intros answer [k Hk]%list_elem_of_lookup_1.
    destruct (Forall2_lookup_l _ _ _ _ _ Hall Hk) as (b & Hb & ->).
    by apply (Hbound k).
  - intros k answer Hk Hnext.
    destruct (Forall2_lookup_l _ _ _ _ _ Hall Hk) as (b & Hb & ->).
    apply (Hfull k); [done|]. by rewrite <- (Forall2_length _ _ _ Hall).
Qed.

Section Provider.
Context {C : Type} {embedding : EmbeddingClient C}.

Lemma asked_length (client client' : C) (bs : list (list text))
    (answers : list (list vector)) (failure : option error) :
  asked client bs = (client', answers, failure) →
  length answers ≤ length bs ∧ (failure = None → length answers = length bs).
Proof.
  revert client answers. induction bs as [|b bs IH]; intros client answers.
  - intros [= <- <- <-]. done.
  - cbn [asked]. destruct (EmbedBatch client b) as [[embeddings|err] client1].
    + destruct (asked client1 bs) as [[client2 answers'] failure'] eqn:Hrest.
      intros [= <- <- <-]. destruct (IH _ _ Hrest) as [Hle Heq].
      simpl. split; [lia|]. intros Hnone. by rewrite Heq.
    + intros [= <- <- <-]. simpl. split; [lia|done].
Qed.

(** The loop over the batches is the provider asked for them, and every
    answer written to the chunks of its batch. *)
Lemma embedBatches_asked (texts : list text) (m a : nat) (client client' : C)
    (chunks : list Chunk) (answers : list (list vector)) (failure : option error) :
  length chunks = length texts →
  (∀ k, k < a + m → k * batchSize ≤ length texts) →
  asked client (batch texts <$> seq a m) = (client', answers, failure) →
  fits answers (batch texts <$> seq a m) →
  embedBatches ((λ k, k * batchSize) <$> seq a m) client texts chunks
  = Returns (client', imap (answeredAt (replicate a [] ++ answers)) chunks,
             ErrGeneratingEmbeddings <$> failure).
Proof.
  revert a client chunks answers.
  induction m as [|m IH]; intros a client chunks answers Hlen Hstarts.
  { intros [= <- <- <-] _. cbn [seq fmap list_fmap embedBatches].
    by rewrite answeredAt_none. }
  cbn [seq fmap list_fmap embedBatches asked]. rewrite BatchFacts.batch_take.
  fold (batch texts a).
  destruct (EmbedBatch client (batch texts a)) as [[embeddings|err] client1].
  2: { intros [= <- <- <-] _. by rewrite answeredAt_none. }
  destruct (asked client1 (batch texts <$> seq (S a) m))
    as [[client2 answers'] failure'] eqn:Hrest.
  intros [= <- <- <-]. unfold fits. cbn [length take].
  intros [Hfit Hfits]%Forall2_cons.
  assert (length embeddings ≤ batchSize ∧ a * batchSize + length embeddings ≤ length texts)
    as [Hbatch Hend].
  { rewrite batch_length in Hfit. pose proof (Hstarts a ltac:(lia)).
    unfold batchSize in *. lia. }
  destruct (BatchFacts.writeEmbeddings_fits (a * batchSize) embeddings chunks)
    as (chunks1 & Hwrite & Hlen1); [by rewrite Hlen|].
  rewrite Hwrite.
  rewrite (IH (S a) client1 chunks1 answers'); [| lia | | exact Hrest | exact Hfits].
  2: { intros k Hk. apply Hstarts. lia. }
  do 2 f_equal. f_equal. apply list_eq. intros i. rewrite !list_lookup_imap.
  rewrite (AnswerFacts.writeEmbeddings_lookup _ _ _ _ i Hwrite).
  destruct (chunks !! i) as [c|]; [|done]. simpl. f_equal.
  unfold answeredAt, written_at.
  change ([] :: replicate a [] ++ answers') with (replicate (S a) [] ++ answers').
  rewrite !padded_lookup.
  destruct (place_in_batch a i) as [Hplace Hmod].
  pose proof (Nat.div_mod_eq i batchSize) as Hdiv.
  pose proof (Nat.mod_upper_bound i batchSize ltac:(done)) as Hupper.
  set (k := i / batchSize) in *. set (j := i mod batchSize) in *.
  set (start := a * batchSize) in *.
  destruct (decide (start ≤ i)) as [Hfrom|Hbefore].
  - destruct (decide (i - start < batchSize)) as [Hin|Hbehind].
    + assert (k = a) as -> by (apply Hplace; lia).
      rewrite (Hmod Hfrom Hin).
      rewrite (decide_False (P := S a ≤ a)) by lia.
      rewrite (decide_True (P := a ≤ a)) by lia.
      rewrite Nat.sub_diag. cbn [lookup list_lookup mbind option_bind].
      by destruct (embeddings !! (i - start)).
    + assert (a < k) as Hk.
      { destruct (decide (k = a)) as [Heq|Hne]; [apply Hplace in Heq; lia|].
        destruct (decide (k < a)) as [Hlt|]; [|lia].
        subst start. unfold batchSize in *. nia. }
      rewrite (lookup_ge_None_2 embeddings (i - start)) by lia.
      rewrite (decide_True (P := S a ≤ k)) by lia.
      rewrite (decide_True (P := a ≤ k)) by lia.
      by replace (k - a) with (S (k - S a)) by lia.
  - assert (k < a) as Hk.
    { destruct (decide (k < a)) as [Hlt|Hge]; [done|].
      subst start. unfold batchSize in *. nia. }
    rewrite (decide_False (P := S a ≤ k)) by lia.
    by rewrite (decide_False (P := a ≤ k)) by lia.
Qed.

(** [IndexChunks] is the provider asked for the batches of the contents:
    where it fails the call fails, and where it does not the chunks are
    stored, each with what the answers hold for it. *)
Lemma IndexChunks_asked (e : SemanticEngine C) (chunks : list Chunk) (client' : C)
    (answers : list (list vector)) (failure : option error) :
  asked (client e) (batches (Chunk_Content <$> chunks)) = (client', answers, failure) →
  fits answers (batches (Chunk_Content <$> chunks)) →
  SemanticEngine_IndexChunks e chunks
  = Returns (indexedWith e client' failure (imap (answeredAt answers) chunks),
             imap (answeredAt answers) chunks,
             ErrGeneratingEmbeddings <$> failure).
Proof.
  intros Hasked Hfits. unfold SemanticEngine_IndexChunks, batchStarts.
  pose proof (BatchFacts.batchStarts_count (length (Chunk_Content <$> chunks)))
    as [_ Hstarts].
  rewrite (embedBatches_asked _ _ 0 _ client' chunks answers failure);
    [| by rewrite length_fmap | | exact Hasked | exact Hfits].
  - by destruct failure.
  - intros k Hk. apply Nat.lt_le_incl, Hstarts. lia.
Qed.

(** Whatever the answers are, a call that returns has asked for the
    batches up to the first failure. *)
Lemma embedBatches_outcome (texts : list text) (starts : list nat) (client client' : C)
    (chunks : list Chunk) (answers : list (list vector)) (failure : option error) :
  asked client ((λ i, take batchSize (drop i texts)) <$> starts)
  = (client', answers, failure) →
  embedBatches starts client texts chunks = Panics
  ∨ ∃ chunks',
      embedBatches starts client texts chunks
      = Returns (client', chunks', ErrGeneratingEmbeddings <$> failure).
Proof.
  revert client chunks answers.
  induction starts as [|i starts IH]; intros client chunks answers.
  { intros [= <- <- <-]. right. by exists chunks. }
  cbn [fmap list_fmap embedBatches asked]. rewrite BatchFacts.batch_take.
  destruct (EmbedBatch client (take batchSize (drop i texts))) as [[embeddings|err] client1].
  2: { intros [= <- <- <-]. right. by exists chunks. }
  destruct (asked client1 _) as [[client2 answers'] failure'] eqn:Hrest.
  intros [= <- <- <-].
  destruct (writeEmbeddings i embeddings chunks) as [chunks1|]; [|by left].
  by eapply IH.
Qed.

Lemma IndexChunks_outcome (e : SemanticEngine C) (chunks : list Chunk) (client' : C)
    (answers : list (list vector)) (failure : option error) :
  asked (client e) (batches (Chunk_Content <$> chunks)) = (client', answers, failure) →
  SemanticEngine_IndexChunks e chunks = Panics
  ∨ ∃ chunks',
      SemanticEngine_IndexChunks e chunks
      = Returns (indexedWith e client' failure chunks', chunks',
                 ErrGeneratingEmbeddings <$> failure).
Proof.
  intros Hasked. unfold SemanticEngine_IndexChunks, batchStarts.
  destruct (embedBatches_outcome (Chunk_Content <$> chunks)
              ((λ k, k * batchSize)
                 <$> seq 0 ((length (Chunk_Content <$> chunks) + (batchSize - 1)) / batchSize))
              (client e) client' chunks answers failure) as [->|(chunks' & ->)].
  - rewrite <- list_fmap_compose. exact Hasked.
  - by left.
  - right. exists chunks'. by destruct failure.
Qed.

(** C2, as the code has it.  [IndexChunks] asks the provider for the
    batches of the contents, one after the other, and stops at the first
    batch the provider fails on, be it the first or a later one.  Then
    the call returns the provider's error wrapped, and the engine it
    leaves has the vector store and the indexed flag exactly as they
    were: no chunk of a failed call reaches the store, not even those of
    the batches that were answered, whose embeddings are written into
    the caller's chunks only.  When no batch fails, the chunks are
    appended to the store in one piece, each with the embedding the
    answers hold for it, and the flag is set.  This is what the call
    does whenever no answer holds more embeddings than its batch has
    texts; an answer that does may make the call panic, and is the only
    thing that can make the outcome another. *)
Theorem index_chunks_all_or_nothing (e : SemanticEngine C) (chunks : list Chunk)
    (client' : C) (answers : list (list vector)) (failure : option error) :
  asked (client e) (batches (Chunk_Content <$> chunks)) = (client', answers, failure) →
  (fits answers (batches (Chunk_Content <$> chunks)) →
   SemanticEngine_IndexChunks e chunks
   = Returns
       match failure with
       | Some cause =>
           ({| client := client'; store := store e; isIndexed := isIndexed e |},
            imap (answeredAt answers) chunks,
            Some (ErrGeneratingEmbeddings cause))
       | None =>
           ({| client := client';
               store := VectorStore_AddBatch (store e) (imap (answeredAt answers) chunks);
               isIndexed := true |},
            imap (answeredAt answers) chunks,
            None)
       end)
  ∧ (SemanticEngine_IndexChunks e chunks = Panics
     ∨ ∃ chunks',
         SemanticEngine_IndexChunks e chunks
         = Returns
             match failure with
             | Some cause =>
                 ({| client := client'; store := store e; isIndexed := isIndexed e |},
                  chunks', Some (ErrGeneratingEmbeddings cause))
             | None =>
                 ({| client := client';
                     store := VectorStore_AddBatch (store e) chunks';
                     isIndexed := true |},
                  chunks', None)
             end).
Proof.
  intros Hasked. split.
  - intros Hfits. rewrite (IndexChunks_asked _ _ _ _ _ Hasked Hfits). by destruct failure.
  - destruct (IndexChunks_outcome _ _ _ _ _ Hasked) as [Hpanics|(chunks' & Hreturns)];
      [by left|].
    right. exists chunks'. rewrite Hreturns. by destruct failure.
Qed.

(** [IndexChunks] sends the contents of the chunks to the provider in
    their order, each once, in batches of a hundred and a last batch of
    what is left; for no chunks it sends nothing.  With a provider that
    answers every batch with one embedding for each text, whichever it
    is, the call succeeds and stores the chunks, chunk after chunk with
    embedding after embedding of the answers. *)
Theorem index_chunks_sends_batches_of_100 (e : SemanticEngine C) (chunks : list Chunk) :
  concat (batches (Chunk_Content <$> chunks)) = Chunk_Content <$> chunks
  ∧ length (batches (Chunk_Content <$> chunks)) = (length chunks + 99) / 100
  ∧ (∀ k b, batches (Chunk_Content <$> chunks) !! k = Some b → b ≠ [] ∧ length b ≤ 100)
  ∧ (∀ k b, batches (Chunk_Content <$> chunks) !! k = Some b →
       S k < length (batches (Chunk_Content <$> chunks)) → length b = 100)
  ∧ (∀ client' answers,
       asked (client e) (batches (Chunk_Content <$> chunks)) = (client', answers, None) →
       complete answers (batches (Chunk_Content <$> chunks)) →
       length (concat answers) = length chunks
       ∧ SemanticEngine_IndexChunks e chunks
         = Returns ({| client := client';
                       store := VectorStore_AddBatch (store e)
                                  (zip_with withEmbedding chunks (concat answers));
                       isIndexed := true |},
                    zip_with withEmbedding chunks (concat answers),
                    None)).
Proof.
  destruct (batches_shape (Chunk_Content <$> chunks)) as (Hconcat & Hcount & Hbound & Hfull).
  rewrite length_fmap in Hcount.
  split; [done|]. split; [done|]. split; [done|]. split; [done|].
  intros client' answers Hasked Hall.
  destruct (answeredAt_complete _ _ Hall) as [Hlen Hwritten].
  split; [done|].
  rewrite (IndexChunks_asked _ _ _ _ _ Hasked (complete_fits _ _ Hall)).
  cbn [indexedWith fmap option_fmap option_map]. by rewrite Hwritten.
Qed.

End Provider.

Section Build.
Context {unicode : Unicode} {os : Book.OS} {json : Book.JSON} {sort : Book.Sort}.
Context {C : Type} {embedding : EmbeddingClient C}.

(** The loop over the locales stops at the first that cannot be
    listed. *)
Lemma localeChunks_first_failure (parser : Book.Parser) (locales : list text)
    (st : list Chunk * Z) (r : CallToolResult) :
  localeChunks parser locales st = Err r →
  ∃ before locale after err,
    locales = before ++ locale :: after
    ∧ Forall (λ locale, ∃ chapters, Book.ListChapters parser locale = Ok chapters) before
    ∧ Book.ListChapters parser locale = Err err
    ∧ r = ErrorReadingChapters locale err.
Proof.
  revert st. induction locales as [|locale locales IH]; intros st; [done|].
  cbn [localeChunks]. destruct (Book.ListChapters parser locale) as [chapters|err] eqn:Hlist.
  - intros (before & l & after & e & -> & Hbefore & Hl & ->)%IH.
    exists (locale :: before), l, after, e. split; [done|]. split; [|done].
    constructor; [by exists chapters | done].
  - intros [= <-]. by exists [], locale, locales, err.
Qed.

(** What a build of the index does, from what the book and the provider
    give.  Without an engine the handler reports that and does nothing.
    When a locale asked for cannot be listed, the reading error of the
    first such locale is reported and the engine is left as it was, the
    provider not asked.  When all can be listed, the provider is asked
    for the batches of the chunks built: where it fails on a batch, the
    error is reported with the store and the flag as they were; where it
    answers all, the chunks built are appended to the store, each with
    the embedding the answers hold for it, the index counts as built,
    and the message gives the number of chunks and of locales.  (The
    answers are taken to hold no more embeddings than their batches have
    texts.) *)
Theorem build_index_all_or_nothing (parser : Book.Parser) (engine : SemanticEngine C)
    (localeParam : text) :
  handleBuildSemanticIndex parser None localeParam
  = Returns (None, SemanticSearchNotAvailable)
  ∧ match buildChunks parser localeParam with
    | Err r =>
        handleBuildSemanticIndex parser (Some engine) localeParam
        = Returns (Some engine, r)
        ∧ ∃ before locale after err,
            requested localeParam = before ++ locale :: after
            ∧ Forall (λ locale, ∃ chapters, Book.ListChapters parser locale = Ok chapters)
                     before
            ∧ Book.ListChapters parser locale = Err err
            ∧ r = ErrorReadingChapters locale err
    | Ok allChunks =>
        Forall (λ locale, ∃ chapters, Book.ListChapters parser locale = Ok chapters)
               (requested localeParam)
        ∧ ∀ client' answers failure,
            asked (client engine) (batches (Chunk_Content <$> allChunks))
            = (client', answers, failure) →
            fits answers (batches (Chunk_Content <$> allChunks)) →
            handleBuildSemanticIndex parser (Some engine) localeParam
            = Returns
                match failure with
                | Some cause =>
                    (Some {| client := client';
                             store := store engine;
                             isIndexed := isIndexed engine |},
                     ErrorIndexing (ErrGeneratingEmbeddings cause))
                | None =>
                    (Some {| client := client';
                             store := VectorStore_AddBatch (store engine)
                                        (imap (answeredAt answers) allChunks);
                             isIndexed := true |},
                     SuccessfullyIndexed (length allChunks)
                                         (length (requested localeParam)))
                end
    end.
Proof.
  split; [done|]. unfold handleBuildSemanticIndex, buildChunks.
  fold (requested localeParam).
  destruct (localeChunks parser (requested localeParam) ([], 0%Z))
    as [[allChunks counter]|r] eqn:Hloop.
  - split; [by eapply BuildFacts.localeChunks_success|].
    intros client' answers failure Hasked Hfits.
    rewrite (IndexChunks_asked _ _ _ _ _ Hasked Hfits).
    destruct failure as [cause|]; [done|].
    cbn [fmap option_fmap option_map indexedWith]. do 3 f_equal.
    unfold localeCount, requested. by destruct (bool_decide _).
  - split; [done|]. by eapply localeChunks_first_failure.
Qed.

End Build.

Lemma index_chunks_all_or_nothing_witness :
  SemanticEngine_IndexChunks
    (NewSemanticEngine [Some Samples.unitVector; None]) Samples.hundredAndOne
  = Returns ({| client := []; store := NewVectorStore; isIndexed := false |},
             imap (answeredAt [replicate 100 Samples.unitVector]) Samples.hundredAndOne,
             Some (ErrGeneratingEmbeddings (ErrClient (T "provider failure")))).
Proof.
  destruct (index_chunks_all_or_nothing
              (NewSemanticEngine [Some Samples.unitVector; None]) Samples.hundredAndOne
              [] [replicate 100 Samples.unitVector]
              (Some (ErrClient (T "provider failure")))) as [Hcall _].
  - by vm_compute.
  - apply Hcall. unfold fits. vm_compute. by repeat constructor.
Defined.

(** The recording provider, sent a hundred and one chunks: a batch of a
    hundred and a batch of one. *)
Example index_chunks_sends_two_batches :
  match SemanticEngine_IndexChunks (NewSemanticEngine ([] : Samples.recorder))
          Samples.hundredAndOne with
  | Returns (e', _, None) =>
      client e' = batches (Chunk_Content <$> Samples.hundredAndOne)
      ∧ length <$> client e' = [100; 1]
  | _ => False
  end.
Proof. by vm_compute. Qed.

End ProviderFacts.
